(** * Circuit solver and component physics engine

    A shallow embedding of the TypeScript sources of the circuit simulator
    (core/Component.ts, core/Wire.ts, core/CircuitSimulator.ts,
    components/*.ts, physics/PhysicsEngine.ts, math/Vector2.ts and the
    wire tool of input/InputManager.ts).

    JavaScript numbers are IEEE 754 binary64 values; they are modelled by the
    kernel's primitive floats, so every arithmetic expression of the source is
    evaluated with the rounding the program really performs.  Node
    identifiers are the results of [Math.floor] and of [Math.min]/[Math.max]
    over such results, hence integers: they are modelled in [Z]. *)

From Stdlib Require Import ZArith Lia List Floats.
From stdpp Require Import base option list.

Set Warnings "-inexact-float".

(** ** JavaScript numbers *)

Module Js.

Definition number : Type := float.

Definition NaN : float := nan.
Definition Infinity : float := infinity.

(** [Math.abs(x)]. *)
Definition Math_abs (x : float) : float := PrimFloat.abs x.

(** [x < y], [x > y], [x >= y] and [x !== y] on numbers. *)
Definition lt (x y : float) : bool := PrimFloat.ltb x y.
Definition gt (x y : float) : bool := PrimFloat.ltb y x.
Definition ge (x y : float) : bool := PrimFloat.leb y x.
Definition strict_ne (x y : float) : bool := negb (PrimFloat.eqb x y).

(** A number is falsy when it is [0], [-0] or [NaN]; [x || d] evaluates to
    [d] exactly then. *)
Definition truthy (x : float) : bool :=
  negb (PrimFloat.eqb x 0%float || PrimFloat.is_nan x).

Definition or_else (x d : float) : float := if truthy x then x else d.

(** [Math.min] and [Math.max]: [NaN] is contagious and [-0] is below [+0]. *)
Definition Math_min (x y : float) : float :=
  if PrimFloat.is_nan x || PrimFloat.is_nan y then nan
  else if PrimFloat.ltb x y then x
  else if PrimFloat.ltb y x then y
  else if PrimFloat.get_sign x then x else y.

Definition Math_max (x y : float) : float :=
  if PrimFloat.is_nan x || PrimFloat.is_nan y then nan
  else if PrimFloat.ltb x y then y
  else if PrimFloat.ltb y x then x
  else if PrimFloat.get_sign x then y else x.

(** [Math.floor] of a finite number, as an integer.  The source applies it
    to [Math.random() * 1000000], which is finite; the other cases are
    mapped to [0]. *)
Definition Math_floor (x : float) : Z :=
  match Prim2SF x with
  | S754_finite s m e => Z.shiftl (if s then Z.neg m else Z.pos m) e
  | _ => 0%Z
  end.

(** [Math.PI]. *)
Definition Math_PI : float := 0x1.921fb54442d18p+1%float.

(** Reading a number out of an array: an index past the end yields
    [undefined], which every arithmetic operator and [Math.abs] coerce to
    [NaN]. *)
Definition get (xs : list float) (j : nat) : float := nth j xs nan.

(** Writing [xs[j] = v]: an index past the end extends the array, leaving
    holes (read back as [undefined], hence as [NaN] in arithmetic). *)
Fixpoint set (xs : list float) (j : nat) (v : float) : list float :=
  match j, xs with
  | O, [] => [v]
  | O, _ :: t => v :: t
  | S j', [] => nan :: set [] j' v
  | S j', h :: t => h :: set t j' v
  end.

(** Outcome of a piece of code that may throw.  The only exception the
    modelled code can raise is the [TypeError] of indexing [undefined]. *)
Inductive completion (A : Type) : Type :=
| Normal (a : A)
| TypeError.
Arguments Normal {A} a.
Arguments TypeError {A}.

Definition bind {A B} (c : completion A) (k : A -> completion B) : completion B :=
  match c with
  | Normal a => k a
  | TypeError => TypeError
  end.

(** [rows[k][...]]: indexing a missing row throws. *)
Definition row (rows : list (list float)) (k : nat) : completion (list float) :=
  match rows !! k with
  | Some r => Normal r
  | None => TypeError
  end.

End Js.

Notation "x <- c ;; k" := (Js.bind c (fun x => k))
  (at level 100, c at next level, right associativity).

(** ** PhysicsEngine.gaussianElimination, on array values *)

Module Gauss.
Import Js.

Definition tolerance : float := 1e-10%float.

(** [A.map((row, i) => [...row, b[i]])]; a missing [b[i]] is [undefined]. *)
Definition augment (A : list (list float)) (b : list float) : list (list float) :=
  imap (fun i r => r ++ [Js.get b i]) A.

(** The pivot search: [for (k = i + 1; k < n; k++) if (|aug[k][i]| >
    |aug[maxRow][i]|) maxRow = k], over the indices [ks]. *)
Fixpoint findPivot (aug : list (list float)) (i : nat) (ks : list nat) (maxRow : nat)
  : completion nat :=
  match ks with
  | [] => Normal maxRow
  | k :: ks' =>
      rk <- Js.row aug k ;;
      rm <- Js.row aug maxRow ;;
      findPivot aug i ks'
        (if Js.gt (Math_abs (Js.get rk i)) (Math_abs (Js.get rm i)) then k else maxRow)
  end.

(** [[aug[i], aug[maxRow]] = [aug[maxRow], aug[i]]].  Since [i <= maxRow] and
    the row [maxRow] was read by the search whenever [maxRow <> i], a row can
    be missing only when both are; the swap then stores [undefined] and the
    access [aug[i][i]] that follows it throws. *)
Definition swapRows (aug : list (list float)) (i maxRow : nat) : completion (list (list float)) :=
  ri <- Js.row aug i ;;
  rm <- Js.row aug maxRow ;;
  Normal (<[maxRow := ri]> (<[i := rm]> aug)).

(** [for (j = i; j <= n; j++) aug[k][j] -= factor * aug[i][j]], on the row [k]. *)
Definition eliminateRow (factor : float) (ri : list float) (js : list nat) (rk : list float)
  : list float :=
  fold_left (fun r j => Js.set r j (Js.get r j - factor * Js.get ri j)%float) js rk.

(** [for (k = i + 1; k < n; k++) { factor = aug[k][i] / aug[i][i]; ... }]. *)
Fixpoint eliminate (aug : list (list float)) (i n : nat) (ks : list nat)
  : completion (list (list float)) :=
  match ks with
  | [] => Normal aug
  | k :: ks' =>
      rk <- Js.row aug k ;;
      ri <- Js.row aug i ;;
      let factor := (Js.get rk i / Js.get ri i)%float in
      eliminate (<[k := eliminateRow factor ri (seq i (S n - i)) rk]> aug) i n ks'
  end.

(** The rows [aug[i][i]] is read from after the swap of iteration [i]. *)
Definition pivoted (aug : list (list float)) (i n : nat) : completion (list (list float)) :=
  maxRow <- findPivot aug i (seq (S i) (n - S i)) i ;;
  swapRows aug i maxRow.

Definition pivotOf (aug : list (list float)) (i : nat) : completion float :=
  ri <- Js.row aug i ;; Normal (Js.get ri i).

(** One iteration of the forward-elimination loop. *)
Definition forwardStep (n : nat) (aug : list (list float)) (i : nat)
  : completion (list (list float)) :=
  aug1 <- pivoted aug i n ;;
  p <- pivotOf aug1 i ;;
  if Js.lt (Math_abs p) tolerance then Normal aug1
  else eliminate aug1 i n (seq (S i) (n - S i)).

Fixpoint forwardLoop (n : nat) (aug : list (list float)) (idx : list nat)
  : completion (list (list float)) :=
  match idx with
  | [] => Normal aug
  | i :: idx' => aug' <- forwardStep n aug i ;; forwardLoop n aug' idx'
  end.

Definition forwardElimination (n : nat) (aug : list (list float)) : completion (list (list float)) :=
  forwardLoop n aug (seq 0 n).

(** [for (j = i + 1; j < n; j++) x[i] -= aug[i][j] * x[j]], on the value of [x[i]]. *)
Definition substitute (ri x : list float) (js : list nat) (xi : float) : float :=
  fold_left (fun acc j => (acc - Js.get ri j * Js.get x j)%float) js xi.

(** One iteration of the back-substitution loop. *)
Definition backStep (n : nat) (aug : list (list float)) (x : list float) (i : nat)
  : completion (list float) :=
  ri <- Js.row aug i ;;
  if Js.lt (Math_abs (Js.get ri i)) tolerance then Normal (Js.set x i 0%float)
  else
    Normal (Js.set x i
      (substitute ri x (seq (S i) (n - S i)) (Js.get ri n) / Js.get ri i)%float).

Fixpoint backLoop (n : nat) (aug : list (list float)) (x : list float) (idx : list nat)
  : completion (list float) :=
  match idx with
  | [] => Normal x
  | i :: idx' => x' <- backStep n aug x i ;; backLoop n aug x' idx'
  end.

(** [x = Array(n).fill(0); for (i = n - 1; i >= 0; i--) ...]. *)
Definition backSubstitution (n : nat) (aug : list (list float)) : completion (list float) :=
  backLoop n aug (replicate n 0%float) (rev (seq 0 n)).

(** [gaussianElimination(A, b)]: [None] is the [null] result. *)
Definition gaussianElimination (A : list (list float)) (b : list float)
  : completion (option (list float)) :=
  let n := length b in
  if Nat.eqb n 0 then Normal None
  else
    aug <- forwardElimination n (augment A b) ;;
    x <- backSubstitution n aug ;;
    Normal (Some x).

End Gauss.

Example gauss_2x2 :
  Gauss.gaussianElimination [[2; 1]; [1; 3]]%float [3; 5]%float
  = Js.Normal (Some [0.80000000000000004; 1.3999999999999999]%float).
Proof. vm_compute. reflexivity. Qed.

(** *** Arrays of numbers *)

Lemma set_length (xs : list float) j v :
  length (Js.set xs j v) = Nat.max (length xs) (S j).
Proof.
  revert xs; induction j as [|j IH]; intros [|h t]; simpl; try lia.
  - rewrite IH; simpl; lia.
  - rewrite IH; lia.
Qed.

Lemma set_in_range (xs : list float) j v :
  j < length xs -> Js.set xs j v = <[j := v]> xs.
Proof.
  revert xs; induction j as [|j IH]; intros [|h t] Hj; simpl in *; try lia; auto.
  f_equal; apply IH; lia.
Qed.

Lemma get_set_eq (xs : list float) j v : Js.get (Js.set xs j v) j = v.
Proof.
  unfold Js.get; revert xs; induction j as [|j IH]; intros [|h t]; simpl; auto.
Qed.

Lemma get_set_ne (xs : list float) j k v :
  j <> k -> Js.get (Js.set xs j v) k = Js.get xs k.
Proof.
  unfold Js.get; revert xs k; induction j as [|j IH]; intros [|h t] [|k] Hne;
    simpl; try congruence; auto.
  - destruct k; reflexivity.
  - rewrite IH by congruence. destruct k; reflexivity.
Qed.

Lemma row_Normal rows k r : Js.row rows k = Js.Normal r <-> rows !! k = Some r.
Proof. unfold Js.row; destruct (rows !! k); split; congruence. Qed.

Lemma row_in_range (rows : list (list float)) k :
  k < length rows -> exists r, Js.row rows k = Js.Normal r.
Proof.
  intros Hk; destruct (lookup_lt_is_Some_2 rows k Hk) as [r Hr].
  exists r; now apply row_Normal.
Qed.

Lemma row_missing (rows : list (list float)) k :
  length rows <= k -> Js.row rows k = Js.TypeError.
Proof. intros Hk; unfold Js.row; now rewrite lookup_ge_None_2. Qed.

(** *** Forward elimination runs to completion and freezes the rows above *)

Section GaussLemmas.
Import Gauss.

Lemma augment_length A b : length (augment A b) = length A.
Proof. unfold augment; apply length_imap. Qed.

Lemma findPivot_ok aug i ks maxRow :
  Forall (fun k => k < length aug) ks -> maxRow < length aug ->
  exists m, findPivot aug i ks maxRow = Js.Normal m /\ m < length aug /\
            (m = maxRow \/ m ∈ ks).
Proof.
  revert maxRow; induction ks as [|k ks IH]; intros maxRow Hks Hm; simpl.
  - exists maxRow; auto.
  - apply Forall_cons in Hks as [Hk Hks].
    destruct (row_in_range aug k Hk) as [rk ->].
    destruct (row_in_range aug maxRow Hm) as [rm ->]; simpl.
    destruct (Js.gt _ _).
    + destruct (IH k Hks Hk) as (m & -> & ? & Hin); exists m; repeat split; auto.
      right; destruct Hin as [->|Hin]; [left|right]; auto.
    + destruct (IH maxRow Hks Hm) as (m & -> & ? & Hin); exists m; repeat split; auto.
      destruct Hin as [->|Hin]; [left|right; right]; auto.
Qed.

Lemma seq_bounds lo len : Forall (fun k => lo <= k < lo + len) (seq lo len).
Proof. apply Forall_forall; intros k Hk; apply elem_of_seq in Hk; lia. Qed.

Lemma pivoted_ok aug i n :
  i < n -> n <= length aug ->
  exists aug1, pivoted aug i n = Js.Normal aug1 /\ length aug1 = length aug /\
               forall k, k < i -> aug1 !! k = aug !! k.
Proof.
  intros Hi Hn; unfold pivoted.
  destruct (findPivot_ok aug i (seq (S i) (n - S i)) i) as (m & -> & Hm & Hin).
  { eapply Forall_impl; [apply seq_bounds|]; simpl; intros; lia. }
  { lia. }
  simpl; unfold swapRows.
  destruct (row_in_range aug i) as [ri ->]; [lia|].
  destruct (row_in_range aug m Hm) as [rm ->]; simpl.
  eexists; split; [reflexivity|]; split.
  - now rewrite !length_insert.
  - intros k Hk.
    assert (i <= m) by (destruct Hin as [->|Hin]; [lia|apply elem_of_seq in Hin; lia]).
    rewrite !list_lookup_insert_ne by lia; reflexivity.
Qed.

Lemma eliminate_ok aug i n ks :
  Forall (fun k => i < k < length aug) ks ->
  exists aug', eliminate aug i n ks = Js.Normal aug' /\ length aug' = length aug /\
               forall k, k <= i -> aug' !! k = aug !! k.
Proof.
  revert aug; induction ks as [|k ks IH]; intros aug Hks; simpl.
  - exists aug; auto.
  - apply Forall_cons in Hks as [Hk Hks].
    destruct (row_in_range aug k) as [rk ->]; [lia|].
    destruct (row_in_range aug i) as [ri ->]; [lia|]; simpl.
    match goal with |- context [eliminate ?a _ _ _] => destruct (IH a) as (aug' & -> & Hlen & Hrows) end.
    { rewrite length_insert; exact Hks. }
    exists aug'; split; [reflexivity|]; split.
    + now rewrite Hlen, length_insert.
    + intros j Hj; rewrite Hrows by lia; apply list_lookup_insert_ne; lia.
Qed.

Lemma forwardStep_ok n aug i :
  i < n -> n <= length aug ->
  exists aug1 aug',
    pivoted aug i n = Js.Normal aug1 /\ forwardStep n aug i = Js.Normal aug' /\
    length aug' = length aug /\ aug' !! i = aug1 !! i /\
    forall k, k < i -> aug' !! k = aug !! k.
Proof.
  intros Hi Hn; unfold forwardStep.
  destruct (pivoted_ok aug i n Hi Hn) as (aug1 & Hp & Hlen & Hrows).
  exists aug1; rewrite Hp; simpl; unfold pivotOf.
  destruct (row_in_range aug1 i) as [ri ->]; [lia|]; simpl.
  destruct (Js.lt _ _).
  - exists aug1; auto.
  - destruct (eliminate_ok aug1 i n (seq (S i) (n - S i))) as (aug' & -> & Hlen' & Hrows').
    { eapply Forall_impl; [apply seq_bounds|]; simpl; intros; lia. }
    exists aug'; repeat split; auto; try congruence.
    intros k Hk; rewrite Hrows' by lia; auto.
Qed.

Lemma forwardLoop_app n aug l1 l2 :
  forwardLoop n aug (l1 ++ l2) = (aug' <- forwardLoop n aug l1 ;; forwardLoop n aug' l2).
Proof.
  revert aug; induction l1 as [|i l1 IH]; intros aug; simpl; auto.
  destruct (forwardStep n aug i); simpl; auto.
Qed.

Lemma forwardLoop_ok n lo idx aug :
  Forall (fun i => lo <= i < n) idx -> n <= length aug ->
  exists aug', forwardLoop n aug idx = Js.Normal aug' /\ length aug' = length aug /\
               forall k, k < lo -> aug' !! k = aug !! k.
Proof.
  revert aug; induction idx as [|i idx IH]; intros aug Hidx Hn; simpl.
  - exists aug; auto.
  - apply Forall_cons in Hidx as [Hi Hidx].
    destruct (forwardStep_ok n aug i) as (aug1 & aug2 & _ & -> & Hlen & _ & Hrows); [lia..|].
    simpl. destruct (IH aug2 Hidx) as (aug' & -> & Hlen' & Hrows'); [lia|].
    exists aug'; repeat split; [congruence|].
    intros k Hk; rewrite Hrows' by lia; apply Hrows; lia.
Qed.

(** The pivot of iteration [i]: the entry [aug[i][i]] that the test
    [Math.abs(augmented[i][i]) < 1e-10] of that iteration reads. *)
Definition pivotAt (n : nat) (aug : list (list float)) (i : nat) : Js.completion float :=
  augi <- forwardLoop n aug (seq 0 i) ;;
  aug1 <- pivoted augi i n ;;
  pivotOf aug1 i.

Lemma pivot_is_final_diagonal n aug i :
  i < n -> n <= length aug ->
  exists aug', forwardElimination n aug = Js.Normal aug' /\ length aug' = length aug /\
               pivotAt n aug i = pivotOf aug' i.
Proof.
  intros Hi Hn; unfold forwardElimination, pivotAt.
  replace (seq 0 n) with (seq 0 i ++ [i] ++ seq (S i) (n - S i)).
  2:{ change ([i] ++ seq (S i) (n - S i)) with (seq i (S (n - S i))).
      rewrite <- seq_app; f_equal; lia. }
  rewrite !forwardLoop_app.
  destruct (forwardLoop_ok n 0 (seq 0 i) aug) as (augi & -> & Hleni & _); auto.
  { eapply Forall_impl; [apply seq_bounds|]; simpl; intros; lia. }
  simpl.
  destruct (forwardStep_ok n augi i) as (aug1 & aug2 & -> & -> & Hlen2 & Hrow & _); [lia..|].
  simpl.
  destruct (forwardLoop_ok n (S i) (seq (S i) (n - S i)) aug2) as (aug' & -> & Hlen' & Hrows).
  { eapply Forall_impl; [apply seq_bounds|]; simpl; intros; lia. }
  { lia. }
  exists aug'; repeat split; [congruence|].
  unfold pivotOf, Js.row; rewrite Hrows, Hrow by lia; reflexivity.
Qed.

(** *** Back substitution fills every unknown exactly once *)

Lemma elem_of_rev_seq i n : i ∈ rev (seq 0 n) <-> i < n.
Proof.
  rewrite list_elem_of_In, <- in_rev, <- list_elem_of_In, elem_of_seq; lia.
Qed.

Lemma backStep_ok n aug x i :
  i < length aug -> i < length x ->
  exists x', backStep n aug x i = Js.Normal x' /\ length x' = length x /\
             (forall k, k <> i -> x' !! k = x !! k) /\
             (forall d, pivotOf aug i = Js.Normal d ->
                        Js.lt (Js.Math_abs d) tolerance = true -> x' !! i = Some 0%float).
Proof.
  intros Hi Hx; unfold backStep, pivotOf.
  destruct (row_in_range aug i Hi) as [ri ->]; simpl.
  destruct (Js.lt _ _) eqn:Hsmall; eexists; (split; [reflexivity|]);
    rewrite !set_in_range by assumption; rewrite length_insert; (split; [reflexivity|]); split.
  - intros k Hk; apply list_lookup_insert_ne; congruence.
  - intros _ _ _; now apply list_lookup_insert_eq.
  - intros k Hk; apply list_lookup_insert_ne; congruence.
  - intros d [= <-]; congruence.
Qed.

Lemma backLoop_ok n aug idx x :
  NoDup idx -> Forall (fun i => i < length aug /\ i < length x) idx ->
  exists x', backLoop n aug x idx = Js.Normal x' /\ length x' = length x /\
             (forall k, k ∉ idx -> x' !! k = x !! k) /\
             (forall i d, i ∈ idx -> pivotOf aug i = Js.Normal d ->
                          Js.lt (Js.Math_abs d) tolerance = true -> x' !! i = Some 0%float).
Proof.
  revert x; induction idx as [|i idx IH]; intros x Hnd Hidx; simpl.
  - exists x; repeat split; auto. intros i d Hin; inversion Hin.
  - apply NoDup_cons in Hnd as [Hni Hnd]. apply Forall_cons in Hidx as [[Hi Hx] Hidx].
    destruct (backStep_ok n aug x i Hi Hx) as (x1 & -> & Hlen1 & Hother & Hzero); simpl.
    destruct (IH x1 Hnd) as (x' & -> & Hlen' & Hkeep & Hzeros).
    { eapply Forall_impl; [exact Hidx|]; simpl; intros; lia. }
    exists x'; repeat split; [congruence| |].
    + intros k Hk. apply not_elem_of_cons in Hk as [Hki Hk].
      rewrite Hkeep by assumption; now apply Hother.
    + intros j d Hj Hd Hsmall. apply elem_of_cons in Hj as [->|Hj].
      * rewrite Hkeep by assumption; eauto.
      * eauto.
Qed.

End GaussLemmas.

(** *** The solver's result *)

Lemma gaussianElimination_null_iff A b :
  Gauss.gaussianElimination A b = Js.Normal None <-> length b = 0.
Proof.
  unfold Gauss.gaussianElimination.
  destruct (length b) as [|n] eqn:Hn; simpl; [tauto|].
  split; [|discriminate].
  destruct (Gauss.forwardElimination _ _); simpl; [|discriminate].
  destruct (Gauss.backSubstitution _ _); simpl; discriminate.
Qed.

(** A matrix with fewer rows than [b] has entries is not a system the engine
    ever builds ([solveCircuit] allocates a square [G]); indexing the missing
    row is the one way the solver can throw. *)
Example gaussianElimination_missing_row :
  Gauss.gaussianElimination [] [1%float] = Js.TypeError.
Proof. reflexivity. Qed.

(** C6.  The solver returns [null] exactly when the system has no unknown.
    For a system with [n >= 1] unknowns (a matrix with a row for each of
    them) it returns normally, with a vector of [n] numbers; every unknown
    whose pivot, or whose diagonal entry at back substitution, has magnitude
    below [1e-10] is [0] in that vector. *)
Theorem gaussianElimination_returns_solution (A : list (list float)) (b : list float) :
  (Gauss.gaussianElimination A b = Js.Normal None <-> length b = 0) /\
  (0 < length b -> length b <= length A ->
   exists aug x,
     Gauss.forwardElimination (length b) (Gauss.augment A b) = Js.Normal aug /\
     Gauss.backSubstitution (length b) aug = Js.Normal x /\
     Gauss.gaussianElimination A b = Js.Normal (Some x) /\
     length x = length b /\
     forall i d, i < length b ->
       pivotAt (length b) (Gauss.augment A b) i = Js.Normal d \/
       Gauss.pivotOf aug i = Js.Normal d ->
       Js.lt (Js.Math_abs d) Gauss.tolerance = true ->
       x !! i = Some 0%float).
Proof.
  split; [apply gaussianElimination_null_iff|].
  intros Hn Hrows.
  set (n := length b) in *.
  assert (Haug : n <= length (Gauss.augment A b)) by now rewrite augment_length.
  destruct (forwardLoop_ok n 0 (seq 0 n) (Gauss.augment A b)) as (aug & Hfwd & Hlen & _); auto.
  { eapply Forall_impl; [apply seq_bounds|]; simpl; intros; lia. }
  destruct (backLoop_ok n aug (rev (seq 0 n)) (replicate n 0%float))
    as (x & Hback & Hlenx & _ & Hzero).
  { apply NoDup_ListNoDup, List.NoDup_rev, NoDup_ListNoDup, NoDup_seq. }
  { apply Forall_forall; intros i Hi; apply elem_of_rev_seq in Hi.
    rewrite length_replicate; lia. }
  exists aug, x; repeat split.
  - exact Hfwd.
  - exact Hback.
  - unfold Gauss.gaussianElimination; fold n.
    destruct (Nat.eqb_spec n 0) as [?|_]; [lia|].
    unfold Gauss.forwardElimination, Gauss.backSubstitution.
    now rewrite Hfwd; simpl; rewrite Hback.
  - now rewrite Hlenx, length_replicate.
  - intros i d Hi Hd Hsmall.
    apply (Hzero i d); [now apply elem_of_rev_seq| |exact Hsmall].
    destruct Hd as [Hd|Hd]; [|exact Hd].
    destruct (pivot_is_final_diagonal n (Gauss.augment A b) i Hi Haug) as (aug' & Hfwd' & _ & Heq).
    unfold Gauss.forwardElimination in Hfwd'; rewrite Hfwd in Hfwd'.
    injection Hfwd' as <-; now rewrite <- Heq.
Qed.

(** The theorem at a singular system: [x + y = 2] twice.  The second pivot
    is [0], and the solver answers [[2; 0]]. *)
Lemma gaussianElimination_returns_solution_witness :
  exists aug x,
    Gauss.forwardElimination 2 (Gauss.augment [[1; 1]; [1; 1]]%float [2; 2]%float) = Js.Normal aug /\
    Gauss.backSubstitution 2 aug = Js.Normal x /\
    Gauss.gaussianElimination [[1; 1]; [1; 1]]%float [2; 2]%float = Js.Normal (Some x) /\
    length x = 2 /\
    forall i d, i < 2 ->
      pivotAt 2 (Gauss.augment [[1; 1]; [1; 1]]%float [2; 2]%float) i = Js.Normal d \/
      Gauss.pivotOf aug i = Js.Normal d ->
      Js.lt (Js.Math_abs d) Gauss.tolerance = true ->
      x !! i = Some 0%float.
Proof.
  apply (proj2 (gaussianElimination_returns_solution [[1; 1]; [1; 1]]%float [2; 2]%float));
    simpl; lia.
Defined.

Example gauss_singular :
  Gauss.gaussianElimination [[1; 1]; [1; 1]]%float [2; 2]%float
  = Js.Normal (Some [2; 0]%float).
Proof. vm_compute. reflexivity. Qed.

(** ** core/Component.ts *)

(** A terminal: its node id for circuit analysis, its solved voltage and its
    solved current.  The [position] of the source is a presentation
    attribute that no electrical computation reads; it is left out, as are
    the component's [id], [type] tag, [position], [rotation], [width],
    [height] and [color]. *)
Module Terminal.

Record t : Type := mk { node : Z; voltage : float; current : float }.

Definition withNode (x : t) (n : Z) : t := mk n (voltage x) (current x).
Definition withVoltage (x : t) (v : float) : t := mk (node x) v (current x).
Definition withCurrent (x : t) (c : float) : t := mk (node x) (voltage x) c.

End Terminal.

(** The source of node ids: the static counter [Component.nextNodeId] and
    the stream of values [Math.random()] returns ([drawn] counts the calls
    made so far). *)
Module Ids.

Record t : Type := mk { nextNodeId : Z; random : nat -> float; drawn : nat }.

(** [Math.random()]. *)
Definition Math_random (s : t) : float * t :=
  (random s (drawn s), mk (nextNodeId s) (random s) (S (drawn s))).

(** [this.id = `..._${Math.random().toString(36).substr(2, 9)}`] in the
    constructors of [Component] and of [Wire].  Objects are told apart by
    their address here and no code modelled reads the string: what is kept
    of the assignment is the number it draws. *)
Definition newId (s : t) : t := snd (Math_random s).

End Ids.

Module Component.
Local Open Scope float_scope.

(** The fields of the abstract base class; [self] holds the fields the
    subclass adds. *)
Record t (F : Type) : Type := mk {
  self : F;
  terminals : list Terminal.t;
  temperature : float;
  maxTemperature : float;
  isBurned : bool;
  powerDissipation : float
}.
Arguments mk {F} _ _ _ _ _ _.
Arguments self {F} _.
Arguments terminals {F} _.
Arguments temperature {F} _.
Arguments maxTemperature {F} _.
Arguments isBurned {F} _.
Arguments powerDissipation {F} _.

Definition withSelf {F G} (c : t F) (s : G) : t G :=
  mk s (terminals c) (temperature c) (maxTemperature c) (isBurned c) (powerDissipation c).
Definition withTerminals {F} (c : t F) (ts : list Terminal.t) : t F :=
  mk (self c) ts (temperature c) (maxTemperature c) (isBurned c) (powerDissipation c).
Definition withTemperature {F} (c : t F) (T : float) : t F :=
  mk (self c) (terminals c) T (maxTemperature c) (isBurned c) (powerDissipation c).
Definition withMaxTemperature {F} (c : t F) (T : float) : t F :=
  mk (self c) (terminals c) (temperature c) T (isBurned c) (powerDissipation c).
Definition withBurned {F} (c : t F) (b : bool) : t F :=
  mk (self c) (terminals c) (temperature c) (maxTemperature c) b (powerDissipation c).
Definition withPower {F} (c : t F) (p : float) : t F :=
  mk (self c) (terminals c) (temperature c) (maxTemperature c) (isBurned c) p.

(** The field initialisers of the base class: 25 degrees, a maximum of 150,
    not burned, no dissipation, no terminal yet. *)
Definition init {F} (s : F) : t F := mk s [] 25 150 false 0.

(** [Component.generateNodeId] of the base class: [return Component.nextNodeId++]. *)
Definition generateNodeId (s : Ids.t) : Z * Ids.t :=
  (Ids.nextNodeId s, Ids.mk (Ids.nextNodeId s + 1)%Z (Ids.random s) (Ids.drawn s)).

(** [Component.resetNodeCounter]. *)
Definition resetNodeCounter (s : Ids.t) : Ids.t :=
  Ids.mk 1%Z (Ids.random s) (Ids.drawn s).

(** [private generateNodeId() { return Math.floor(Math.random() * 1000000) }]:
    the method every one of the six subclasses declares, and therefore the
    one [this.generateNodeId()] reaches in their [initializeTerminals]. *)
Definition randomNodeId (s : Ids.t) : Z * Ids.t :=
  let (r, s') := Ids.Math_random s in (Js.Math_floor (r * 1000000), s').

(** [initializeTerminals] as the subclasses write it: two terminals, node
    ids from [generate] in this order, voltages [v0] and [v1]. *)
Definition initializeTerminals (generate : Ids.t -> Z * Ids.t) (v0 v1 : float) (s : Ids.t)
  : list Terminal.t * Ids.t :=
  let (n0, s0) := generate s in
  let (n1, s1) := generate s0 in
  ([Terminal.mk n0 v0 0; Terminal.mk n1 v1 0], s1).

(** [terminals[0].voltage - terminals[1].voltage] when there are two
    terminals, else [0]. *)
Definition drop (ts : list Terminal.t) : float :=
  match ts with
  | [t0; t1] => Terminal.voltage t0 - Terminal.voltage t1
  | _ => 0
  end.

(** [if (terminals.length === 2) { terminals[0].current = current;
    terminals[1].current = -current }]. *)
Definition setCurrents (ts : list Terminal.t) (current : float) : list Terminal.t :=
  match ts with
  | [t0; t1] => [Terminal.withCurrent t0 current; Terminal.withCurrent t1 (- current)]
  | _ => ts
  end.

(** [updateTemperature(deltaTime)].  [Math_exp] stands for [Math.exp], which
    ECMAScript leaves implementation-approximated. *)
Definition updateTemperature {F} (Math_exp : float -> float) (deltaTime : float) (c : t F) : t F :=
  let ambientTemp := 25 in
  let thermalResistance := 10 in
  let thermalCapacity := 50 in
  let targetTemp := ambientTemp + powerDissipation c * thermalResistance in
  let tau := thermalCapacity * thermalResistance in
  let alpha := 1 - Math_exp (- deltaTime / tau) in
  let c1 := withTemperature c (temperature c + (targetTemp - temperature c) * alpha) in
  if Js.gt (temperature c1) (maxTemperature c1) then withBurned c1 true else c1.

End Component.

(** ** components/Battery.ts *)

Module Battery.
Local Open Scope float_scope.

Record Fields : Type := mk { voltage : float; internalResistance : float }.
Definition t : Type := Component.t Fields.

Definition new (v : float) (s : Ids.t) : t * Ids.t :=
  let s := Ids.newId s in
  let this := Component.init (mk v 0.1) in
  let (ts, s') := Component.initializeTerminals Component.randomNodeId 0 v s in
  (Component.withTerminals this ts, s').

Definition getResistance (this : t) : float := internalResistance (Component.self this).

Definition getVoltage (this : t) : float :=
  if Component.isBurned this then 0 else voltage (Component.self this).

(** [setVoltage(voltage)]: the field, and the voltage of terminal 1 when
    there are two terminals. *)
Definition setVoltage (v : float) (this : t) : t :=
  let this := Component.withSelf this (mk v (internalResistance (Component.self this))) in
  match Component.terminals this with
  | [t0; t1] => Component.withTerminals this [t0; Terminal.withVoltage t1 v]
  | _ => this
  end.

Definition getCurrent (this : t) : float :=
  match Component.terminals this with
  | [t0; _] => Terminal.current t0
  | _ => 0
  end.

Definition update (Math_exp : float -> float) (deltaTime : float) (this : t) : t :=
  let current := Js.Math_abs (getCurrent this) in
  let this := Component.withPower this
                (current * current * internalResistance (Component.self this)) in
  Component.updateTemperature Math_exp deltaTime this.

End Battery.

(** ** components/Resistor.ts *)

Module Resistor.
Local Open Scope float_scope.

Record Fields : Type := mk { resistance : float; ratedPower : float }.
Definition t : Type := Component.t Fields.

Definition new (r : float) (s : Ids.t) : t * Ids.t :=
  let s := Ids.newId s in
  let this := Component.init (mk r 0.25) in
  let this := Component.withMaxTemperature this 200 in
  let (ts, s') := Component.initializeTerminals Component.randomNodeId 0 0 s in
  (Component.withTerminals this ts, s').

Definition getResistance (this : t) : float :=
  if Component.isBurned this then Js.Infinity else resistance (Component.self this).

(** [setResistance(resistance)]: [this.resistance = Math.max(0.1, resistance)]. *)
Definition setResistance (r : float) (this : t) : t :=
  Component.withSelf this (mk (Js.Math_max 0.1 r) (ratedPower (Component.self this))).

Definition getVoltage (this : t) : float := Component.drop (Component.terminals this).

Definition getCurrent (this : t) : float :=
  match Component.terminals this, Component.isBurned this with
  | [_; _], false => getVoltage this / resistance (Component.self this)
  | _, _ => 0
  end.

Definition update (Math_exp : float -> float) (deltaTime : float) (this : t) : t :=
  let current := getCurrent this in
  let this := Component.withPower this (current * current * resistance (Component.self this)) in
  let this :=
    if Js.gt (Component.powerDissipation this) (ratedPower (Component.self this) * 2)
    then Component.withBurned this true else this in
  let this := Component.updateTemperature Math_exp deltaTime this in
  Component.withTerminals this (Component.setCurrents (Component.terminals this) current).

End Resistor.

(** ** components/LED.ts *)

Module LED.
Local Open Scope float_scope.

Record Fields : Type := mk {
  forwardVoltage : float;
  forwardResistance : float;
  reverseResistance : float;
  maxCurrent : float;
  brightness : float
}.
Definition t : Type := Component.t Fields.

Definition withBrightness (f : Fields) (b : float) : Fields :=
  mk (forwardVoltage f) (forwardResistance f) (reverseResistance f) (maxCurrent f) b.

(** What [colorMap[color.toLowerCase()] || colorMap['red']] tells apart: the
    five keys of [colorMap]; [inherited], the strings ['constructor'] and
    ['__proto__'], which the lookup finds on [Object.prototype] (a function
    and an object, both truthy and neither with a [vf]); and [other], any
    string left, which falls back to ['red']. *)
Inductive Color : Type := red | green | blue | yellow | white | inherited | other.

(** The [vf] entry [setLEDColor] stores in [forwardVoltage].  For an
    [inherited] name it is [undefined], which the comparisons and the
    subtraction that read the field coerce to [NaN]. *)
Definition vf (color : Color) : float :=
  match color with
  | red | other => 2.0
  | green => 2.2
  | blue => 3.2
  | yellow => 2.1
  | white => 3.4
  | inherited => Js.NaN
  end.

Definition new (color : Color) (s : Ids.t) : t * Ids.t :=
  let s := Ids.newId s in
  let this := Component.init (mk (vf color) 10 1e6 0.03 0) in
  let this := Component.withMaxTemperature this 125 in
  let (ts, s') := Component.initializeTerminals Component.randomNodeId 0 0 s in
  (Component.withTerminals this ts, s').

Definition getVoltage (this : t) : float := Component.drop (Component.terminals this).

Definition getResistance (Math_exp : float -> float) (this : t) : float :=
  if Component.isBurned this then Js.Infinity
  else
    let f := Component.self this in
    let voltage := getVoltage this in
    if Js.ge voltage (forwardVoltage f) then forwardResistance f
    else if Js.gt voltage 0 then
      forwardResistance f * Math_exp ((forwardVoltage f - voltage) * 5)
    else reverseResistance f.

Definition getCurrent (this : t) : float :=
  let f := Component.self this in
  match Component.terminals this, Component.isBurned this with
  | [_; _], false =>
      let voltage := getVoltage this in
      if Js.ge voltage (forwardVoltage f) then
        let current := (voltage - forwardVoltage f) / forwardResistance f in
        Js.Math_min current (maxCurrent f * 1.5)
      else 0
  | _, _ => 0
  end.

Definition update (Math_exp : float -> float) (deltaTime : float) (this : t) : t :=
  let current := getCurrent this in
  let voltage := getVoltage this in
  let f := Component.self this in
  let this :=
    if Js.gt current 0 && negb (Component.isBurned this)
    then Component.withSelf this (withBrightness f (Js.Math_min (current / maxCurrent f) 1))
    else Component.withSelf this (withBrightness f 0) in
  let this := Component.withPower this (voltage * current) in
  let this :=
    if Js.gt current (maxCurrent f * 2)
    then Component.withSelf (Component.withBurned this true)
           (withBrightness (Component.self this) 0)
    else this in
  let this := Component.updateTemperature Math_exp deltaTime this in
  Component.withTerminals this (Component.setCurrents (Component.terminals this) current).

End LED.

(** ** components/Capacitor.ts *)

Module Capacitor.
Local Open Scope float_scope.

Record Fields : Type := mk {
  capacitance : float;
  charge : float;
  maxVoltage : float;
  esr : float
}.
Definition t : Type := Component.t Fields.

Definition withCharge (f : Fields) (q : float) : Fields :=
  mk (capacitance f) q (maxVoltage f) (esr f).

Definition new (c : float) (s : Ids.t) : t * Ids.t :=
  let s := Ids.newId s in
  let this := Component.init (mk c 0 25 0.1) in
  let (ts, s') := Component.initializeTerminals Component.randomNodeId 0 0 s in
  (Component.withTerminals this ts, s').

Definition getResistance (this : t) : float := esr (Component.self this).

Definition getVoltage (this : t) : float :=
  charge (Component.self this) / capacitance (Component.self this).

Definition getCurrent (this : t) : float :=
  match Component.terminals this with
  | [t0; _] => Terminal.current t0
  | _ => 0
  end.

Definition getCharge (this : t) : float := charge (Component.self this).

(** The guarded block of [update]: integrate the charge, burn out on
    overcharge, store the terminal currents. *)
Definition integrate (deltaTime : float) (this : t) : t :=
  match Component.terminals this, Component.isBurned this with
  | [t0; t1], false =>
      let f := Component.self this in
      let current := (Terminal.voltage t0 - Terminal.voltage t1) / esr f in
      let this := Component.withSelf this (withCharge f (charge f + current * deltaTime)) in
      let maxCharge := maxVoltage f * capacitance f in
      let this :=
        if Js.gt (Js.Math_abs (charge (Component.self this))) maxCharge
        then Component.withSelf (Component.withBurned this true)
               (withCharge (Component.self this) 0)
        else this in
      Component.withTerminals this
        [Terminal.withCurrent t0 current; Terminal.withCurrent t1 (- current)]
  | _, _ => this
  end.

Definition update (Math_exp : float -> float) (deltaTime : float) (this : t) : t :=
  let this := integrate deltaTime this in
  let this := Component.withPower this
                (getCurrent this * getCurrent this * esr (Component.self this)) in
  Component.updateTemperature Math_exp deltaTime this.

End Capacitor.

(** ** components/Switch.ts *)

Module Switch.
Local Open Scope float_scope.

Record Fields : Type := mk {
  isOpen : bool;
  closedResistance : float;
  openResistance : float
}.
Definition t : Type := Component.t Fields.

Definition new (open : bool) (s : Ids.t) : t * Ids.t :=
  let s := Ids.newId s in
  let this := Component.init (mk open 0.01 1e9) in
  let (ts, s') := Component.initializeTerminals Component.randomNodeId 0 0 s in
  (Component.withTerminals this ts, s').

Definition setOpen (open : bool) (this : t) : t :=
  let f := Component.self this in
  Component.withSelf this (mk open (closedResistance f) (openResistance f)).

Definition toggle (this : t) : t := setOpen (negb (isOpen (Component.self this))) this.

Definition getResistance (this : t) : float :=
  let f := Component.self this in
  if isOpen f then openResistance f else closedResistance f.

Definition getVoltage (this : t) : float := Component.drop (Component.terminals this).

Definition getCurrent (this : t) : float :=
  match Component.terminals this, isOpen (Component.self this) with
  | [_; _], false => getVoltage this / closedResistance (Component.self this)
  | _, _ => 0
  end.

Definition update (Math_exp : float -> float) (deltaTime : float) (this : t) : t :=
  let current := getCurrent this in
  let this := Component.withPower this
                (current * current * closedResistance (Component.self this)) in
  let this := Component.updateTemperature Math_exp deltaTime this in
  Component.withTerminals this (Component.setCurrents (Component.terminals this) current).

End Switch.

(** ** components/Motor.ts *)

Module Motor.
Local Open Scope float_scope.

Record Fields : Type := mk {
  resistance : float;
  backEmfConstant : float;
  rpm : float;
  maxRPM : float;
  rotorAngle : float
}.
Definition t : Type := Component.t Fields.

Definition withRpm (f : Fields) (r : float) : Fields :=
  mk (resistance f) (backEmfConstant f) r (maxRPM f) (rotorAngle f).
Definition withRotorAngle (f : Fields) (a : float) : Fields :=
  mk (resistance f) (backEmfConstant f) (rpm f) (maxRPM f) a.

Definition new (s : Ids.t) : t * Ids.t :=
  let s := Ids.newId s in
  let this := Component.init (mk 5 0.01 0 5000 0) in
  let this := Component.withMaxTemperature this 180 in
  let (ts, s') := Component.initializeTerminals Component.randomNodeId 0 0 s in
  (Component.withTerminals this ts, s').

Definition getResistance (this : t) : float :=
  if Component.isBurned this then Js.Infinity else resistance (Component.self this).

Definition getVoltage (this : t) : float := Component.drop (Component.terminals this).

Definition getCurrent (this : t) : float :=
  let f := Component.self this in
  match Component.terminals this, Component.isBurned this with
  | [_; _], false =>
      let appliedVoltage := getVoltage this in
      let backEmf := backEmfConstant f * rpm f in
      (appliedVoltage - backEmf) / resistance f
  | _, _ => 0
  end.

(** [this.rotorAngle += (this.rpm / 60) * deltaTime * Math.PI * 2]. *)
Definition spin (deltaTime : float) (f : Fields) : Fields :=
  withRotorAngle f (rotorAngle f + rpm f / 60 * deltaTime * Js.Math_PI * 2).

Definition update (Math_exp : float -> float) (deltaTime : float) (this : t) : t :=
  if Component.isBurned this then
    let f := Component.self this in
    Component.withSelf this (spin deltaTime (withRpm f (rpm f * 0.95)))
  else
    let current := getCurrent this in
    let torqueConstant := 0.01 in
    let inertia := 0.0001 in
    let friction := 0.1 in
    let torque := torqueConstant * current in
    let angularAcceleration := torque / inertia in
    let rpmAcceleration := angularAcceleration * (60 / (2 * Js.Math_PI)) in
    let f := Component.self this in
    let f := withRpm f (rpm f + (rpmAcceleration - friction * rpm f) * deltaTime) in
    let f := withRpm f (Js.Math_max 0 (Js.Math_min (rpm f) (maxRPM f))) in
    let f := spin deltaTime f in
    let this := Component.withSelf this f in
    let this := Component.withPower this (current * current * resistance f) in
    let this := Component.updateTemperature Math_exp deltaTime this in
    Component.withTerminals this (Component.setCurrents (Component.terminals this) current).

End Motor.

(** ** The six device kinds behind the abstract [Component] interface *)

Module Device.

Inductive Fields : Type :=
| OfBattery (f : Battery.Fields)
| OfResistor (f : Resistor.Fields)
| OfLED (f : LED.Fields)
| OfCapacitor (f : Capacitor.Fields)
| OfSwitch (f : Switch.Fields)
| OfMotor (f : Motor.Fields).

(** A component object, whatever its class. *)
Abbreviation t := (Component.t Fields) (only parsing).

Inductive Kind : Type := BATTERY | RESISTOR | LED | CAPACITOR | SWITCH | MOTOR.

(** [getType()]. *)
Definition getType (c : t) : Kind :=
  match Component.self c with
  | OfBattery _ => BATTERY
  | OfResistor _ => RESISTOR
  | OfLED _ => LED
  | OfCapacitor _ => CAPACITOR
  | OfSwitch _ => SWITCH
  | OfMotor _ => MOTOR
  end.

Definition upcast {F} (inj : F -> Fields) (c : Component.t F) : t :=
  Component.withSelf c (inj (Component.self c)).

(** The abstract methods, dispatched on the class of the receiver. *)
Definition getResistance (Math_exp : float -> float) (c : t) : float :=
  match Component.self c with
  | OfBattery f => Battery.getResistance (Component.withSelf c f)
  | OfResistor f => Resistor.getResistance (Component.withSelf c f)
  | OfLED f => LED.getResistance Math_exp (Component.withSelf c f)
  | OfCapacitor f => Capacitor.getResistance (Component.withSelf c f)
  | OfSwitch f => Switch.getResistance (Component.withSelf c f)
  | OfMotor f => Motor.getResistance (Component.withSelf c f)
  end.

Definition getVoltage (c : t) : float :=
  match Component.self c with
  | OfBattery f => Battery.getVoltage (Component.withSelf c f)
  | OfResistor f => Resistor.getVoltage (Component.withSelf c f)
  | OfLED f => LED.getVoltage (Component.withSelf c f)
  | OfCapacitor f => Capacitor.getVoltage (Component.withSelf c f)
  | OfSwitch f => Switch.getVoltage (Component.withSelf c f)
  | OfMotor f => Motor.getVoltage (Component.withSelf c f)
  end.

Definition getCurrent (c : t) : float :=
  match Component.self c with
  | OfBattery f => Battery.getCurrent (Component.withSelf c f)
  | OfResistor f => Resistor.getCurrent (Component.withSelf c f)
  | OfLED f => LED.getCurrent (Component.withSelf c f)
  | OfCapacitor f => Capacitor.getCurrent (Component.withSelf c f)
  | OfSwitch f => Switch.getCurrent (Component.withSelf c f)
  | OfMotor f => Motor.getCurrent (Component.withSelf c f)
  end.

Definition update (Math_exp : float -> float) (deltaTime : float) (c : t) : t :=
  match Component.self c with
  | OfBattery f => upcast OfBattery (Battery.update Math_exp deltaTime (Component.withSelf c f))
  | OfResistor f => upcast OfResistor (Resistor.update Math_exp deltaTime (Component.withSelf c f))
  | OfLED f => upcast OfLED (LED.update Math_exp deltaTime (Component.withSelf c f))
  | OfCapacitor f => upcast OfCapacitor (Capacitor.update Math_exp deltaTime (Component.withSelf c f))
  | OfSwitch f => upcast OfSwitch (Switch.update Math_exp deltaTime (Component.withSelf c f))
  | OfMotor f => upcast OfMotor (Motor.update Math_exp deltaTime (Component.withSelf c f))
  end.

(** The component after the ticks [dts], oldest first. *)
Definition updates (Math_exp : float -> float) (dts : list float) (c : t) : t :=
  fold_left (fun c dt => update Math_exp dt c) dts c.

(** The conductance [buildConductanceMatrix] stamps for a resistance. *)
Definition conductance (resistance : float) : float := (1 / resistance)%float.

End Device.

(** ** Comparisons of binary64 numbers *)

Lemma SFcompare_swap x y :
  SFcompare y x = match SFcompare x y with Some c => Some (CompOpp c) | None => None end.
Proof.
  destruct x as [sx|sx| |sx mx ex], y as [sy|sy| |sy my ey]; simpl; try reflexivity;
    try (destruct sx; reflexivity); try (destruct sy; reflexivity);
    try (destruct sx, sy; reflexivity).
  destruct sx, sy; simpl; try reflexivity; f_equal;
    rewrite (Z.compare_antisym ex ey); destruct (ex ?= ey)%Z; simpl; try reflexivity.
  - f_equal. exact (eq_sym (Pos.compare_cont_antisym mx my Eq)).
  - exact (eq_sym (Pos.compare_cont_antisym mx my Eq)).
Qed.

Lemma ltb_asym x y : PrimFloat.ltb x y = true -> PrimFloat.ltb y x = false.
Proof.
  rewrite !ltb_spec; unfold SFltb; rewrite (SFcompare_swap (Prim2SF x) (Prim2SF y)).
  destruct (SFcompare (Prim2SF x) (Prim2SF y)) as [[]|]; simpl; congruence.
Qed.

Lemma ltb_not_leb x y : PrimFloat.ltb x y = true -> PrimFloat.leb y x = false.
Proof.
  rewrite ltb_spec, leb_spec; unfold SFltb, SFleb.
  rewrite (SFcompare_swap (Prim2SF x) (Prim2SF y)).
  destruct (SFcompare (Prim2SF x) (Prim2SF y)) as [[]|]; simpl; congruence.
Qed.

Lemma ltb_nan_r x : PrimFloat.ltb x nan = false.
Proof.
  rewrite ltb_spec; unfold SFltb.
  change (Prim2SF nan) with S754_nan.
  destruct (Prim2SF x) as [| | |]; reflexivity.
Qed.

Lemma SFltb_finite s1 m1 e1 s2 m2 e2 :
  SFltb (S754_finite s1 m1 e1) (S754_finite s2 m2 e2) = true <->
  match s1, s2 with
  | true, false => True
  | false, true => False
  | false, false => (e1 < e2 \/ (e1 = e2 /\ (m1 < m2)%positive))%Z
  | true, true => (e2 < e1 \/ (e1 = e2 /\ (m2 < m1)%positive))%Z
  end.
Proof.
  unfold SFltb; simpl.
  change (PosDef.Pos.compare_cont Eq m1 m2) with (Pos.compare m1 m2).
  destruct s1, s2; try tauto; try (split; [discriminate|tauto]);
    destruct (Z.compare_spec e1 e2), (Pos.compare_spec m1 m2); simpl;
    split; try discriminate; try reflexivity; try lia.
Qed.

Lemma SFltb_trans a b c : SFltb a b = true -> SFltb b c = true -> SFltb a c = true.
Proof.
  destruct a as [sa|sa| |sa ma ea], b as [sb|sb| |sb mb eb], c as [sc|sc| |sc mc ec];
    try (unfold SFltb; simpl; try destruct sa; try destruct sb; try destruct sc;
         simpl; congruence).
  rewrite !SFltb_finite. destruct sa, sb, sc; try tauto; lia.
Qed.

Lemma ltb_trans x y z :
  PrimFloat.ltb x y = true -> PrimFloat.ltb y z = true -> PrimFloat.ltb x z = true.
Proof. rewrite !ltb_spec; apply SFltb_trans. Qed.

(** A number that is not above [a] is not above any larger [b]. *)
Lemma not_gt_mono x a b :
  Js.gt x a = false -> PrimFloat.ltb a b = true -> Js.gt x b = false.
Proof.
  unfold Js.gt; intros Hxa Hab.
  destruct (PrimFloat.ltb b x) eqn:Hbx; [|reflexivity].
  now rewrite (ltb_trans a b x Hab Hbx) in Hxa.
Qed.

(** [Math.min(x, c)] is never above [c]. *)
Lemma Math_min_le_r x c :
  PrimFloat.ltb c c = false -> Js.gt (Js.Math_min x c) c = false.
Proof.
  intros Hc; unfold Js.gt, Js.Math_min.
  destruct (_ || _); [apply ltb_nan_r|].
  destruct (PrimFloat.ltb x c) eqn:Hxc; [now apply ltb_asym|].
  destruct (PrimFloat.ltb c x) eqn:Hcx; [exact Hc|].
  destruct (PrimFloat.get_sign x); assumption.
Qed.

(** ** Burn-out and the resistance a component reports *)

Section Burnout.
Variable Math_exp : float -> float.

Lemma updateTemperature_burned {F} dt (c : Component.t F) :
  Component.isBurned (Component.updateTemperature Math_exp dt c)
  = Component.isBurned c
    || Js.gt (Component.temperature (Component.updateTemperature Math_exp dt c))
             (Component.maxTemperature c).
Proof.
  unfold Component.updateTemperature; cbv zeta.
  match goal with |- context [if ?b then _ else _] => destruct b eqn:Hb end;
    cbn in *; rewrite Hb; [apply eq_sym, orb_true_r | apply eq_sym, orb_false_r].
Qed.

Lemma updateTemperature_self {F} dt (c : Component.t F) :
  Component.self (Component.updateTemperature Math_exp dt c) = Component.self c.
Proof.
  unfold Component.updateTemperature; cbv zeta.
  match goal with |- context [if ?b then _ else _] => destruct b end; reflexivity.
Qed.

Lemma updateTemperature_terminals {F} dt (c : Component.t F) :
  Component.terminals (Component.updateTemperature Math_exp dt c) = Component.terminals c.
Proof.
  unfold Component.updateTemperature; cbv zeta.
  match goal with |- context [if ?b then _ else _] => destruct b end; reflexivity.
Qed.

Lemma updateTemperature_stays_burned {F} dt (c : Component.t F) :
  Component.isBurned c = true ->
  Component.isBurned (Component.updateTemperature Math_exp dt c) = true.
Proof. intros H; now rewrite updateTemperature_burned, H. Qed.

(** A tick changes neither the class of a component nor a set burned flag. *)
Lemma update_getType dt c :
  Device.getType (Device.update Math_exp dt c) = Device.getType c.
Proof.
  unfold Device.getType, Device.update; destruct (Component.self c); reflexivity.
Qed.

Lemma update_stays_burned dt c :
  Component.isBurned c = true -> Component.isBurned (Device.update Math_exp dt c) = true.
Proof.
  intros Hb; unfold Device.update.
  destruct c as [[f|f|f|f|f|f] ts T mT b p]; cbn in Hb; subst b; cbn.
  - now apply updateTemperature_stays_burned.
  - unfold Resistor.update; cbn.
    apply updateTemperature_stays_burned.
    now match goal with |- context [if ?b then _ else _] => destruct b end.
  - unfold LED.update; cbn. rewrite andb_false_r.
    apply updateTemperature_stays_burned.
    now match goal with |- context [if ?b then _ else _] => destruct b end.
  - unfold Capacitor.update; cbn.
    apply updateTemperature_stays_burned; cbn.
    unfold Capacitor.integrate; cbn.
    now destruct ts as [|? [|? [|? ?]]].
  - unfold Switch.update; cbn. now apply updateTemperature_stays_burned.
  - reflexivity.
Qed.

Lemma updates_stays_burned dts c :
  Component.isBurned c = true ->
  Component.isBurned (Device.updates Math_exp dts c) = true /\
  Device.getType (Device.updates Math_exp dts c) = Device.getType c.
Proof.
  unfold Device.updates; revert c; induction dts as [|dt dts IH]; intros c Hb; cbn; [auto|].
  destruct (IH (Device.update Math_exp dt c)) as [H1 H2]; [now apply update_stays_burned|].
  split; [exact H1|]. rewrite H2; apply update_getType.
Qed.

(** What each class reports once the burned flag is set. *)
Lemma burned_getResistance c :
  Component.isBurned c = true ->
  Device.getResistance Math_exp c =
  match Component.self c with
  | Device.OfResistor _ | Device.OfLED _ | Device.OfMotor _ => Js.Infinity
  | Device.OfBattery f => Battery.internalResistance f
  | Device.OfCapacitor f => Capacitor.esr f
  | Device.OfSwitch f =>
      if Switch.isOpen f then Switch.openResistance f else Switch.closedResistance f
  end.
Proof.
  intros Hb; unfold Device.getResistance.
  destruct c as [[f|f|f|f|f|f] ts T mT b p]; cbn in Hb; subst b; reflexivity.
Qed.

End Burnout.

(** [Battery.getVoltage] is the one method that reads the flag on a battery:
    burned out, it answers [0]. *)
Lemma burned_battery_getVoltage (c : Device.t) :
  Component.isBurned c = true ->
  match Component.self c with
  | Device.OfBattery _ => Device.getVoltage c = 0%float
  | _ => True
  end.
Proof.
  intros Hb.
  destruct c as [[f|f|f|f|f|f] ts T mT b p]; cbn in Hb; subst b; try exact I; reflexivity.
Qed.

(** A 9 V battery, a 100 uF capacitor and a closed switch as their
    constructors build them (every call of [Math.random] answering [0.5]),
    with the burned flag set as [updateTemperature] sets it. *)
Definition ids0 : Ids.t := Ids.mk 1 (fun _ => 0.5%float) 0.

Definition burnedBattery : Device.t :=
  Device.upcast Device.OfBattery (Component.withBurned (fst (Battery.new 9 ids0)) true).

Definition burnedCapacitor : Device.t :=
  Device.upcast Device.OfCapacitor (Component.withBurned (fst (Capacitor.new 0.0001 ids0)) true).

Definition burnedSwitch : Device.t :=
  Device.upcast Device.OfSwitch (Component.withBurned (fst (Switch.new false ids0)) true).

(** Two numbers that [Math.abs] tells apart are different. *)
Ltac floats_differ H :=
  apply (f_equal (fun f => Prim2SF (PrimFloat.abs f))) in H; vm_compute in H; discriminate H.

(** The claim of C3, refuted: a burned battery, a burned capacitor and a
    burned (closed) switch still report their finite resistance, and
    [buildConductanceMatrix] stamps the conductances 10, 10 and 100 for them. *)
Lemma burned_devices_still_conduct :
  ~ (forall (Math_exp : float -> float) (c : Device.t),
       Component.isBurned c = true ->
       Device.getResistance Math_exp c = Js.Infinity /\
       Device.conductance (Device.getResistance Math_exp c) = 0%float).
Proof.
  intros H.
  destruct (H (fun x => x) burnedBattery eq_refl) as [Hr _].
  vm_compute in Hr. floats_differ Hr.
Qed.

Example burned_battery_resistance :
  Device.getResistance (fun x => x) burnedBattery = 0.1%float /\
  Device.conductance (Device.getResistance (fun x => x) burnedBattery) = 10%float /\
  Device.getVoltage burnedBattery = 0%float.
Proof. repeat split; reflexivity. Qed.

Example burned_capacitor_resistance :
  Device.getResistance (fun x => x) burnedCapacitor = 0.1%float.
Proof. reflexivity. Qed.

Example burned_switch_resistance :
  Device.getResistance (fun x => x) burnedSwitch = 0.01%float.
Proof. reflexivity. Qed.

(** C3, amended.  Once the burned flag of a component is set it stays set
    through every later tick, and from then on a resistor, an LED and a motor
    report an infinite resistance, whose conductance [1 / Infinity] is [0];
    a battery keeps reporting its internal resistance (what the flag
    changes for it is [getVoltage], which answers [0]), a capacitor its ESR
    and a switch its open or closed resistance. *)
Theorem burned_resistance_by_kind (Math_exp : float -> float) (c : Device.t)
    (dts : list float) :
  Component.isBurned c = true ->
  let c' := Device.updates Math_exp dts c in
  Component.isBurned c' = true /\
  Device.getType c' = Device.getType c /\
  match Component.self c' with
  | Device.OfResistor _ | Device.OfLED _ | Device.OfMotor _ =>
      Device.getResistance Math_exp c' = Js.Infinity /\
      Device.conductance (Device.getResistance Math_exp c') = 0%float
  | Device.OfBattery f =>
      Device.getResistance Math_exp c' = Battery.internalResistance f /\
      Device.getVoltage c' = 0%float
  | Device.OfCapacitor f => Device.getResistance Math_exp c' = Capacitor.esr f
  | Device.OfSwitch f =>
      Device.getResistance Math_exp c' =
      if Switch.isOpen f then Switch.openResistance f else Switch.closedResistance f
  end.
Proof.
  intros Hb c'.
  destruct (updates_stays_burned Math_exp dts c Hb) as [Hb' Hk]; fold c' in Hb', Hk.
  split; [exact Hb'|]. split; [exact Hk|].
  pose proof (burned_getResistance Math_exp c' Hb') as Hr.
  pose proof (burned_battery_getVoltage c' Hb') as Hv.
  destruct (Component.self c'); try exact Hr; try (split; [exact Hr|exact Hv]);
    rewrite Hr; split; reflexivity.
Qed.

(** A resistor that burned, and the battery that burned, two ticks later. *)
Definition burnedResistor : Device.t :=
  Device.upcast Device.OfResistor (Component.withBurned (fst (Resistor.new 1000 ids0)) true).

Lemma burned_resistance_by_kind_witness :
  (let c' := Device.updates (fun x => x) [0.016; 0.016]%float burnedResistor in
   Component.isBurned c' = true /\
   Device.getType c' = Device.RESISTOR /\
   Device.getResistance (fun x => x) c' = Js.Infinity /\
   Device.conductance (Device.getResistance (fun x => x) c') = 0%float) /\
  (let c' := Device.updates (fun x => x) [0.016; 0.016]%float burnedBattery in
   Component.isBurned c' = true /\
   Device.getType c' = Device.BATTERY /\
   Device.getResistance (fun x => x) c' = 0.1%float /\
   Device.getVoltage c' = 0%float).
Proof.
  split.
  - exact (burned_resistance_by_kind (fun x => x) burnedResistor [0.016; 0.016]%float eq_refl).
  - exact (burned_resistance_by_kind (fun x => x) burnedBattery [0.016; 0.016]%float eq_refl).
Defined.

(** ** The LED's current *)

(** A red LED as [new LED(position, 'red')] builds it, with the voltages
    [va] and [vb] on its two terminals. *)
Definition redLED (va vb : float) : LED.t :=
  let this := fst (LED.new LED.red ids0) in
  match Component.terminals this with
  | [t0; t1] =>
      Component.withTerminals this [Terminal.withVoltage t0 va; Terminal.withVoltage t1 vb]
  | _ => this
  end.

Example redLED_fields :
  Component.self (redLED 2.5 0) = LED.mk 2 10 1e6 0.03 0 /\
  Component.maxTemperature (redLED 2.5 0) = 125%float /\
  LED.getVoltage (redLED 2.5 0) = 2.5%float.
Proof. repeat split; reflexivity. Qed.

(** [getCurrent] is guarded by [!this.isBurned]: a burned-out LED with 2.5 V
    across its terminals carries no current, not [(2.5 - 2.0) / 10]. *)
Lemma burned_LED_carries_no_current :
  ~ (forall l : LED.t,
       LED.forwardVoltage (Component.self l) = 2%float ->
       LED.forwardResistance (Component.self l) = 10%float ->
       LED.maxCurrent (Component.self l) = 0.03%float ->
       Js.ge (LED.getVoltage l) 2 = true ->
       LED.getCurrent l = Js.Math_min ((LED.getVoltage l - 2) / 10) (0.03 * 1.5)%float).
Proof.
  intros H.
  specialize (H (Component.withBurned (redLED 2.5 0) true) eq_refl eq_refl eq_refl eq_refl).
  vm_compute in H. floats_differ H.
Qed.

Example burned_LED_current :
  LED.getCurrent (Component.withBurned (redLED 2.5 0) true) = 0%float /\
  Js.Math_min ((2.5 - 2) / 10) (0.03 * 1.5)%float = 0.044999999999999998%float.
Proof. split; reflexivity. Qed.

Lemma LED_getCurrent_cases (l : LED.t) :
  LED.getCurrent l =
  if Component.isBurned l then 0%float
  else if Js.ge (LED.getVoltage l) (LED.forwardVoltage (Component.self l)) then
    match Component.terminals l with
    | [_; _] =>
        Js.Math_min
          ((LED.getVoltage l - LED.forwardVoltage (Component.self l))
           / LED.forwardResistance (Component.self l))
          (LED.maxCurrent (Component.self l) * 1.5)%float
    | _ => 0%float
    end
  else 0%float.
Proof.
  unfold LED.getCurrent.
  destruct (Js.ge (LED.getVoltage l) (LED.forwardVoltage (Component.self l)));
    destruct (Component.isBurned l);
    destruct (Component.terminals l) as [|? [|? [|? ?]]]; reflexivity.
Qed.

Lemma LED_getCurrent_clamped (l : LED.t) :
  LED.maxCurrent (Component.self l) = 0.03%float ->
  Js.gt (LED.getCurrent l) (0.03 * 1.5)%float = false.
Proof.
  intros Hm; rewrite LED_getCurrent_cases, Hm.
  destruct (Component.isBurned l); [reflexivity|].
  destruct (Js.ge _ _); [|reflexivity].
  destruct (Component.terminals l) as [|? [|? [|? ?]]]; try reflexivity.
  now apply Math_min_le_r.
Qed.

(** The overcurrent test of [update] reads the current [getCurrent] has
    already clamped to 1.5 times the rating, so it never succeeds. *)
Lemma LED_overcurrent_test_never_succeeds (l : LED.t) :
  LED.maxCurrent (Component.self l) = 0.03%float ->
  Js.gt (LED.getCurrent l) (0.03 * 2)%float = false.
Proof.
  intros Hm. apply (not_gt_mono _ (0.03 * 1.5)%float); [|reflexivity].
  now apply LED_getCurrent_clamped.
Qed.

Lemma LED_update_burned (Math_exp : float -> float) (dt : float) (l : LED.t) :
  Component.isBurned (LED.update Math_exp dt l)
  = Component.isBurned l
    || Js.gt (LED.getCurrent l) (LED.maxCurrent (Component.self l) * 2)%float
    || Js.gt (Component.temperature (LED.update Math_exp dt l)) (Component.maxTemperature l).
Proof.
  unfold LED.update; cbv zeta.
  destruct (Js.gt (LED.getCurrent l) 0 && negb (Component.isBurned l));
    destruct (Js.gt (LED.getCurrent l) _) eqn:Hover; cbn -[Component.updateTemperature];
    rewrite updateTemperature_burned; cbn -[Component.updateTemperature];
    rewrite ?orb_true_r, ?orb_false_r; reflexivity.
Qed.

(** C7, on the code.  [update] runs its test "Burn out if overcurrent",
    [current > this.maxCurrent * 2], on the current [getCurrent] has already
    clamped to 1.5 times the rating, so the test never succeeds.  A red LED
    with 100 V across its terminals, where [(V - 2.0) / 10] is 9.8 A, more
    than 300 times its rating, reports 45 mA and is not burned out by a tick,
    nor by a thousand, even when every tick takes the temperature all the
    way to its target (70 degrees, under the maximum of 125).  For every LED
    with the 30 mA rating the test is false, whatever the voltage, and the
    burned flag after a tick is the flag before it or the outcome of the
    temperature test. *)
Theorem LED_overcurrent_never_burns :
  let l := redLED 100 0 in
  ((LED.getVoltage l - 2) / 10)%float = 9.8000000000000007%float /\
  Js.gt ((LED.getVoltage l - 2) / 10) (0.03 * 2)%float = true /\
  LED.getCurrent l = 0.044999999999999998%float /\
  Component.isBurned (LED.update (fun _ => 1%float) 0.016 l) = false /\
  Component.isBurned (LED.update (fun _ => 0%float) 0.016 l) = false /\
  Component.temperature (LED.update (fun _ => 0%float) 0.016 l) = 70%float /\
  Component.isBurned (Nat.iter 1000 (LED.update (fun _ => 0%float) 0.016) l) = false /\
  (forall l' : LED.t,
     LED.maxCurrent (Component.self l') = 0.03%float ->
     Js.gt (LED.getCurrent l') (LED.maxCurrent (Component.self l') * 2)%float = false) /\
  (forall (Math_exp : float -> float) (dt : float) (l' : LED.t),
     LED.maxCurrent (Component.self l') = 0.03%float ->
     Component.isBurned (LED.update Math_exp dt l')
     = Component.isBurned l'
       || Js.gt (Component.temperature (LED.update Math_exp dt l'))
                (Component.maxTemperature l')).
Proof.
  cbv zeta. repeat split; try (vm_compute; reflexivity).
  - intros l' Hm. rewrite Hm. now apply LED_overcurrent_test_never_succeeds.
  - intros Math_exp dt l' Hm.
    rewrite LED_update_burned, Hm, (LED_overcurrent_test_never_succeeds l' Hm).
    now rewrite orb_false_r.
Qed.

(** What [getCurrent] answers.  A red LED (forward voltage 2.0 V, forward
    resistance 10 ohms, 30 mA rating) carries no current below 2.0 V, and
    none at any voltage once it is burned out; at or above 2.0 V an LED that
    is not burned out carries [(V - 2.0) / 10], clamped to 1.5 times the
    rating, which the current never exceeds.  The flag [update] leaves is
    the flag it found, or the outcome of its two tests. *)
Lemma LED_current_and_burnout (l : LED.t) :
  LED.forwardVoltage (Component.self l) = 2%float ->
  LED.forwardResistance (Component.self l) = 10%float ->
  LED.maxCurrent (Component.self l) = 0.03%float ->
  let V := LED.getVoltage l in
  (Js.lt V 2 = true -> LED.getCurrent l = 0%float) /\
  (Component.isBurned l = true -> LED.getCurrent l = 0%float) /\
  (Js.ge V 2 = true -> Component.isBurned l = false ->
   LED.getCurrent l = Js.Math_min ((V - 2) / 10) (0.03 * 1.5)%float) /\
  Js.gt (LED.getCurrent l) (0.03 * 1.5)%float = false /\
  forall Math_exp dt,
    Component.isBurned (LED.update Math_exp dt l)
    = Component.isBurned l
      || Js.gt (LED.getCurrent l) (0.03 * 2)%float
      || Js.gt (Component.temperature (LED.update Math_exp dt l))
               (Component.maxTemperature l).
Proof.
  intros Hvf Hrf Hmax V.
  repeat split.
  - intros Hlt. rewrite LED_getCurrent_cases, Hvf.
    unfold Js.ge; fold V. rewrite (ltb_not_leb _ _ Hlt).
    now destruct (Component.isBurned l).
  - intros Hb. now rewrite LED_getCurrent_cases, Hb.
  - intros Hge Hb. rewrite LED_getCurrent_cases, Hb, Hvf, Hrf, Hmax; fold V; rewrite Hge.
    unfold V, LED.getVoltage, Component.drop in *.
    destruct (Component.terminals l) as [|? [|? [|? ?]]]; try reflexivity;
      vm_compute in Hge; discriminate.
  - now apply LED_getCurrent_clamped.
  - intros Math_exp dt. now rewrite LED_update_burned, Hmax.
Qed.

(** A red LED under 2.5 V: it carries the clamped 45 mA and the tick (here
    with [Math.exp] answering [1]) does not burn it. *)
Lemma LED_current_and_burnout_witness :
  LED.getCurrent (redLED 2.5 0) = Js.Math_min ((2.5 - 2) / 10) (0.03 * 1.5)%float /\
  Js.gt (LED.getCurrent (redLED 2.5 0)) (0.03 * 1.5)%float = false /\
  Component.isBurned (LED.update (fun _ => 1%float) 0.016 (redLED 2.5 0)) = false.
Proof.
  destruct (LED_current_and_burnout (redLED 2.5 0) eq_refl eq_refl eq_refl)
    as (_ & _ & Hon & Hclamp & Hburn).
  split; [exact (Hon eq_refl eq_refl)|]. split; [exact Hclamp|].
  rewrite Hburn. reflexivity.
Defined.

(** ** The capacitor's charge *)

Lemma Capacitor_update_self (Math_exp : float -> float) dt (c : Capacitor.t) :
  Component.self (Capacitor.update Math_exp dt c) = Component.self (Capacitor.integrate dt c).
Proof. unfold Capacitor.update; cbv zeta. now rewrite updateTemperature_self. Qed.

Lemma Capacitor_integrate_capacitance dt (c : Capacitor.t) :
  Capacitor.capacitance (Component.self (Capacitor.integrate dt c))
  = Capacitor.capacitance (Component.self c).
Proof.
  unfold Capacitor.integrate.
  destruct (Component.terminals c) as [|? [|? [|? ?]]], (Component.isBurned c);
    try reflexivity.
  cbv zeta. match goal with |- context [if ?b then _ else _] => destruct b end; reflexivity.
Qed.

(** C8.  The voltage a capacitor reports is its charge divided by its
    capacitance, before and after every tick.  A tick of a capacitor that is
    not burned out adds [I * dt] to the charge, with [I = (Va - Vb) / ESR];
    when the magnitude of the new charge exceeds [maxVoltage * capacitance]
    the capacitor is burned out and its charge is [0]. *)
Theorem Capacitor_voltage_is_charge_over_capacitance
    (Math_exp : float -> float) (dt : float) (c : Capacitor.t) (t0 t1 : Terminal.t) :
  Component.terminals c = [t0; t1] ->
  Component.isBurned c = false ->
  let f := Component.self c in
  let I := ((Terminal.voltage t0 - Terminal.voltage t1) / Capacitor.esr f)%float in
  let Q := (Capacitor.charge f + I * dt)%float in
  let c' := Capacitor.update Math_exp dt c in
  Capacitor.getVoltage c = (Capacitor.charge f / Capacitor.capacitance f)%float /\
  Capacitor.getVoltage c'
  = (Capacitor.getCharge c' / Capacitor.capacitance f)%float /\
  if Js.gt (Js.Math_abs Q) (Capacitor.maxVoltage f * Capacitor.capacitance f)%float
  then Component.isBurned c' = true /\ Capacitor.getCharge c' = 0%float
  else Capacitor.getCharge c' = Q /\
       Capacitor.getVoltage c' = (Q / Capacitor.capacitance f)%float.
Proof.
  intros Hts Hb f I Q c'.
  split; [reflexivity|].
  assert (Hcap : Capacitor.capacitance (Component.self c') = Capacitor.capacitance f).
  { unfold c'; rewrite Capacitor_update_self; apply Capacitor_integrate_capacitance. }
  split; [unfold Capacitor.getVoltage, Capacitor.getCharge; now rewrite Hcap|].
  unfold Capacitor.getVoltage, Capacitor.getCharge; rewrite Hcap.
  unfold c'; rewrite Capacitor_update_self.
  unfold Capacitor.update; cbv zeta.
  rewrite updateTemperature_burned.
  unfold Capacitor.integrate; rewrite Hts, Hb; cbv zeta.
  change (Capacitor.charge (Component.self (Component.withSelf c
            (Capacitor.withCharge (Component.self c)
               (Capacitor.charge (Component.self c)
                + (Terminal.voltage t0 - Terminal.voltage t1)
                  / Capacitor.esr (Component.self c) * dt)%float)))) with Q.
  change (Capacitor.maxVoltage (Component.self c)) with (Capacitor.maxVoltage f).
  change (Capacitor.capacitance (Component.self c)) with (Capacitor.capacitance f).
  destruct (Js.gt (Js.Math_abs Q) (Capacitor.maxVoltage f * Capacitor.capacitance f)%float);
    split; reflexivity.
Qed.

(** A 100 uF capacitor with [va] and [vb] on its terminals. *)
Definition capacitor (va vb : float) : Capacitor.t :=
  let this := fst (Capacitor.new 0.0001 ids0) in
  match Component.terminals this with
  | [t0; t1] =>
      Component.withTerminals this [Terminal.withVoltage t0 va; Terminal.withVoltage t1 vb]
  | _ => this
  end.

(** The theorem at a capacitor under 9 V for one millisecond: 90 A through
    the ESR make 0.09 C, above the rated 25 V * 100 uF: it burns out. *)
Lemma Capacitor_voltage_is_charge_over_capacitance_witness :
  let c' := Capacitor.update (fun _ => 1%float) 0.001 (capacitor 9 0) in
  Capacitor.getVoltage c' = (Capacitor.getCharge c' / 0.0001)%float /\
  Component.isBurned c' = true /\ Capacitor.getCharge c' = 0%float.
Proof.
  destruct (Capacitor_voltage_is_charge_over_capacitance (fun _ => 1%float) 0.001
              (capacitor 9 0) (Terminal.mk 500000 9 0) (Terminal.mk 500000 0 0)
              eq_refl eq_refl) as (_ & Hv & Hq).
  split; [exact Hv|exact Hq].
Defined.

(** Under 1 mV the charge accumulates: [Q = (0.001 / 0.1) * 0.001] and the
    reported voltage is [Q / C]. *)
Example capacitor_charging :
  let c' := Capacitor.update (fun _ => 1%float) 0.001 (capacitor 0.001 0) in
  Capacitor.getCharge c' = (0.001 / 0.1 * 0.001)%float /\
  Capacitor.getVoltage c' = (0.001 / 0.1 * 0.001 / 0.0001)%float /\
  Component.isBurned c' = false.
Proof. vm_compute. repeat split. Qed.

(** ** Node ids *)

(** Two calls of [Math.random] whose results differ and fall in the same
    millionth, [0.5000001] and [0.5000004]: the second and the third call,
    those of [generateNodeId] in the first constructor to run (the first
    call is the constructor's own, for the object id). *)
Definition idsNear : Ids.t :=
  Ids.mk 1 (fun n => if Nat.eqb n 1 then 0.5000001%float else 0.5000004%float) 0.

(** The base-class method hands out consecutive ids. *)
Lemma generateNodeId_distinct (s : Ids.t) (v0 v1 : float) :
  let (ts, s') := Component.initializeTerminals Component.generateNodeId v0 v1 s in
  map Terminal.node ts = [Ids.nextNodeId s; (Ids.nextNodeId s + 1)%Z] /\
  Ids.nextNodeId s' = (Ids.nextNodeId s + 2)%Z.
Proof. cbn. split; [reflexivity|lia]. Qed.

(** The method the subclasses declare never reads the counter. *)
Lemma randomNodeId_ignores_counter (s : Ids.t) (v0 v1 : float) :
  let (ts, s') := Component.initializeTerminals Component.randomNodeId v0 v1 s in
  map Terminal.node ts =
    [Js.Math_floor (Ids.random s (Ids.drawn s) * 1000000);
     Js.Math_floor (Ids.random s (S (Ids.drawn s)) * 1000000)] /\
  Ids.nextNodeId s' = Ids.nextNodeId s.
Proof. cbn. split; reflexivity. Qed.

(** C2, on the code.  [new Resistor(position, 1000)], with [Math.random]
    answering [0.5000001] and then [0.5000004] to the two calls of
    [generateNodeId]: both terminals receive the node id 500000, and the
    counter [nextNodeId] is left at 1.  The same
    method is declared by the battery, so two terminals of two components
    collide as well; and a draw below one millionth yields the id 0 of the
    ground node. *)
Theorem random_node_ids_collide :
  map Terminal.node (Component.terminals (fst (Resistor.new 1000 idsNear)))
    = [500000; 500000]%Z /\
  Ids.nextNodeId (snd (Resistor.new 1000 idsNear)) = 1%Z /\
  map Terminal.node
      (Component.terminals (fst (Battery.new 9 (snd (Resistor.new 1000 idsNear)))))
    = [500000; 500000]%Z /\
  fst (Component.randomNodeId (Ids.mk 1 (fun _ => 0.0000004%float) 0)) = 0%Z.
Proof. vm_compute. repeat split. Qed.

(** ** core/Wire.ts *)

(** A wire joins terminal [startTerminal] of the component [startComponent]
    to terminal [endTerminal] of [endComponent].  Components are referred to
    by their address in the heap of objects.  The endpoints of a wire never
    change after its construction, so a wire is carried by value together
    with [ref], its identity as an object (the identity [indexOf] compares);
    its one mutable field, [current], is kept in the heap under that
    identity.  The control points are presentation. *)
Module Wire.

Record t : Type := mk {
  ref : nat;
  startComponent : nat;
  endComponent : nat;
  startTerminal : nat;
  endTerminal : nat
}.

(** [private resistance: number = 0.01]. *)
Definition getResistance (w : t) : float := 0.01%float.

(** [wire === other]. *)
Definition same (w w' : t) : bool := Nat.eqb (ref w) (ref w').

End Wire.

(** ** The objects shared by the simulator, the engine and the wires *)

Module Heap.

Record t : Type := mk {
  objects : list Device.t;          (* the component objects, by address *)
  wireCurrent : list (nat * float); (* [wire.current], latest write first *)
  ids : Ids.t                       (* [Component.nextNodeId] and [Math.random] *)
}.

Definition withObjects (h : t) (objs : list Device.t) : t :=
  mk objs (wireCurrent h) (ids h).

(** [component.getTerminal(index)]: [this.terminals[index] || null]. *)
Definition getTerminal (objs : list Device.t) (c index : nat) : option Terminal.t :=
  o ← objs !! c; Component.terminals o !! index.

(** The terminals a wire ends on. *)
Definition startOf (objs : list Device.t) (w : Wire.t) : option Terminal.t :=
  getTerminal objs (Wire.startComponent w) (Wire.startTerminal w).
Definition endOf (objs : list Device.t) (w : Wire.t) : option Terminal.t :=
  getTerminal objs (Wire.endComponent w) (Wire.endTerminal w).

(** An assignment to a field of the terminal [index] of the component [c]. *)
Definition alterTerminal (f : Terminal.t -> Terminal.t) (c index : nat)
    (objs : list Device.t) : list Device.t :=
  alter (fun o => Component.withTerminals o (alter f index (Component.terminals o))) c objs.

(** [wire.getCurrent()]; the field starts at [0]. *)
Fixpoint getCurrent (table : list (nat * float)) (w : Wire.t) : float :=
  match table with
  | [] => 0%float
  | (r, i) :: rest => if Nat.eqb r (Wire.ref w) then i else getCurrent rest w
  end.

(** [wire.setCurrent(current)]. *)
Definition setCurrent (w : Wire.t) (current : float) (h : t) : t :=
  mk (objects h) ((Wire.ref w, current) :: wireCurrent h) (ids h).

End Heap.

(** ** physics/PhysicsEngine.ts *)

Module PhysicsEngine.

(** [interface CircuitNode]; its [components] array is created empty and
    never written. *)
Record CircuitNode : Type := mkNode { id : Z; voltage : float }.

(** The fields of the engine.  [nodes] is the [Map], as the list of its
    entries in insertion order (the order its iteration follows). *)
Record t : Type := mk {
  components : list nat;
  wires : list Wire.t;
  nodes : list (Z * CircuitNode);
  accumulator : float
}.

Definition groundNode : Z := 0%Z.
Definition timeStep : float := 0.001%float.

Definition empty : t := mk [] [] [] 0%float.

Definition withNodes (e : t) (ns : list (Z * CircuitNode)) : t :=
  mk (components e) (wires e) ns (accumulator e).
Definition withAccumulator (e : t) (a : float) : t :=
  mk (components e) (wires e) (nodes e) a.

(** [nodes.has(key)]. *)
Definition has (ns : list (Z * CircuitNode)) (key : Z) : bool :=
  existsb (fun p => Z.eqb (fst p) key) ns.

(** [if (!nodes.has(terminal.node)) nodes.set(terminal.node, {id, voltage: 0,
    components: []})]. *)
Definition addNode (ns : list (Z * CircuitNode)) (t : Terminal.t) : list (Z * CircuitNode) :=
  if has ns (Terminal.node t) then ns
  else ns ++ [(Terminal.node t, mkNode (Terminal.node t) 0%float)].

(** The first loop of [rebuildCircuit], from the cleared map. *)
Definition collectNodes (objs : list Device.t) (cs : list nat) : list (Z * CircuitNode) :=
  fold_left
    (fun ns c =>
       match objs !! c with
       | Some o => fold_left addNode (Component.terminals o) ns
       | None => ns
       end)
    cs [].

(** [if (terminal.node === maxNode) terminal.node = minNode]. *)
Definition renumber (minNode maxNode : Z) (t : Terminal.t) : Terminal.t :=
  if Z.eqb (Terminal.node t) maxNode then Terminal.withNode t minNode else t.

(** The inner loops of the merge: every terminal of every listed component. *)
Definition mergeNodes (cs : list nat) (minNode maxNode : Z) (objs : list Device.t)
  : list Device.t :=
  fold_left
    (fun objs c =>
       alter (fun o => Component.withTerminals o
                         (map (renumber minNode maxNode) (Component.terminals o)))
             c objs)
    cs objs.

(** The body of the loop over the wires. *)
Definition connect (cs : list nat) (objs : list Device.t) (w : Wire.t) : list Device.t :=
  match Heap.startOf objs w, Heap.endOf objs w with
  | Some startTerminal, Some endTerminal =>
      let minNode := Z.min (Terminal.node startTerminal) (Terminal.node endTerminal) in
      let maxNode := Z.max (Terminal.node startTerminal) (Terminal.node endTerminal) in
      mergeNodes cs minNode maxNode objs
  | _, _ => objs
  end.

Definition rebuildCircuit (h : Heap.t) (e : t) : Heap.t * t :=
  let ns := collectNodes (Heap.objects h) (components e) in
  let objs := fold_left (connect (components e)) (wires e) (Heap.objects h) in
  (Heap.withObjects h objs, withNodes e ns).

(** [indexOf] then [splice(index, 1)], on component addresses and on wires;
    [None] when [indexOf] answers [-1]. *)
Fixpoint spliceComponent (c : nat) (cs : list nat) : option (list nat) :=
  match cs with
  | [] => None
  | c' :: rest =>
      if Nat.eqb c' c then Some rest else cons c' <$> spliceComponent c rest
  end.

Fixpoint spliceWire (w : Wire.t) (ws : list Wire.t) : option (list Wire.t) :=
  match ws with
  | [] => None
  | w' :: rest =>
      if Wire.same w' w then Some rest else cons w' <$> spliceWire w rest
  end.

Definition addComponent (c : nat) (h : Heap.t) (e : t) : Heap.t * t :=
  rebuildCircuit h (mk (components e ++ [c]) (wires e) (nodes e) (accumulator e)).

Definition removeComponent (c : nat) (h : Heap.t) (e : t) : Heap.t * t :=
  match spliceComponent c (components e) with
  | Some cs => rebuildCircuit h (mk cs (wires e) (nodes e) (accumulator e))
  | None => (h, e)
  end.

Definition addWire (w : Wire.t) (h : Heap.t) (e : t) : Heap.t * t :=
  rebuildCircuit h (mk (components e) (wires e ++ [w]) (nodes e) (accumulator e)).

Definition removeWire (w : Wire.t) (h : Heap.t) (e : t) : Heap.t * t :=
  match spliceWire w (wires e) with
  | Some ws => rebuildCircuit h (mk (components e) ws (nodes e) (accumulator e))
  | None => (h, e)
  end.

Definition clear (e : t) : t := mk [] [] [] (accumulator e).

(** The component objects the engine lists. *)
Definition listed (objs : list Device.t) (cs : list nat) : list Device.t :=
  omap (fun c => objs !! c) cs.

(** [this.components.filter(c => c.getVoltage() !== 0).length]. *)
Definition countVoltageSources (objs : list Device.t) (cs : list nat) : nat :=
  length (filter (fun o => Js.strict_ne (Device.getVoltage o) 0 = true) (listed objs cs)).

(** [nodeMap]: the index of every node but the ground node, in the order
    of the map; [next] is [nodeIndex]. *)
Fixpoint indexNodes (ns : list (Z * CircuitNode)) (next : nat) : list (Z * nat) :=
  match ns with
  | [] => []
  | (nodeId, _) :: rest =>
      if Z.eqb nodeId groundNode then indexNodes rest next
      else (nodeId, next) :: indexNodes rest (S next)
  end.

(** [nodeMap.get(key)]. *)
Fixpoint indexOfNode (m : list (Z * nat)) (key : Z) : option nat :=
  match m with
  | [] => None
  | (k, i) :: rest => if Z.eqb k key then Some i else indexOfNode rest key
  end.

(** [G[i][j] += d] and [b[i] += d].  The indices come out of [nodeMap] and
    are below the size of the matrix (see [indexOfNode_indexNodes]). *)
Definition addAt (i j : nat) (d : float) (G : list (list float)) : list (list float) :=
  alter (alter (fun g => (g + d)%float) j) i G.
Definition addTo (i : nat) (d : float) (b : list float) : list float :=
  alter (fun v => (v + d)%float) i b.
Definition subAt (i j : nat) (d : float) (G : list (list float)) : list (list float) :=
  alter (alter (fun g => (g - d)%float) j) i G.
Definition subFrom (i : nat) (d : float) (b : list float) : list float :=
  alter (fun v => (v - d)%float) i b.

Section Solve.
Variable Math_exp : float -> float.

(** The contribution of one component to [G] and [b]. *)
Definition stamp (m : list (Z * nat)) (Gb : list (list float) * list float) (o : Device.t)
  : list (list float) * list float :=
  let (G, b) := Gb in
  match Component.terminals o with
  | [t0; t1] =>
      let resistance := Device.getResistance Math_exp o in
      let voltage := Device.getVoltage o in
      let G :=
        if Js.gt resistance 0 then
          let conductance := (1 / resistance)%float in
          match indexOfNode m (Terminal.node t0), indexOfNode m (Terminal.node t1) with
          | Some n1, Some n2 =>
              addAt n2 n2 conductance
                (subAt n2 n1 conductance
                   (subAt n1 n2 conductance (addAt n1 n1 conductance G)))
          | _, _ => G
          end
        else G in
      let b :=
        if Js.strict_ne voltage 0 then
          let b := match indexOfNode m (Terminal.node t0) with
                   | Some n1 => addTo n1 (voltage / Js.or_else resistance 1)%float b
                   | None => b
                   end in
          match indexOfNode m (Terminal.node t1) with
          | Some n2 => subFrom n2 (voltage / Js.or_else resistance 1)%float b
          | None => b
          end
        else b in
      (G, b)
  | _ => (G, b)
  end.

Definition buildConductanceMatrix (objs : list Device.t) (e : t)
    (G : list (list float)) (b : list float) : list (list float) * list float :=
  fold_left (stamp (indexNodes (nodes e) 0)) (listed objs (components e)) (G, b).

(** [matrixSize]. *)
Definition matrixSize (objs : list Device.t) (e : t) : nat :=
  length (nodes e) + countVoltageSources objs (components e).

(** The system [solveCircuit] hands to the solver; [None] when it returns
    early because [matrixSize === 0]. *)
Definition assemble (objs : list Device.t) (e : t)
  : option (list (list float) * list float) :=
  let n := matrixSize objs e in
  if Nat.eqb n 0 then None
  else Some (buildConductanceMatrix objs e
               (replicate n (replicate n 0%float)) (replicate n 0%float)).

(** "Apply solution to nodes": [nodeIndex] counts the nodes written so far. *)
Fixpoint applySolution (x : list float) (ns : list (Z * CircuitNode)) (nodeIndex : nat)
  : list (Z * CircuitNode) :=
  match ns with
  | [] => []
  | (nodeId, node) :: rest =>
      if negb (Z.eqb nodeId groundNode) && Nat.ltb nodeIndex (length x)
      then (nodeId, mkNode (id node) (Js.get x nodeIndex)) :: applySolution x rest (S nodeIndex)
      else (nodeId, node) :: applySolution x rest nodeIndex
  end.

(** The body of the loop of [updateComponentValues]. *)
Definition wireCurrents (h : Heap.t) (w : Wire.t) : Heap.t :=
  match Heap.startOf (Heap.objects h) w, Heap.endOf (Heap.objects h) w with
  | Some startTerm, Some endTerm =>
      let voltageDiff := (Terminal.voltage startTerm - Terminal.voltage endTerm)%float in
      let current := (voltageDiff / Wire.getResistance w)%float in
      let h := Heap.setCurrent w current h in
      let objs :=
        Heap.alterTerminal (fun t => Terminal.withCurrent t current)
          (Wire.startComponent w) (Wire.startTerminal w) (Heap.objects h) in
      let objs :=
        Heap.alterTerminal (fun t => Terminal.withCurrent t (- current)%float)
          (Wire.endComponent w) (Wire.endTerminal w) objs in
      Heap.withObjects h objs
  | _, _ => h
  end.

Definition updateComponentValues (_solution : list float) (h : Heap.t) (e : t) : Heap.t :=
  fold_left wireCurrents (wires e) h.

Definition solveCircuit (h : Heap.t) (e : t) : Js.completion (Heap.t * t) :=
  match assemble (Heap.objects h) e with
  | None => Js.Normal (h, e)
  | Some (G, b) =>
      r <- Gauss.gaussianElimination G b ;;
      match r with
      | Some x =>
          let e := withNodes e (applySolution x (nodes e) 0) in
          Js.Normal (updateComponentValues x h e, e)
      | None => Js.Normal (h, e)
      end
  end.

Definition simulate (_dt : float) (h : Heap.t) (e : t) : Js.completion (Heap.t * t) :=
  if Nat.eqb (length (components e)) 0 then Js.Normal (h, e) else solveCircuit h e.

(** [while (accumulator >= timeStep) { simulate(timeStep); accumulator -=
    timeStep }], for at most [fuel] iterations; [None] when they do not
    suffice. *)
Fixpoint stepLoop (fuel : nat) (h : Heap.t) (e : t) : option (Js.completion (Heap.t * t)) :=
  if Js.ge (accumulator e) timeStep then
    match fuel with
    | O => None
    | S fuel' =>
        match simulate timeStep h e with
        | Js.Normal (h', e') =>
            stepLoop fuel' h' (withAccumulator e' (accumulator e' - timeStep)%float)
        | Js.TypeError => Some Js.TypeError
        end
    end
  else Some (Js.Normal (h, e)).

(** The first half of [update]: the fixed-timestep solves. *)
Definition solvePhase (fuel : nat) (deltaTime : float) (h : Heap.t) (e : t)
  : option (Js.completion (Heap.t * t)) :=
  stepLoop fuel h (withAccumulator e (accumulator e + deltaTime)%float).

(** The second half: [for (const component of this.components)
    component.update(deltaTime)]. *)
Definition updateComponents (deltaTime : float) (h : Heap.t) (e : t) : Heap.t :=
  Heap.withObjects h
    (fold_left (fun objs c => alter (Device.update Math_exp deltaTime) c objs)
               (components e) (Heap.objects h)).

Definition update (fuel : nat) (deltaTime : float) (h : Heap.t) (e : t)
  : option (Js.completion (Heap.t * t)) :=
  match solvePhase fuel deltaTime h e with
  | Some (Js.Normal (h', e')) => Some (Js.Normal (updateComponents deltaTime h' e', e'))
  | other => other
  end.

End Solve.

End PhysicsEngine.

(** ** math/Vector2.ts *)

Module Vector2.
Local Open Scope float_scope.

Record t : Type := mk { x : float; y : float }.

Definition zero : t := mk 0 0.

Definition add (a other : t) : t := mk (x a + x other) (y a + y other).
Definition subtract (a other : t) : t := mk (x a - x other) (y a - y other).
Definition multiply (a : t) (scalar : float) : t := mk (x a * scalar) (y a * scalar).
Definition divide (a : t) (scalar : float) : t := mk (x a / scalar) (y a / scalar).
Definition dot (a other : t) : float := x a * x other + y a * y other.
Definition clone (a : t) : t := mk (x a) (y a).

Section Sqrt.
(** [Math.sqrt], which ECMAScript leaves implementation-approximated. *)
Variable Math_sqrt : float -> float.

Definition distance (a b : t) : float :=
  let dx := x b - x a in
  let dy := y b - y a in
  Math_sqrt (dx * dx + dy * dy).

Definition length (a : t) : float := Math_sqrt (x a * x a + y a * y a).

Definition normalize (a : t) : t :=
  let len := length a in
  if Js.gt len 0 then divide a len else zero.

End Sqrt.

End Vector2.

(** ** Where the components are drawn *)

(** The presentation attributes that [Component.t] and [Terminal.t] leave
    out, for the component object at each address: its [position], its
    [width] and [height], and the [position] of its terminal of each
    index. *)
Module Layout.
Local Open Scope float_scope.

Record t : Type := mk {
  position : nat -> Vector2.t;
  width : nat -> float;
  height : nat -> float;
  terminalPosition : nat -> nat -> Vector2.t
}.

(** [component.containsPoint(point)]. *)
Definition containsPoint (L : t) (c : nat) (point : Vector2.t) : bool :=
  let halfWidth := width L c / 2 in
  let halfHeight := height L c / 2 in
  Js.ge (Vector2.x point) (Vector2.x (position L c) - halfWidth)
  && PrimFloat.leb (Vector2.x point) (Vector2.x (position L c) + halfWidth)
  && Js.ge (Vector2.y point) (Vector2.y (position L c) - halfHeight)
  && PrimFloat.leb (Vector2.y point) (Vector2.y (position L c) + halfHeight).

End Layout.

(** ** core/CircuitSimulator.ts *)

Module CircuitSimulator.

Record t : Type := mk {
  components : list nat;
  wires : list Wire.t;
  physicsEngine : PhysicsEngine.t
}.

Definition new (physicsEngine : PhysicsEngine.t) : t := mk [] [] physicsEngine.

Definition addComponent (c : nat) (h : Heap.t) (s : t) : Heap.t * t :=
  let (h', e') := PhysicsEngine.addComponent c h (physicsEngine s) in
  (h', mk (components s ++ [c]) (wires s) e').

Definition removeComponent (c : nat) (h : Heap.t) (s : t) : Heap.t * t :=
  match PhysicsEngine.spliceComponent c (components s) with
  | Some cs =>
      let (h', e') := PhysicsEngine.removeComponent c h (physicsEngine s) in
      (h', mk cs
             (filter (fun w => Wire.startComponent w <> c /\ Wire.endComponent w <> c)
                     (wires s))
             e')
  | None => (h, s)
  end.

Definition addWire (w : Wire.t) (h : Heap.t) (s : t) : Heap.t * t :=
  let (h', e') := PhysicsEngine.addWire w h (physicsEngine s) in
  (h', mk (components s) (wires s ++ [w]) e').

Definition removeWire (w : Wire.t) (h : Heap.t) (s : t) : Heap.t * t :=
  match PhysicsEngine.spliceWire w (wires s) with
  | Some ws =>
      let (h', e') := PhysicsEngine.removeWire w h (physicsEngine s) in
      (h', mk (components s) ws e')
  | None => (h, s)
  end.

Definition getComponents (s : t) : list nat := components s.
Definition getWires (s : t) : list Wire.t := wires s.

(** [getComponentAt(position)]: the components are tried from the last of
    the list to the first. *)
Definition getComponentAt (L : Layout.t) (position : Vector2.t) (s : t) : option nat :=
  List.find (fun c => Layout.containsPoint L c position) (rev (components s)).

Definition clear (h : Heap.t) (s : t) : Heap.t * t :=
  (Heap.mk (Heap.objects h) (Heap.wireCurrent h) (Component.resetNodeCounter (Heap.ids h)),
   mk [] [] (PhysicsEngine.clear (physicsEngine s))).

End CircuitSimulator.

(** ** input/InputManager.ts *)

(** The fields the selection, wire and delete tools use.  The canvas, the
    component to place and the dragging of a selected component (which moves
    its drawing only) are left out. *)
Module InputManager.

Inductive InteractionMode : Type := SELECT | PLACE_COMPONENT | WIRE | DELETE.

Record t : Type := mk {
  mode : InteractionMode;
  mousePos : Vector2.t;
  isDragging : bool;
  selectedComponent : option nat;
  wireStartComponent : option nat;
  wireStartTerminal : nat;
  dragOffset : Vector2.t
}.

Definition new : t := mk SELECT Vector2.zero false None None 0 Vector2.zero.

(** [setMode(mode)]. *)
Definition setMode (m : InteractionMode) (this : t) : t :=
  mk m (mousePos this) (isDragging this) None None (wireStartTerminal this) (dragOffset this).

Definition getMode (this : t) : InteractionMode := mode this.

Section Pointer.
Variable Math_sqrt : float -> float.
Variable L : Layout.t.

(** The body of [terminals.forEach((terminal, index) => ...)] in [startWire]
    and [endWire], on the pair of [closestTerminal] and [minDist]. *)
Definition nearer (c : nat) (position : Vector2.t) (best : nat * float) (index : nat)
  : nat * float :=
  let (closestTerminal, minDist) := best in
  let dist := Vector2.distance Math_sqrt position (Layout.terminalPosition L c index) in
  if Js.lt dist minDist then (index, dist) else (closestTerminal, minDist).

(** "Find closest terminal": [closestTerminal = 0; minDist = Infinity] and
    the loop over the terminals of the component at [c]. *)
Definition closest (terminals : list Terminal.t) (c : nat) (position : Vector2.t)
  : nat * float :=
  fold_left (nearer c position) (seq 0 (length terminals)) (0, Js.Infinity).

(** [component.getTerminals()]. *)
Definition getTerminals (objs : list Device.t) (c : nat) : list Terminal.t :=
  match objs !! c with
  | Some o => Component.terminals o
  | None => []
  end.

Definition startWire (position : Vector2.t) (h : Heap.t) (s : CircuitSimulator.t) (this : t)
  : t :=
  match CircuitSimulator.getComponentAt L position s with
  | Some component =>
      mk (mode this) (mousePos this) (isDragging this) (selectedComponent this)
         (Some component)
         (fst (closest (getTerminals (Heap.objects h) component) component position))
         (dragOffset this)
  | None => this
  end.

(** [endWire(position)]; [ref] is the identity of the object [new Wire]
    creates when the wire is made, and the constructor draws its [id]. *)
Definition endWire (ref : nat) (position : Vector2.t) (h : Heap.t) (s : CircuitSimulator.t)
    (this : t) : Heap.t * CircuitSimulator.t * t :=
  let cleared :=
    mk (mode this) (mousePos this) (isDragging this) (selectedComponent this) None
       (wireStartTerminal this) (dragOffset this) in
  match CircuitSimulator.getComponentAt L position s, wireStartComponent this with
  | Some endComponent, Some start =>
      if Nat.eqb endComponent start then (h, s, cleared)
      else
        let closestTerminal :=
          fst (closest (getTerminals (Heap.objects h) endComponent) endComponent position) in
        let wire := Wire.mk ref start endComponent (wireStartTerminal this) closestTerminal in
        let h := Heap.mk (Heap.objects h) (Heap.wireCurrent h) (Ids.newId (Heap.ids h)) in
        let (h', s') := CircuitSimulator.addWire wire h s in
        (h', s', cleared)
  | _, _ => (h, s, cleared)
  end.

(** [onMouseDown], with the position of the event. *)
Definition onMouseDown (position : Vector2.t) (h : Heap.t) (s : CircuitSimulator.t) (this : t)
  : Heap.t * CircuitSimulator.t * t :=
  let this :=
    mk (mode this) position (isDragging this) (selectedComponent this)
       (wireStartComponent this) (wireStartTerminal this) (dragOffset this) in
  match mode this with
  | SELECT =>
      match CircuitSimulator.getComponentAt L position s with
      | Some component =>
          (h, s,
           mk (mode this) (mousePos this) true (Some component) (wireStartComponent this)
              (wireStartTerminal this)
              (Vector2.subtract (mousePos this) (Layout.position L component)))
      | None => (h, s, this)
      end
  | WIRE => (h, s, startWire position h s this)
  | DELETE =>
      match CircuitSimulator.getComponentAt L position s with
      | Some component =>
          let (h', s') := CircuitSimulator.removeComponent component h s in (h', s', this)
      | None => (h, s, this)
      end
  | PLACE_COMPONENT => (h, s, this)
  end.

End Pointer.

End InputManager.

(** ** Building circuits *)

(** [new C(...)]: the constructor [build] runs against the id source and
    the new object receives the next address. *)
Definition allocate {F} (inj : F -> Device.Fields)
    (build : Ids.t -> Component.t F * Ids.t) (h : Heap.t) : nat * Heap.t :=
  let (o, ids') := build (Heap.ids h) in
  (length (Heap.objects h),
   Heap.mk (Heap.objects h ++ [Device.upcast inj o]) (Heap.wireCurrent h) ids').

(** A heap with no object yet, in which the calls of [Math.random] answer
    the numbers of [draws] in turn ([0.5] afterwards). *)
Definition freshHeap (draws : list float) : Heap.t :=
  Heap.mk [] [] (Ids.mk 1 (fun n => nth n draws 0.5%float) 0).

(** The node ids of the terminals of the component at address [c]. *)
Definition nodesOf (h : Heap.t) (c : nat) : list Z :=
  match Heap.objects h !! c with
  | Some o => map Terminal.node (Component.terminals o)
  | None => []
  end.

(** The solved voltages of the terminals of the component at address [c]. *)
Definition voltagesOf (h : Heap.t) (c : nat) : list float :=
  match Heap.objects h !! c with
  | Some o => map Terminal.voltage (Component.terminals o)
  | None => []
  end.

(** ** Removing a component *)

Lemma rebuildCircuit_wires h e :
  PhysicsEngine.wires (snd (PhysicsEngine.rebuildCircuit h e)) = PhysicsEngine.wires e.
Proof. reflexivity. Qed.

(** [PhysicsEngine.removeComponent] never touches the engine's wire list,
    and [CircuitSimulator.removeComponent] filters only its own. *)
Lemma removeComponent_keeps_engine_wires c h s :
  PhysicsEngine.wires
    (CircuitSimulator.physicsEngine (snd (CircuitSimulator.removeComponent c h s)))
  = PhysicsEngine.wires (CircuitSimulator.physicsEngine s).
Proof.
  unfold CircuitSimulator.removeComponent.
  destruct (PhysicsEngine.spliceComponent c (CircuitSimulator.components s)); [|reflexivity].
  unfold PhysicsEngine.removeComponent.
  destruct (PhysicsEngine.spliceComponent c _); reflexivity.
Qed.

(** Two resistors, a wire from terminal 1 of the first to terminal 0 of the
    second, all added through the simulator. *)
Definition twoResistors : Heap.t * CircuitSimulator.t :=
  let h := freshHeap [0.5; 0.0000035; 0.0000045; 0.5; 0.0000075; 0.0000085]%float in
  let (r1, h) := allocate Device.OfResistor (Resistor.new 1000) h in
  let (r2, h) := allocate Device.OfResistor (Resistor.new 1000) h in
  let s := CircuitSimulator.new PhysicsEngine.empty in
  let (h, s) := CircuitSimulator.addComponent r1 h s in
  let (h, s) := CircuitSimulator.addComponent r2 h s in
  CircuitSimulator.addWire (Wire.mk 0 r1 r2 1 0) h s.

Example twoResistors_state :
  let (h, s) := twoResistors in
  CircuitSimulator.components s = [0; 1] /\
  CircuitSimulator.wires s = [Wire.mk 0 0 1 1 0] /\
  PhysicsEngine.wires (CircuitSimulator.physicsEngine s) = [Wire.mk 0 0 1 1 0] /\
  nodesOf h 0 = [3; 4]%Z /\ nodesOf h 1 = [4; 8]%Z.
Proof. vm_compute. repeat split. Qed.

(** C9, on the code.  After [simulator.removeComponent] of the first
    resistor the simulator lists no wire, but the engine still lists the
    wire that starts on the removed component, and the engine is what
    rebuilds and solves. *)
Theorem removed_component_wire_stays_in_engine :
  let (h, s) := twoResistors in
  let (h', s') := CircuitSimulator.removeComponent 0 h s in
  CircuitSimulator.getComponents s' = [1] /\
  CircuitSimulator.getWires s' = [] /\
  PhysicsEngine.components (CircuitSimulator.physicsEngine s') = [1] /\
  PhysicsEngine.wires (CircuitSimulator.physicsEngine s') = [Wire.mk 0 0 1 1 0] /\
  Wire.startComponent (Wire.mk 0 0 1 1 0) = 0.
Proof. vm_compute. repeat split. Qed.

(** ** One battery, solved *)

(** A 9 V battery alone, added through the simulator; its terminals
    received the node ids 5 and 7. *)
Definition loneBattery : Heap.t * CircuitSimulator.t :=
  let h := freshHeap [0.5; 0.0000055; 0.0000075]%float in
  let (bat, h) := allocate Device.OfBattery (Battery.new 9) h in
  CircuitSimulator.addComponent bat h (CircuitSimulator.new PhysicsEngine.empty).

Definition loneBatteryEngine : PhysicsEngine.t :=
  CircuitSimulator.physicsEngine (snd loneBattery).

Example loneBattery_state :
  nodesOf (fst loneBattery) 0 = [5; 7]%Z /\
  voltagesOf (fst loneBattery) 0 = [0; 9]%float /\
  PhysicsEngine.components loneBatteryEngine = [0] /\
  map fst (PhysicsEngine.nodes loneBatteryEngine) = [5; 7]%Z.
Proof. vm_compute. repeat split. Qed.

(** The system assembled for it has three unknowns: two nodes and one
    voltage source. *)
Example loneBattery_system :
  PhysicsEngine.assemble (fun _ => 1%float) (Heap.objects (fst loneBattery)) loneBatteryEngine
  = Some ([[10; -10; 0]; [-10; 10; 0]; [0; 0; 0]]%float, [90; -90; 0]%float).
Proof. vm_compute. reflexivity. Qed.

(** The voltage the last solve stored for the node [n]: that of its entry
    in the node map, [0] for the ground node (whose entry is never written)
    and for a node the map does not hold. *)
Fixpoint solvedVoltage (ns : list (Z * PhysicsEngine.CircuitNode)) (n : Z) : float :=
  match ns with
  | [] => 0%float
  | (k, node) :: rest =>
      if Z.eqb k n then
        (if Z.eqb n PhysicsEngine.groundNode then 0%float else PhysicsEngine.voltage node)
      else solvedVoltage rest n
  end.

(** "Every terminal carries the solved voltage of its node." *)
Definition scattered (h : Heap.t) (e : PhysicsEngine.t) : Prop :=
  forall c o t,
    c ∈ PhysicsEngine.components e -> Heap.objects h !! c = Some o ->
    t ∈ Component.terminals o ->
    Terminal.voltage t = solvedVoltage (PhysicsEngine.nodes e) (Terminal.node t).

(** *** No solve writes a terminal's voltage *)

Definition voltagesIn (objs : list Device.t) (c : nat) : list float :=
  match objs !! c with
  | Some o => map Terminal.voltage (Component.terminals o)
  | None => []
  end.

Lemma alter_current_voltages v i (ts : list Terminal.t) :
  map Terminal.voltage (alter (fun t => Terminal.withCurrent t v) i ts)
  = map Terminal.voltage ts.
Proof.
  revert ts; induction i as [|i IH]; intros [|t ts]; cbn; try reflexivity.
  now rewrite IH.
Qed.

Lemma alterTerminal_current_voltages v c i objs k :
  voltagesIn (Heap.alterTerminal (fun t => Terminal.withCurrent t v) c i objs) k
  = voltagesIn objs k.
Proof.
  unfold voltagesIn, Heap.alterTerminal.
  destruct (decide (c = k)) as [->|Hne].
  - rewrite list_lookup_alter_eq.
    destruct (objs !! k) as [o|]; cbn; [|reflexivity].
    apply alter_current_voltages.
  - now rewrite list_lookup_alter_ne.
Qed.

Lemma wireCurrents_voltages h w k :
  voltagesOf (PhysicsEngine.wireCurrents h w) k = voltagesOf h k.
Proof.
  unfold PhysicsEngine.wireCurrents.
  destruct (Heap.startOf (Heap.objects h) w), (Heap.endOf (Heap.objects h) w);
    try reflexivity.
  change (voltagesOf ?h k) with (voltagesIn (Heap.objects h) k); cbn.
  now rewrite !alterTerminal_current_voltages.
Qed.

Lemma updateComponentValues_voltages x h e k :
  voltagesOf (PhysicsEngine.updateComponentValues x h e) k = voltagesOf h k.
Proof.
  unfold PhysicsEngine.updateComponentValues.
  generalize (PhysicsEngine.wires e) as ws; intros ws; revert h.
  induction ws as [|w ws IH]; intros h; cbn; [reflexivity|].
  now rewrite IH, wireCurrents_voltages.
Qed.

Lemma solveCircuit_voltages Math_exp h e h' e' k :
  PhysicsEngine.solveCircuit Math_exp h e = Js.Normal (h', e') ->
  voltagesOf h' k = voltagesOf h k.
Proof.
  unfold PhysicsEngine.solveCircuit.
  destruct (PhysicsEngine.assemble _ _ _) as [[G b]|]; [|now intros [= <- <-]].
  destruct (Gauss.gaussianElimination G b) as [[x|]|]; cbn; try discriminate.
  - intros [= <- <-]. apply (updateComponentValues_voltages x).
  - now intros [= <- <-].
Qed.

Lemma stepLoop_voltages Math_exp fuel : forall h e h' e' k,
  PhysicsEngine.stepLoop Math_exp fuel h e = Some (Js.Normal (h', e')) ->
  voltagesOf h' k = voltagesOf h k.
Proof.
  induction fuel as [|fuel IH]; intros h e h' e' k; cbn [PhysicsEngine.stepLoop];
    destruct (Js.ge (PhysicsEngine.accumulator e) PhysicsEngine.timeStep).
  - intros H; discriminate H.
  - now intros [= <- <-].
  - unfold PhysicsEngine.simulate.
    destruct (Nat.eqb (length (PhysicsEngine.components e)) 0).
    + intros H; now apply (IH _ _ _ _ k) in H.
    + destruct (PhysicsEngine.solveCircuit Math_exp h e) as [[h1 e1]|] eqn:Hs;
        [|intros H; discriminate H].
      intros H; apply (IH _ _ _ _ k) in H. rewrite H.
      eapply solveCircuit_voltages; eauto.
  - now intros [= <- <-].
Qed.

(** Whatever the circuit, the solves of a tick leave on every terminal the
    voltage it had. *)
Lemma solvePhase_voltages Math_exp fuel deltaTime h e h' e' k :
  PhysicsEngine.solvePhase Math_exp fuel deltaTime h e = Some (Js.Normal (h', e')) ->
  voltagesOf h' k = voltagesOf h k.
Proof. apply stepLoop_voltages. Qed.

(** C1, on the code.  One tick of 1 ms on the lone battery runs one solve.
    The solve stores 9 V for the node 5 and 0 V for the node 7, while the
    terminal on the node 5 still carries 0 V and the terminal on the node 7
    still carries 9 V, the values its constructor gave them: at the moment
    the [update] functions of the components run, the terminals do not
    carry the solved voltages. *)
Theorem solved_voltages_never_reach_terminals :
  exists h' e',
    PhysicsEngine.solvePhase (fun _ => 1%float) 5 0.001 (fst loneBattery) loneBatteryEngine
      = Some (Js.Normal (h', e')) /\
    map (fun p => (fst p, PhysicsEngine.voltage (snd p))) (PhysicsEngine.nodes e')
      = [(5%Z, 9%float); (7%Z, 0%float)] /\
    nodesOf h' 0 = [5; 7]%Z /\
    voltagesOf h' 0 = [0; 9]%float /\
    ~ scattered h' e'.
Proof.
  eexists _, _. split; [vm_compute; reflexivity|].
  split; [vm_compute; reflexivity|].
  split; [vm_compute; reflexivity|].
  split; [vm_compute; reflexivity|].
  intros Hs.
  specialize (Hs 0 _ (Terminal.mk 5 0 0) ltac:(vm_compute; left) ltac:(vm_compute; reflexivity)
                ltac:(left)).
  vm_compute in Hs. floats_differ Hs.
Qed.

(** ** The size of the assembled system *)

Lemma gaussianElimination_some A b :
  0 < length b -> length b <= length A ->
  exists x, Gauss.gaussianElimination A b = Js.Normal (Some x) /\ length x = length b.
Proof.
  intros Hn Hrows. set (n := length b) in *.
  destruct (forwardLoop_ok n 0 (seq 0 n) (Gauss.augment A b)) as (aug & Hfwd & Hlen & _).
  { eapply Forall_impl; [apply seq_bounds|]; simpl; intros; lia. }
  { now rewrite augment_length. }
  rewrite augment_length in Hlen.
  destruct (backLoop_ok n aug (rev (seq 0 n)) (replicate n 0%float))
    as (x & Hback & Hlenx & _ & _).
  { apply NoDup_ListNoDup, List.NoDup_rev, NoDup_ListNoDup, NoDup_seq. }
  { apply Forall_forall; intros i Hi; apply elem_of_rev_seq in Hi.
    rewrite length_replicate; lia. }
  exists x; split; [|now rewrite Hlenx, length_replicate].
  unfold Gauss.gaussianElimination; fold n.
  destruct (Nat.eqb_spec n 0) as [?|_]; [lia|].
  unfold Gauss.forwardElimination, Gauss.backSubstitution.
  now rewrite Hfwd; simpl; rewrite Hback.
Qed.

(** A system of size [n]: [n] rows of [n] numbers and [n] right-hand sides. *)
Definition square (n : nat) (Gb : list (list float) * list float) : Prop :=
  length (fst Gb) = n /\ Forall (fun r => length r = n) (fst Gb) /\ length (snd Gb) = n.

Lemma alter_row_keeps_square {A} (f : list A -> list A) n i (G : list (list A)) :
  (forall r, length (f r) = length r) ->
  Forall (fun r => length r = n) G -> Forall (fun r => length r = n) (alter f i G).
Proof.
  intros Hf HG. apply Forall_lookup; intros j r Hr.
  destruct (decide (i = j)) as [->|Hne].
  - rewrite list_lookup_alter_eq in Hr.
    destruct (G !! j) as [r0|] eqn:E; cbn in Hr; [|discriminate].
    injection Hr as <-. rewrite Hf. eapply Forall_lookup in HG; eauto.
  - rewrite list_lookup_alter_ne in Hr by assumption. eapply Forall_lookup in HG; eauto.
Qed.

Lemma stamp_square Math_exp m n Gb o :
  square n Gb -> square n (PhysicsEngine.stamp Math_exp m Gb o).
Proof.
  destruct Gb as [G b]; unfold PhysicsEngine.stamp.
  destruct (Component.terminals o) as [|t0 [|t1 [|? ?]]]; try (intros H; exact H).
  intros (HG & Hrows & Hb); cbv zeta; cbn in HG, Hrows, Hb.
  unfold PhysicsEngine.addAt, PhysicsEngine.subAt, PhysicsEngine.addTo, PhysicsEngine.subFrom.
  repeat split; cbn; repeat case_match; rewrite ?length_alter; try assumption.
  repeat (apply alter_row_keeps_square; [intros; apply length_alter|]). exact Hrows.
Qed.

Lemma buildConductanceMatrix_square Math_exp objs e n G b :
  square n (G, b) -> square n (PhysicsEngine.buildConductanceMatrix Math_exp objs e G b).
Proof.
  unfold PhysicsEngine.buildConductanceMatrix.
  generalize (PhysicsEngine.listed objs (PhysicsEngine.components e)) as os.
  generalize (G, b) as Gb. intros Gb os; revert Gb.
  induction os as [|o os IH]; intros Gb H; cbn; [exact H|].
  apply IH, stamp_square, H.
Qed.

Lemma assemble_square Math_exp objs e Gb :
  PhysicsEngine.assemble Math_exp objs e = Some Gb ->
  0 < PhysicsEngine.matrixSize objs e /\ square (PhysicsEngine.matrixSize objs e) Gb.
Proof.
  unfold PhysicsEngine.assemble.
  destruct (Nat.eqb_spec (PhysicsEngine.matrixSize objs e) 0) as [|Hn]; [discriminate|].
  intros [= <-]. split; [lia|].
  apply buildConductanceMatrix_square; repeat split; cbn.
  - apply length_replicate.
  - apply Forall_replicate, length_replicate.
  - apply length_replicate.
Qed.

(** The number of non-ground entries among the first [j] of the node map. *)
Definition rank (ns : list (Z * PhysicsEngine.CircuitNode)) (j : nat) : nat :=
  length (filter (fun p => fst p <> PhysicsEngine.groundNode) (take j ns)).

Lemma rank_le ns j : rank ns j <= j.
Proof.
  unfold rank. etransitivity; [apply length_filter|]. rewrite length_take; lia.
Qed.

Lemma rank_cons p ns j :
  rank (p :: ns) (S j)
  = (if Z.eqb (fst p) PhysicsEngine.groundNode then 0 else 1) + rank ns j.
Proof.
  unfold rank. change (take (S j) (p :: ns)) with (p :: take j ns). rewrite filter_cons.
  destruct (Z.eqb_spec (fst p) PhysicsEngine.groundNode) as [Hd|Hd];
    destruct (decide _) as [Hc|Hc]; try reflexivity; contradiction.
Qed.

Lemma applySolution_cons x nodeId node rest k :
  PhysicsEngine.applySolution x ((nodeId, node) :: rest) k
  = if negb (Z.eqb nodeId PhysicsEngine.groundNode) && Nat.ltb k (length x)
    then (nodeId, PhysicsEngine.mkNode (PhysicsEngine.id node) (Js.get x k))
           :: PhysicsEngine.applySolution x rest (S k)
    else (nodeId, node) :: PhysicsEngine.applySolution x rest k.
Proof. reflexivity. Qed.

Lemma applySolution_lookup x ns k j nodeId node :
  ns !! j = Some (nodeId, node) -> nodeId <> PhysicsEngine.groundNode ->
  k + rank ns j < length x ->
  PhysicsEngine.applySolution x ns k !! j
  = Some (nodeId, PhysicsEngine.mkNode (PhysicsEngine.id node) (Js.get x (k + rank ns j))).
Proof.
  revert k j; induction ns as [|[id0 n0] ns IH]; intros k j Hj Hne Hlt; [discriminate|].
  rewrite applySolution_cons.
  destruct j as [|j].
  - injection Hj as -> ->.
    change (rank ((nodeId, node) :: ns) 0) with 0 in *. rewrite Nat.add_0_r in *.
    apply Z.eqb_neq in Hne. apply Nat.ltb_lt in Hlt. now rewrite Hne, Hlt.
  - rewrite rank_cons in *. cbn [fst] in *. cbn in Hj.
    destruct (Z.eqb_spec id0 PhysicsEngine.groundNode) as [->|Hd]; cbn [negb andb];
      cbv iota in Hlt |- *.
    + now apply IH.
    + assert (Hk : Nat.ltb k (length x) = true) by (apply Nat.ltb_lt; lia).
      rewrite Hk.
      replace (k + (1 + rank ns j)) with (S k + rank ns j) by lia.
      apply (IH (S k) j Hj Hne); lia.
Qed.

Lemma solveCircuit_nodes Math_exp h e G b x :
  PhysicsEngine.assemble Math_exp (Heap.objects h) e = Some (G, b) ->
  Gauss.gaussianElimination G b = Js.Normal (Some x) ->
  PhysicsEngine.solveCircuit Math_exp h e
  = Js.Normal
      (PhysicsEngine.updateComponentValues x h
         (PhysicsEngine.withNodes e (PhysicsEngine.applySolution x (PhysicsEngine.nodes e) 0)),
       PhysicsEngine.withNodes e (PhysicsEngine.applySolution x (PhysicsEngine.nodes e) 0)).
Proof.
  intros Ha Hx; unfold PhysicsEngine.solveCircuit; now rewrite Ha, Hx.
Qed.

(** The number of nodes of the current partition other than the ground
    node: the distinct non-zero node ids on the terminals of the listed
    components. *)
Definition nonGroundNodes (h : Heap.t) (e : PhysicsEngine.t) : nat :=
  length
    (filter (fun n => n <> PhysicsEngine.groundNode)
       (remove_dups
          (flat_map (fun o => map Terminal.node (Component.terminals o))
             (PhysicsEngine.listed (Heap.objects h) (PhysicsEngine.components e))))).

(** A 9 V battery alone whose terminal 0 was given the node id [0], the id
    of the ground node, and whose terminal 1 the id 7. *)
Definition groundedBattery : Heap.t * CircuitSimulator.t :=
  let h := freshHeap [0.5; 0.0000005; 0.0000075]%float in
  let (bat, h) := allocate Device.OfBattery (Battery.new 9) h in
  CircuitSimulator.addComponent bat h (CircuitSimulator.new PhysicsEngine.empty).

Definition groundedBatteryEngine : PhysicsEngine.t :=
  CircuitSimulator.physicsEngine (snd groundedBattery).

Example groundedBattery_state :
  nodesOf (fst groundedBattery) 0 = [0; 7]%Z /\
  voltagesOf (fst groundedBattery) 0 = [0; 9]%float /\
  map fst (PhysicsEngine.nodes groundedBatteryEngine) = [0; 7]%Z.
Proof. vm_compute. repeat split. Qed.

(** Its system: node 0 has no index, so nothing is stamped into [G], and
    the one index there is receives [- 9 / 0.1] in [b]. *)
Example groundedBattery_system :
  PhysicsEngine.assemble (fun _ => 1%float) (Heap.objects (fst groundedBattery))
    groundedBatteryEngine
  = Some ([[0; 0; 0]; [0; 0; 0]; [0; 0; 0]]%float, [-90; 0; 0]%float).
Proof. vm_compute. reflexivity. Qed.

Example groundedBattery_solution :
  Gauss.gaussianElimination [[0; 0; 0]; [0; 0; 0]; [0; 0; 0]]%float [-90; 0; 0]%float
  = Js.Normal (Some [0; 0; 0]%float).
Proof. vm_compute. reflexivity. Qed.

(** The solve stores 0 V for the node 7, the node of the terminal that
    carries the 9 V of the battery. *)
Example groundedBattery_solved :
  match PhysicsEngine.solveCircuit (fun _ => 1%float) (fst groundedBattery)
          groundedBatteryEngine with
  | Js.Normal (_, e') =>
      map (fun p => (fst p, PhysicsEngine.voltage (snd p))) (PhysicsEngine.nodes e')
      = [(0%Z, 0%float); (7%Z, 0%float)]
  | Js.TypeError => False
  end.
Proof. vm_compute. reflexivity. Qed.

(** The product [G.v] of the claim, in the numbers of the program: the
    entry [i] is the sum, from the left, of the products [G[i][j] * v[j]]. *)
Definition rowTimes (row v : list float) : float :=
  fold_left (fun acc gv => (acc + fst gv * snd gv)%float) (zip row v) 0%float.
Definition product (G : list (list float)) (v : list float) : list float :=
  map (fun row => rowTimes row v) G.

(** At the lone battery the vector returned does satisfy [G.v = b]. *)
Example loneBattery_solution :
  Gauss.gaussianElimination [[10; -10; 0]; [-10; 10; 0]; [0; 0; 0]]%float [90; -90; 0]%float
  = Js.Normal (Some [9; 0; 0]%float) /\
  product [[10; -10; 0]; [-10; 10; 0]; [0; 0; 0]]%float [9; 0; 0]%float = [90; -90; 0]%float.
Proof. vm_compute. split; reflexivity. Qed.

(** The claim of C5, refuted in both halves.  The size: the lone battery has
    two nodes, neither of them the ground node, and its matrix has three
    rows.  The solution: for the battery with a terminal on the ground node
    [G] is the zero matrix and [b] is not zero, and the vector the solver
    returns, all zeros, does not satisfy [G.v = b]. *)
Lemma conductance_system_is_not_as_claimed :
  ~ (forall (Math_exp : float -> float) (h : Heap.t) (e : PhysicsEngine.t) G b,
       PhysicsEngine.assemble Math_exp (Heap.objects h) e = Some (G, b) ->
       length G = nonGroundNodes h e) /\
  ~ (forall (Math_exp : float -> float) (h : Heap.t) (e : PhysicsEngine.t) G b x,
       PhysicsEngine.assemble Math_exp (Heap.objects h) e = Some (G, b) ->
       Gauss.gaussianElimination G b = Js.Normal (Some x) ->
       product G x = b).
Proof.
  split; intros H.
  - specialize (H (fun _ => 1%float) (fst loneBattery) loneBatteryEngine _ _ loneBattery_system).
    vm_compute in H. discriminate H.
  - specialize (H (fun _ => 1%float) (fst groundedBattery) groundedBatteryEngine _ _ _
                  groundedBattery_system groundedBattery_solution).
    apply (f_equal (fun v => Js.get v 0)) in H. vm_compute in H. floats_differ H.
Qed.

(** The entries of [G] outside its leading [k] rows and columns, and those
    of [b] from the index [k] on, are [0]. *)
Definition padded (k : nat) (Gb : list (list float) * list float) : Prop :=
  (forall i j row g, fst Gb !! i = Some row -> row !! j = Some g -> k <= i \/ k <= j ->
                     g = 0%float) /\
  (forall i v, snd Gb !! i = Some v -> k <= i -> v = 0%float).

Lemma indexNodes_below ns : forall next key i,
  PhysicsEngine.indexOfNode (PhysicsEngine.indexNodes ns next) key = Some i ->
  i < next + rank ns (length ns).
Proof.
  induction ns as [|[k n] ns IH]; intros next key i H; [discriminate|].
  cbn [PhysicsEngine.indexNodes] in H. cbn [length]. rewrite rank_cons; cbn [fst].
  destruct (Z.eqb k PhysicsEngine.groundNode).
  - apply IH in H. lia.
  - cbn [PhysicsEngine.indexOfNode] in H. destruct (Z.eqb k key).
    + injection H as <-. lia.
    + apply IH in H. lia.
Qed.

Lemma alter_entry_padded f a c k G b :
  a < k -> c < k -> padded k (G, b) -> padded k (alter (alter f c) a G, b).
Proof.
  intros Ha Hc [HG Hb]. split; [|exact Hb]. cbn [fst] in *.
  intros i j row g Hrow Hg Hor.
  destruct (decide (a = i)) as [<-|Hne].
  - rewrite list_lookup_alter_eq in Hrow.
    destruct (G !! a) as [r0|] eqn:E; cbn in Hrow; [|discriminate].
    injection Hrow as <-.
    destruct (decide (c = j)) as [<-|Hnc]; [lia|].
    rewrite list_lookup_alter_ne in Hg by assumption. exact (HG a j r0 g E Hg Hor).
  - rewrite list_lookup_alter_ne in Hrow by assumption. exact (HG i j row g Hrow Hg Hor).
Qed.

Lemma alter_rhs_padded f a k G b :
  a < k -> padded k (G, b) -> padded k (G, alter f a b).
Proof.
  intros Ha [HG Hb]. split; [exact HG|]. cbn [snd] in *.
  intros i v Hv Hi.
  rewrite list_lookup_alter_ne in Hv by lia. exact (Hb i v Hv Hi).
Qed.

Lemma stamp_padded Math_exp m k Gb o :
  (forall key i, PhysicsEngine.indexOfNode m key = Some i -> i < k) ->
  padded k Gb -> padded k (PhysicsEngine.stamp Math_exp m Gb o).
Proof.
  intros Hm. destruct Gb as [G b]; unfold PhysicsEngine.stamp.
  destruct (Component.terminals o) as [|t0 [|t1 [|? ?]]]; try (intros H; exact H).
  intros H; cbv zeta.
  unfold PhysicsEngine.addAt, PhysicsEngine.subAt, PhysicsEngine.addTo, PhysicsEngine.subFrom.
  destruct (PhysicsEngine.indexOfNode m (Terminal.node t0)) as [n1|] eqn:E1;
    destruct (PhysicsEngine.indexOfNode m (Terminal.node t1)) as [n2|] eqn:E2;
    try (pose proof (Hm _ _ E1)); try (pose proof (Hm _ _ E2));
    destruct (Js.gt _ 0); destruct (Js.strict_ne _ 0);
    repeat first [ assumption
                 | apply alter_entry_padded; [assumption|assumption|]
                 | apply alter_rhs_padded; [assumption|] ].
Qed.

Lemma buildConductanceMatrix_padded Math_exp objs e G b :
  let k := rank (PhysicsEngine.nodes e) (length (PhysicsEngine.nodes e)) in
  padded k (G, b) -> padded k (PhysicsEngine.buildConductanceMatrix Math_exp objs e G b).
Proof.
  intros k. unfold PhysicsEngine.buildConductanceMatrix.
  generalize (PhysicsEngine.listed objs (PhysicsEngine.components e)) as os.
  generalize (G, b) as Gb. intros Gb os; revert Gb.
  induction os as [|o os IH]; intros Gb H; cbn; [exact H|].
  apply IH, stamp_padded; [|exact H].
  intros key i Hi. exact (indexNodes_below _ _ _ _ Hi).
Qed.

Lemma assemble_padded Math_exp objs e Gb :
  PhysicsEngine.assemble Math_exp objs e = Some Gb ->
  padded (rank (PhysicsEngine.nodes e) (length (PhysicsEngine.nodes e))) Gb.
Proof.
  unfold PhysicsEngine.assemble.
  destruct (Nat.eqb (PhysicsEngine.matrixSize objs e) 0); [discriminate|].
  intros [= <-]. apply buildConductanceMatrix_padded. split; cbn [fst snd].
  - intros i j row g Hrow Hg _.
    apply lookup_replicate in Hrow as [-> _]. now apply lookup_replicate in Hg as [-> _].
  - intros i v Hv _. now apply lookup_replicate in Hv as [-> _].
Qed.

(** C5, amended.  The assembled matrix [G] is square, and its size [n] is
    the number of entries of the node map plus the number of listed
    components whose [getVoltage()] is not [0].  Only its leading block is
    ever stamped, of size [k], the number of entries of the node map other
    than the ground node's: every other entry of [G], and every entry of [b]
    from the index [k] on, is [0].  The solver returns a vector [x] of size
    [n] for it, and [solveCircuit] stores [x], entry by entry in the order
    of the map, as the voltages of the nodes other than the ground node. *)
Theorem assembled_matrix_size (Math_exp : float -> float) (h : Heap.t) (e : PhysicsEngine.t)
    (G : list (list float)) (b : list float) :
  PhysicsEngine.assemble Math_exp (Heap.objects h) e = Some (G, b) ->
  let n := length (PhysicsEngine.nodes e)
           + PhysicsEngine.countVoltageSources (Heap.objects h) (PhysicsEngine.components e) in
  let k := rank (PhysicsEngine.nodes e) (length (PhysicsEngine.nodes e)) in
  length G = n /\ Forall (fun r => length r = n) G /\ length b = n /\
  k <= n /\
  (forall i j row g, G !! i = Some row -> row !! j = Some g -> k <= i \/ k <= j ->
                     g = 0%float) /\
  (forall i v, b !! i = Some v -> k <= i -> v = 0%float) /\
  exists x h' e',
    Gauss.gaussianElimination G b = Js.Normal (Some x) /\ length x = n /\
    PhysicsEngine.solveCircuit Math_exp h e = Js.Normal (h', e') /\
    forall j nodeId node,
      PhysicsEngine.nodes e !! j = Some (nodeId, node) ->
      nodeId <> PhysicsEngine.groundNode ->
      PhysicsEngine.nodes e' !! j
      = Some (nodeId,
              PhysicsEngine.mkNode (PhysicsEngine.id node)
                (Js.get x (rank (PhysicsEngine.nodes e) j))).
Proof.
  intros Ha n k.
  destruct (assemble_square _ _ _ _ Ha) as (Hpos & HG & Hrows & Hb); cbn in HG, Hrows, Hb.
  fold n in Hpos, HG, Hrows, Hb. unfold PhysicsEngine.matrixSize in *.
  repeat (split; [assumption|]).
  split; [pose proof (rank_le (PhysicsEngine.nodes e) (length (PhysicsEngine.nodes e)));
          unfold k, n; lia|].
  destruct (assemble_padded _ _ _ _ Ha) as [HpG Hpb]; cbn [fst snd] in HpG, Hpb.
  split; [exact HpG|]. split; [exact Hpb|].
  destruct (gaussianElimination_some G b) as (x & Hx & Hlen); [lia..|].
  eexists x, _, _. split; [exact Hx|]. split; [lia|].
  split; [apply (solveCircuit_nodes _ _ _ _ _ _ Ha Hx)|].
  intros j nodeId node Hj Hne. cbn.
  apply (applySolution_lookup x _ 0 j nodeId node Hj Hne).
  pose proof (rank_le (PhysicsEngine.nodes e) j).
  apply lookup_lt_Some in Hj. cbn; fold n in Hlen; lia.
Qed.

(** The theorem at the lone battery: a 3 x 3 system whose third row and
    column are never stamped, and whose solution [[9; 0; 0]] gives the node
    5 its 9 V and the node 7 its 0 V. *)
Lemma assembled_matrix_size_witness :
  let G := [[10; -10; 0]; [-10; 10; 0]; [0; 0; 0]]%float in
  let b := [90; -90; 0]%float in
  PhysicsEngine.assemble (fun _ => 1%float) (Heap.objects (fst loneBattery)) loneBatteryEngine
    = Some (G, b) /\
  length G = 3 /\ Forall (fun r => length r = 3) G /\ length b = 3 /\
  (forall i j row g, G !! i = Some row -> row !! j = Some g -> 2 <= i \/ 2 <= j ->
                     g = 0%float) /\
  (forall i v, b !! i = Some v -> 2 <= i -> v = 0%float) /\
  exists h' e',
    PhysicsEngine.solveCircuit (fun _ => 1%float) (fst loneBattery) loneBatteryEngine
      = Js.Normal (h', e') /\
    PhysicsEngine.nodes e' !! 0 = Some (5%Z, PhysicsEngine.mkNode 5 9) /\
    PhysicsEngine.nodes e' !! 1 = Some (7%Z, PhysicsEngine.mkNode 7 0).
Proof.
  intros G b.
  destruct (assembled_matrix_size (fun _ => 1%float) (fst loneBattery) loneBatteryEngine
              G b loneBattery_system)
    as (HG & Hrows & Hb & _ & HpG & Hpb & x & h' & e' & Hx & Hlen & Hs & Hn).
  split; [exact loneBattery_system|].
  split; [exact HG|]. split; [exact Hrows|]. split; [exact Hb|].
  split; [exact HpG|]. split; [exact Hpb|].
  assert (Hx' : x = [9; 0; 0]%float).
  { pose proof (eq_trans (eq_sym Hx) (proj1 loneBattery_solution)) as E.
    exact (f_equal (fun c => match c with Js.Normal (Some v) => v | _ => [] end) E). }
  subst x. exists h', e'. split; [exact Hs|]. split.
  - exact (Hn 0 5%Z (PhysicsEngine.mkNode 5 0) eq_refl ltac:(discriminate)).
  - exact (Hn 1 7%Z (PhysicsEngine.mkNode 7 0) eq_refl ltac:(discriminate)).
Defined.

(** ** Node merging *)

(** [merge minNode maxNode] is what one merge does to a node id, and
    [union p q] the merge of the nodes [p] and [q]. *)
Definition merge (minNode maxNode x : Z) : Z := if Z.eqb x maxNode then minNode else x.
Definition union (p q x : Z) : Z := merge (Z.min p q) (Z.max p q) x.

Lemma union_ordered p q x :
  union p q x = if Z.leb p q then (if Z.eqb x q then p else x)
                else (if Z.eqb x p then q else x).
Proof.
  unfold union, merge. destruct (Z.leb_spec p q).
  - rewrite Z.max_r, Z.min_l by lia; reflexivity.
  - rewrite Z.max_l, Z.min_r by lia; reflexivity.
Qed.

Ltac split_tests :=
  repeat match goal with
         | |- context [Z.eqb ?u ?v] =>
             lazymatch u with context [if _ then _ else _] => fail | _ => idtac end;
             lazymatch v with context [if _ then _ else _] => fail | _ => idtac end;
             destruct (Z.eqb_spec u v); try subst; try (exfalso; lia)
         | |- context [Z.leb ?u ?v] =>
             lazymatch u with context [if _ then _ else _] => fail | _ => idtac end;
             lazymatch v with context [if _ then _ else _] => fail | _ => idtac end;
             destruct (Z.leb_spec u v); try (exfalso; lia)
         end.

(** Two unions commute, each reading the labels the other left. *)
Lemma union_comm a b c d x :
  union (union c d a) (union c d b) (union c d x)
  = union (union a b c) (union a b d) (union a b x).
Proof. rewrite !union_ordered. split_tests; lia. Qed.

Lemma union_joins p q : union p q p = union p q q.
Proof. rewrite !union_ordered. split_tests; lia. Qed.

Lemma union_same p x : union p p x = x.
Proof. rewrite union_ordered. split_tests; lia. Qed.

(** *** The labels along a list of wires *)

(** A wire whose two terminals exist links their node ids. *)
Definition linkOf (objs : list Device.t) (w : Wire.t) : option (Z * Z) :=
  match Heap.startOf objs w, Heap.endOf objs w with
  | Some s, Some e => Some (Terminal.node s, Terminal.node e)
  | _, _ => None
  end.

(** The relabelling after one more wire, given the relabelling [f] so far. *)
Definition stepLabel (f : Z -> Z) (l : option (Z * Z)) : Z -> Z :=
  match l with
  | Some (a, b) => fun x => union (f a) (f b) (f x)
  | None => f
  end.

Lemma stepLabel_ext f g l :
  (forall x, f x = g x) -> forall x, stepLabel f l x = stepLabel g l x.
Proof. intros H x; destruct l as [[a b]|]; cbn; [now rewrite !H|apply H]. Qed.

Lemma foldLabel_ext ls : forall f g,
  (forall x, f x = g x) -> forall x, fold_left stepLabel ls f x = fold_left stepLabel ls g x.
Proof.
  induction ls as [|l ls IH]; intros f g H x; cbn; [apply H|].
  apply IH, stepLabel_ext, H.
Qed.

Lemma stepLabel_swap f l1 l2 x :
  stepLabel (stepLabel f l1) l2 x = stepLabel (stepLabel f l2) l1 x.
Proof.
  destruct l1 as [[a b]|], l2 as [[c d]|]; cbn; try reflexivity.
  apply eq_sym, union_comm.
Qed.

(** The order of the wires does not matter to the labels. *)
Lemma foldLabel_Permutation ls1 ls2 :
  ls1 ≡ₚ ls2 -> forall f x, fold_left stepLabel ls1 f x = fold_left stepLabel ls2 f x.
Proof.
  induction 1 as [|l ls1 ls2 _ IH|l1 l2 ls|ls1 ls2 ls3 _ IH1 _ IH2]; intros f x; cbn.
  - reflexivity.
  - apply IH.
  - apply foldLabel_ext; intros y; apply stepLabel_swap.
  - now rewrite IH1.
Qed.

(** Labels that agree keep agreeing, and a wire makes its two ends agree. *)
Lemma foldLabel_keeps_equal ls : forall f a b,
  f a = f b -> fold_left stepLabel ls f a = fold_left stepLabel ls f b.
Proof.
  induction ls as [|l ls IH]; intros f a b H; cbn; [exact H|].
  apply IH. destruct l as [[c d]|]; cbn; [now rewrite H|exact H].
Qed.

Lemma foldLabel_joins ls : forall f a b,
  Some (a, b) ∈ ls -> fold_left stepLabel ls f a = fold_left stepLabel ls f b.
Proof.
  induction ls as [|l ls IH]; intros f a b Hin; [inversion Hin|].
  apply elem_of_cons in Hin as [<-|Hin]; cbn.
  - apply foldLabel_keeps_equal, union_joins.
  - now apply IH.
Qed.

(** Wires whose ends already agree change nothing. *)
Lemma foldLabel_settled ls : forall f,
  Forall (fun l => match l with Some (a, b) => f a = f b | None => True end) ls ->
  forall x, fold_left stepLabel ls f x = f x.
Proof.
  induction ls as [|l ls IH]; intros f H x; cbn; [reflexivity|].
  apply Forall_cons in H as [Hl H].
  assert (Hstep : forall y, stepLabel f l y = f y).
  { intros y; destruct l as [[a b]|]; cbn; [|reflexivity]. rewrite Hl; apply union_same. }
  rewrite IH; [apply Hstep|].
  eapply Forall_impl; [exact H|]. intros [[a b]|]; cbn; [|trivial].
  now rewrite !Hstep.
Qed.

(** *** From labels to component objects *)

(** The component [o] with the node id of each of its terminals sent
    through [f]. *)
Definition relabel (f : Z -> Z) (o : Device.t) : Device.t :=
  Component.withTerminals o
    (map (fun t => Terminal.withNode t (f (Terminal.node t))) (Component.terminals o)).

(** [objs'] is [objs] with the listed components relabelled by [f]. *)
Definition relabelled (f : Z -> Z) (cs : list nat) (objs objs' : list Device.t) : Prop :=
  forall i, objs' !! i = if bool_decide (i ∈ cs) then relabel f <$> objs !! i else objs !! i.

Lemma relabel_ext f g o : (forall x, f x = g x) -> relabel f o = relabel g o.
Proof.
  intros H; unfold relabel; f_equal. apply map_ext; intros t; now rewrite H.
Qed.

Lemma relabel_relabel f g o : relabel g (relabel f o) = relabel (fun x => g (f x)) o.
Proof.
  destruct o as [s ts T mT b p]; unfold relabel; cbn. f_equal.
  rewrite map_map. apply map_ext; intros [n v i]; reflexivity.
Qed.

Lemma relabel_id o : relabel (fun x => x) o = o.
Proof.
  destruct o as [s ts T mT b p]; unfold relabel, Component.withTerminals; cbn. f_equal.
  induction ts as [|[n v i] ts IH]; cbn; [reflexivity|]. now rewrite IH.
Qed.

Lemma renumber_merge minNode maxNode t :
  PhysicsEngine.renumber minNode maxNode t
  = Terminal.withNode t (merge minNode maxNode (Terminal.node t)).
Proof.
  destruct t as [n v i]; unfold PhysicsEngine.renumber, merge; cbn.
  destruct (Z.eqb n maxNode); reflexivity.
Qed.

Lemma merge_idempotent minNode maxNode x :
  merge minNode maxNode (merge minNode maxNode x) = merge minNode maxNode x.
Proof.
  unfold merge. destruct (Z.eqb_spec x maxNode) as [->|Hx].
  - destruct (Z.eqb_spec minNode maxNode); congruence.
  - destruct (Z.eqb_spec x maxNode); congruence.
Qed.

Lemma relabelled_unique f cs objs o1 o2 :
  relabelled f cs objs o1 -> relabelled f cs objs o2 -> o1 = o2.
Proof. intros H1 H2; apply list_eq; intros i; now rewrite H1, H2. Qed.

Lemma relabelled_ext f g cs objs objs' :
  (forall x, f x = g x) -> relabelled f cs objs objs' -> relabelled g cs objs objs'.
Proof.
  intros Hfg H i; rewrite H. destruct (bool_decide _); [|reflexivity].
  destruct (objs !! i) as [o|]; cbn; [|reflexivity]. now rewrite (relabel_ext f g).
Qed.

Lemma relabelled_id cs objs : relabelled (fun x => x) cs objs objs.
Proof.
  intros i; destruct (bool_decide _); [|reflexivity].
  destruct (objs !! i) as [o|]; cbn; [|reflexivity]. now rewrite relabel_id.
Qed.

Lemma relabelled_trans f g cs objs objs1 objs2 :
  relabelled f cs objs objs1 -> relabelled g cs objs1 objs2 ->
  relabelled (fun x => g (f x)) cs objs objs2.
Proof.
  intros H1 H2 i; rewrite H2, H1. destruct (bool_decide _); [|reflexivity].
  destruct (objs !! i) as [o|]; cbn; [|reflexivity]. now rewrite relabel_relabel.
Qed.

(** The merge loops relabel exactly the listed components. *)
Lemma mergeNodes_relabelled cs minNode maxNode objs :
  relabelled (merge minNode maxNode) cs objs (PhysicsEngine.mergeNodes cs minNode maxNode objs).
Proof.
  unfold PhysicsEngine.mergeNodes.
  set (g := fun o : Device.t =>
              Component.withTerminals o
                (map (PhysicsEngine.renumber minNode maxNode) (Component.terminals o))).
  assert (Hg : forall o, g o = relabel (merge minNode maxNode) o).
  { intros o; unfold g, relabel; f_equal. apply map_ext; intros t; apply renumber_merge. }
  assert (Hgg : forall o, g (g o) = g o).
  { intros o; rewrite !Hg, relabel_relabel. apply relabel_ext; intros x.
    apply merge_idempotent. }
  revert objs; induction cs as [|c cs IH]; intros objs i; cbn.
  - rewrite bool_decide_eq_false_2; [reflexivity|apply not_elem_of_nil].
  - rewrite IH. destruct (decide (c = i)) as [->|Hne].
    + rewrite list_lookup_alter_eq.
      rewrite (bool_decide_eq_true_2 (i ∈ i :: cs)) by (apply elem_of_cons; now left).
      destruct (objs !! i) as [o|]; cbn; [|now destruct (bool_decide _)].
      destruct (bool_decide _); now rewrite <- ?Hg, ?Hgg.
    + rewrite list_lookup_alter_ne by assumption.
      rewrite (bool_decide_ext (i ∈ c :: cs) (i ∈ cs)); [reflexivity|].
      rewrite elem_of_cons; intuition congruence.
Qed.

Lemma relabelled_getTerminal f cs objs objs' c i :
  relabelled f cs objs objs' -> c ∈ cs ->
  Heap.getTerminal objs' c i
  = (fun t => Terminal.withNode t (f (Terminal.node t))) <$> Heap.getTerminal objs c i.
Proof.
  intros H Hc; unfold Heap.getTerminal. rewrite H, bool_decide_eq_true_2 by assumption.
  destruct (objs !! c) as [o|]; cbn; [|reflexivity].
  apply list_lookup_fmap.
Qed.

(** A wire both of whose components the engine lists. *)
Definition closed (cs : list nat) (w : Wire.t) : Prop :=
  Wire.startComponent w ∈ cs /\ Wire.endComponent w ∈ cs.

Lemma relabelled_linkOf f cs objs objs' w :
  relabelled f cs objs objs' -> closed cs w ->
  linkOf objs' w
  = match linkOf objs w with Some (a, b) => Some (f a, f b) | None => None end.
Proof.
  intros H [Hs He]; unfold linkOf, Heap.startOf, Heap.endOf.
  rewrite (relabelled_getTerminal f cs objs objs' _ _ H Hs).
  rewrite (relabelled_getTerminal f cs objs objs' _ _ H He).
  destruct (Heap.getTerminal objs _ _) as [[n v i]|],
           (Heap.getTerminal objs _ _) as [[n' v' i']|]; reflexivity.
Qed.

Lemma connect_linkOf cs objs w :
  PhysicsEngine.connect cs objs w
  = match linkOf objs w with
    | Some (a, b) => PhysicsEngine.mergeNodes cs (Z.min a b) (Z.max a b) objs
    | None => objs
    end.
Proof.
  unfold PhysicsEngine.connect, linkOf.
  destruct (Heap.startOf objs w), (Heap.endOf objs w); reflexivity.
Qed.

(** The loop over the wires relabels the listed components by the labels
    of the wires' links, read in the heap the loop started from. *)
Lemma connect_all_relabelled cs objs0 ws : forall f objs,
  Forall (closed cs) ws -> relabelled f cs objs0 objs ->
  relabelled (fold_left stepLabel (map (linkOf objs0) ws) f) cs objs0
             (fold_left (PhysicsEngine.connect cs) ws objs).
Proof.
  induction ws as [|w ws IH]; intros f objs Hcl H; cbn; [exact H|].
  apply Forall_cons in Hcl as [Hw Hcl].
  apply IH; [exact Hcl|].
  rewrite connect_linkOf, (relabelled_linkOf f cs objs0 objs w H Hw).
  destruct (linkOf objs0 w) as [[a b]|]; cbn; [|exact H].
  apply (relabelled_trans f (merge _ _) cs objs0 objs _ H), mergeNodes_relabelled.
Qed.

Lemma rebuildCircuit_relabelled h e :
  Forall (closed (PhysicsEngine.components e)) (PhysicsEngine.wires e) ->
  relabelled
    (fold_left stepLabel (map (linkOf (Heap.objects h)) (PhysicsEngine.wires e)) (fun x => x))
    (PhysicsEngine.components e) (Heap.objects h)
    (Heap.objects (fst (PhysicsEngine.rebuildCircuit h e))).
Proof.
  intros Hcl; cbn. apply connect_all_relabelled; [exact Hcl|apply relabelled_id].
Qed.

(** *** The partition of the terminals *)

(** The node of the terminal [p.2] of the component at address [p.1]. *)
Definition nodeOfTerminal (h : Heap.t) (p : nat * nat) : option Z :=
  Terminal.node <$> Heap.getTerminal (Heap.objects h) p.1 p.2.

(** Two terminals are on the same node. *)
Definition joined (h : Heap.t) (p q : nat * nat) : Prop :=
  exists n, nodeOfTerminal h p = Some n /\ nodeOfTerminal h q = Some n.

Definition samePartition (h h' : Heap.t) : Prop :=
  forall p q, joined h p q <-> joined h' p q.

Lemma samePartition_objects h h' : Heap.objects h = Heap.objects h' -> samePartition h h'.
Proof. intros H p q; unfold joined, nodeOfTerminal; now rewrite H. Qed.

(** The engine [e] with another list of wires. *)
Definition withWires (e : PhysicsEngine.t) (ws : list Wire.t) : PhysicsEngine.t :=
  PhysicsEngine.mk (PhysicsEngine.components e) ws (PhysicsEngine.nodes e)
    (PhysicsEngine.accumulator e).

(** The heap [rebuildCircuit] leaves. *)
Definition rebuilt (h : Heap.t) (e : PhysicsEngine.t) : Heap.t :=
  fst (PhysicsEngine.rebuildCircuit h e).

Lemma rebuilt_Permutation h e ws' :
  Forall (closed (PhysicsEngine.components e)) (PhysicsEngine.wires e) ->
  PhysicsEngine.wires e ≡ₚ ws' ->
  Heap.objects (rebuilt h (withWires e ws')) = Heap.objects (rebuilt h e).
Proof.
  intros Hcl Hperm.
  pose proof (rebuildCircuit_relabelled h e Hcl) as H1.
  assert (Hcl' : Forall (closed (PhysicsEngine.components e)) ws') by now rewrite <- Hperm.
  pose proof (rebuildCircuit_relabelled h (withWires e ws') Hcl') as H2.
  eapply relabelled_unique; [exact H2|].
  eapply relabelled_ext; [|exact H1].
  intros x; apply foldLabel_Permutation, Permutation_map, Hperm.
Qed.

(** After a rebuild the two ends of every wire carry the same node id. *)
Lemma rebuilt_settled h e ws2 :
  Forall (closed (PhysicsEngine.components e)) (PhysicsEngine.wires e) ->
  ws2 ⊆ PhysicsEngine.wires e ->
  Forall (fun l => match l with Some (a, b) => a = b | None => True end)
         (map (linkOf (Heap.objects (rebuilt h e))) ws2).
Proof.
  intros Hcl Hsub. apply Forall_map, Forall_forall; intros w Hw.
  apply Hsub in Hw.
  assert (Hclw : closed (PhysicsEngine.components e) w)
    by (eapply Forall_forall in Hcl; eauto).
  unfold rebuilt.
  rewrite (relabelled_linkOf _ _ _ _ w (rebuildCircuit_relabelled h e Hcl) Hclw).
  destruct (linkOf (Heap.objects h) w) as [[a b]|] eqn:Hl; [|trivial].
  apply foldLabel_joins. rewrite <- Hl.
  apply list_elem_of_In, in_map. now apply list_elem_of_In.
Qed.

Lemma rebuilt_again h e ws2 :
  Forall (closed (PhysicsEngine.components e)) (PhysicsEngine.wires e) ->
  ws2 ⊆ PhysicsEngine.wires e ->
  Heap.objects (rebuilt (rebuilt h e) (withWires e ws2)) = Heap.objects (rebuilt h e).
Proof.
  intros Hcl Hsub.
  assert (Hcl2 : Forall (closed (PhysicsEngine.components e)) ws2).
  { apply Forall_forall; intros w Hw. eapply Forall_forall in Hcl; eauto. }
  pose proof (rebuildCircuit_relabelled (rebuilt h e) (withWires e ws2) Hcl2) as H.
  eapply relabelled_unique; [exact H|].
  eapply relabelled_ext; [|apply relabelled_id].
  intros x; cbn. symmetry. apply foldLabel_settled.
  eapply Forall_impl; [apply (rebuilt_settled h e ws2 Hcl Hsub)|].
  intros [[a b]|]; trivial.
Qed.

Lemma rebuilt_duplicate h e w :
  Forall (closed (PhysicsEngine.components e)) (PhysicsEngine.wires e) ->
  w ∈ PhysicsEngine.wires e ->
  Heap.objects (rebuilt h (withWires e (PhysicsEngine.wires e ++ [w])))
  = Heap.objects (rebuilt h e).
Proof.
  intros Hcl Hw.
  assert (Hclw : closed (PhysicsEngine.components e) w)
    by (eapply Forall_forall in Hcl; eauto).
  unfold rebuilt; cbn. rewrite fold_left_app; cbn.
  rewrite connect_linkOf.
  pose proof (rebuilt_settled h e [w] Hcl) as Hs.
  unfold rebuilt in Hs; cbn in Hs.
  specialize (Hs ltac:(intros ? ->%list_elem_of_singleton; exact Hw)).
  apply Forall_cons in Hs as [Hs _].
  destruct (linkOf _ w) as [[a b]|]; [|reflexivity]. subst b.
  eapply relabelled_unique; [apply mergeNodes_relabelled|].
  eapply relabelled_ext; [|apply relabelled_id].
  intros x; cbn. symmetry. apply union_same.
Qed.

(** C4, amended.  For wire lists all of whose wires join components the
    engine lists: two lists that are permutations of each other make
    [rebuildCircuit] leave the same node id on every terminal, hence the
    same partition; a list with one of its wires repeated leaves the same
    node ids as the list itself; and a further [rebuildCircuit], with the
    same wires or with any repetition or selection of them, changes no
    node id. *)
Theorem node_merging_order_independent (h : Heap.t) (e : PhysicsEngine.t) :
  Forall (closed (PhysicsEngine.components e)) (PhysicsEngine.wires e) ->
  (forall ws', PhysicsEngine.wires e ≡ₚ ws' ->
     Heap.objects (rebuilt h (withWires e ws')) = Heap.objects (rebuilt h e) /\
     samePartition (rebuilt h (withWires e ws')) (rebuilt h e)) /\
  (forall w, w ∈ PhysicsEngine.wires e ->
     Heap.objects (rebuilt h (withWires e (PhysicsEngine.wires e ++ [w])))
       = Heap.objects (rebuilt h e) /\
     samePartition (rebuilt h (withWires e (PhysicsEngine.wires e ++ [w]))) (rebuilt h e)) /\
  (forall ws2, ws2 ⊆ PhysicsEngine.wires e ->
     Heap.objects (rebuilt (rebuilt h e) (withWires e ws2)) = Heap.objects (rebuilt h e) /\
     samePartition (rebuilt (rebuilt h e) (withWires e ws2)) (rebuilt h e)).
Proof.
  intros Hcl; split; [|split].
  - intros ws' Hperm. split; [|apply samePartition_objects]; now apply rebuilt_Permutation.
  - intros w Hw. split; [|apply samePartition_objects]; now apply rebuilt_duplicate.
  - intros ws2 Hsub. split; [|apply samePartition_objects]; now apply rebuilt_again.
Qed.

(** Three resistors in a chain, all listed by the engine: the wire 0 joins
    terminal 1 of the first to terminal 0 of the second, the wire 1 joins
    terminal 1 of the second to terminal 0 of the third. *)
Definition chainHeap : Heap.t :=
  let h := freshHeap [0.5; 0.0000035; 0.0000045; 0.5; 0.0000075; 0.0000085;
                      0.5; 0.0000055; 0.0000065]%float in
  let (_, h) := allocate Device.OfResistor (Resistor.new 1000) h in
  let (_, h) := allocate Device.OfResistor (Resistor.new 1000) h in
  let (_, h) := allocate Device.OfResistor (Resistor.new 1000) h in
  h.

Definition chainEngine : PhysicsEngine.t :=
  PhysicsEngine.mk [0; 1; 2] [Wire.mk 0 0 1 1 0; Wire.mk 1 1 2 1 0] [] 0%float.

Example chain_nodes :
  nodesOf chainHeap 0 = [3; 4]%Z /\ nodesOf chainHeap 1 = [7; 8]%Z /\
  nodesOf chainHeap 2 = [5; 6]%Z /\
  nodesOf (rebuilt chainHeap chainEngine) 0 = [3; 4]%Z /\
  nodesOf (rebuilt chainHeap chainEngine) 1 = [4; 5]%Z /\
  nodesOf (rebuilt chainHeap chainEngine) 2 = [5; 6]%Z.
Proof. vm_compute. repeat split. Qed.

(** The node map is filled before the merges: right after the rebuild that
    first sees the two wires it still lists the ids 7 and 8 that no terminal
    carries any more; the next rebuild drops them. *)
Example chain_node_map :
  map fst (PhysicsEngine.nodes (snd (PhysicsEngine.rebuildCircuit chainHeap chainEngine)))
    = [3; 4; 7; 8; 5; 6]%Z /\
  map fst (PhysicsEngine.nodes
             (snd (PhysicsEngine.rebuildCircuit (rebuilt chainHeap chainEngine) chainEngine)))
    = [3; 4; 5; 6]%Z.
Proof. vm_compute. split; reflexivity. Qed.

Lemma chain_closed :
  Forall (closed (PhysicsEngine.components chainEngine)) (PhysicsEngine.wires chainEngine).
Proof. repeat constructor. Qed.

Lemma node_merging_order_independent_witness :
  (Heap.objects (rebuilt chainHeap (withWires chainEngine [Wire.mk 1 1 2 1 0; Wire.mk 0 0 1 1 0]))
   = Heap.objects (rebuilt chainHeap chainEngine)) /\
  samePartition
    (rebuilt chainHeap (withWires chainEngine [Wire.mk 1 1 2 1 0; Wire.mk 0 0 1 1 0]))
    (rebuilt chainHeap chainEngine) /\
  samePartition
    (rebuilt (rebuilt chainHeap chainEngine)
       (withWires chainEngine [Wire.mk 0 0 1 1 0; Wire.mk 1 1 2 1 0; Wire.mk 0 0 1 1 0]))
    (rebuilt chainHeap chainEngine).
Proof.
  destruct (node_merging_order_independent chainHeap chainEngine chain_closed)
    as (Hperm & _ & Hagain).
  split; [apply Hperm, perm_swap|]. split; [apply Hperm, perm_swap|].
  apply Hagain. intros w Hw. cbn.
  repeat (apply elem_of_cons in Hw as [->|Hw]; [repeat constructor|]).
  inversion Hw.
Defined.

(** Two listed resistors (addresses 0 and 1, node ids 3, 4 and 7, 8) and a
    third component (address 2, node ids 5, 6) that the engine does not
    list, with a wire from its terminal 0 to terminal 0 of each of the two. *)
Definition strayEngine : PhysicsEngine.t :=
  PhysicsEngine.mk [0; 1] [Wire.mk 0 2 0 0 0; Wire.mk 1 2 1 0 0] [] 0%float.

Example stray_orders :
  nodesOf (rebuilt chainHeap strayEngine) 0 = [3; 4]%Z /\
  nodesOf (rebuilt chainHeap strayEngine) 1 = [5; 8]%Z /\
  nodesOf (rebuilt chainHeap
             (withWires strayEngine [Wire.mk 1 2 1 0 0; Wire.mk 0 2 0 0 0])) 0 = [3; 4]%Z /\
  nodesOf (rebuilt chainHeap
             (withWires strayEngine [Wire.mk 1 2 1 0 0; Wire.mk 0 2 0 0 0])) 1 = [3; 8]%Z /\
  nodesOf (rebuilt (rebuilt chainHeap strayEngine) strayEngine) 1 = [3; 8]%Z.
Proof. vm_compute. repeat split. Qed.

(** The same through the engine's own methods: the two wires added in the
    two orders leave different partitions. *)
Example stray_insertion_orders :
  let e0 := PhysicsEngine.mk [0; 1] [] [] 0%float in
  let w1 := Wire.mk 0 2 0 0 0 in
  let w2 := Wire.mk 1 2 1 0 0 in
  let (h12, e12) := let (h, e) := PhysicsEngine.addWire w1 chainHeap e0 in
                    PhysicsEngine.addWire w2 h e in
  let (h21, e21) := let (h, e) := PhysicsEngine.addWire w2 chainHeap e0 in
                    PhysicsEngine.addWire w1 h e in
  nodesOf h12 0 = [3; 4]%Z /\ nodesOf h12 1 = [5; 8]%Z /\
  nodesOf h21 0 = [3; 4]%Z /\ nodesOf h21 1 = [3; 8]%Z.
Proof. vm_compute. repeat split. Qed.

(** The claim of C4, refuted: with a wire list that names a component the
    engine does not list, the order of the wires decides whether the first
    terminals of the two listed resistors end on one node. *)
Lemma stray_wires_order_matters :
  ~ (forall (h : Heap.t) (e : PhysicsEngine.t) (ws' : list Wire.t),
       PhysicsEngine.wires e ≡ₚ ws' ->
       samePartition (rebuilt h (withWires e ws')) (rebuilt h e)).
Proof.
  intros H.
  specialize (H chainHeap strayEngine [Wire.mk 1 2 1 0 0; Wire.mk 0 2 0 0 0]
                (perm_swap _ _ _) (0, 0) (1, 0)).
  destruct H as [H _].
  destruct H as (n & H0 & H1).
  - exists 3%Z. split; vm_compute; reflexivity.
  - vm_compute in H0, H1. congruence.
Qed.

(** ** PhysicsEngine.gaussianElimination, on arrays in memory *)

(** The solver receives references to the arrays [A] and [b] of its caller.
    To state what it does to them, arrays are objects in a store: an array
    of numbers, or an array of references to arrays (the rows of a
    matrix).  The address of an object is its index in the store. *)
Module Mem.

Inductive obj : Type :=
| Numbers (xs : list float)
| Rows (rs : list nat).

Abbreviation t := (list obj) (only parsing).

(** A computation on the store; the store is threaded through a throw. *)
Definition M (A : Type) : Type := t -> t * Js.completion A.

Definition ret {A} (a : A) : M A := fun m => (m, Js.Normal a).

Definition bind {A B} (c : M A) (k : A -> M B) : M B :=
  fun m => match c m with
           | (m', Js.Normal a) => k a m'
           | (m', Js.TypeError) => (m', Js.TypeError)
           end.

Definition throw {A} : M A := fun m => (m, Js.TypeError).

(** [new Array(...)], [[...]]: a fresh object. *)
Definition alloc (o : obj) : M nat := fun m => (m ++ [o], Js.Normal (length m)).

(** [xs.length] of an array of numbers. *)
Definition lengthOf (a : nat) : M nat :=
  fun m => match m !! a with
           | Some (Numbers xs) => (m, Js.Normal (length xs))
           | _ => (m, Js.TypeError)
           end.

(** [rows[k]], about to be indexed: [undefined] throws. *)
Definition rowAt (a k : nat) : M nat :=
  fun m => match m !! a with
           | Some (Rows rs) =>
               match rs !! k with
               | Some r => (m, Js.Normal r)
               | None => (m, Js.TypeError)
               end
           | _ => (m, Js.TypeError)
           end.

(** [rows[k] = r]. *)
Definition setRow (a k r : nat) : M unit :=
  fun m => match m !! a with
           | Some (Rows rs) => (<[a := Rows (<[k := r]> rs)]> m, Js.Normal tt)
           | _ => (m, Js.TypeError)
           end.

(** [xs[j]] read as a number. *)
Definition numAt (a j : nat) : M float :=
  fun m => match m !! a with
           | Some (Numbers xs) => (m, Js.Normal (Js.get xs j))
           | _ => (m, Js.TypeError)
           end.

(** [xs[j] = v]. *)
Definition setNum (a j : nat) (v : float) : M unit :=
  fun m => match m !! a with
           | Some (Numbers xs) => (<[a := Numbers (Js.set xs j v)]> m, Js.Normal tt)
           | _ => (m, Js.TypeError)
           end.

(** The whole contents of an array, for [[...row]] and [A.map]. *)
Definition numbersOf (a : nat) : M (list float) :=
  fun m => match m !! a with
           | Some (Numbers xs) => (m, Js.Normal xs)
           | _ => (m, Js.TypeError)
           end.

Definition rowsOf (a : nat) : M (list nat) :=
  fun m => match m !! a with
           | Some (Rows rs) => (m, Js.Normal rs)
           | _ => (m, Js.TypeError)
           end.

End Mem.

Notation "x <~ c ;; k" := (Mem.bind c (fun x => k))
  (at level 100, c at next level, right associativity).

Module GaussInPlace.
Import Mem.

(** [for (const i of idx) body(i)]. *)
Fixpoint forEach (idx : list nat) (body : nat -> M unit) : M unit :=
  match idx with
  | [] => ret tt
  | i :: idx' => _ <~ body i ;; forEach idx' body
  end.

(** [A.map((row, i) => [...row, b[i]])]: a fresh row for each row of [A],
    from the index [i] on. *)
Fixpoint copyRows (rows : list nat) (b i : nat) : M (list nat) :=
  match rows with
  | [] => ret []
  | r :: rows' =>
      xs <~ numbersOf r ;;
      bi <~ numAt b i ;;
      r' <~ alloc (Numbers (xs ++ [bi])) ;;
      rest <~ copyRows rows' b (S i) ;;
      ret (r' :: rest)
  end.

Definition augment (A b : nat) : M nat :=
  rows <~ rowsOf A ;;
  rows' <~ copyRows rows b 0 ;;
  alloc (Rows rows').

Fixpoint findPivot (aug i : nat) (ks : list nat) (maxRow : nat) : M nat :=
  match ks with
  | [] => ret maxRow
  | k :: ks' =>
      rk <~ rowAt aug k ;;
      vk <~ numAt rk i ;;
      rm <~ rowAt aug maxRow ;;
      vm <~ numAt rm i ;;
      findPivot aug i ks' (if Js.gt (Js.Math_abs vk) (Js.Math_abs vm) then k else maxRow)
  end.

(** [[aug[i], aug[maxRow]] = [aug[maxRow], aug[i]]], the rows existing (see
    [Gauss.swapRows]). *)
Definition swapRows (aug i maxRow : nat) : M unit :=
  ri <~ rowAt aug i ;;
  rm <~ rowAt aug maxRow ;;
  _ <~ setRow aug i rm ;;
  setRow aug maxRow ri.

(** [aug[k][j] -= factor * aug[i][j]]. *)
Definition eliminateEntry (aug i k : nat) (factor : float) (j : nat) : M unit :=
  rk <~ rowAt aug k ;;
  akj <~ numAt rk j ;;
  ri <~ rowAt aug i ;;
  aij <~ numAt ri j ;;
  setNum rk j (akj - factor * aij)%float.

Definition eliminateRow (aug i n k : nat) : M unit :=
  rk <~ rowAt aug k ;;
  aki <~ numAt rk i ;;
  ri <~ rowAt aug i ;;
  aii <~ numAt ri i ;;
  let factor := (aki / aii)%float in
  forEach (seq i (S n - i)) (eliminateEntry aug i k factor).

Definition forwardStep (aug n i : nat) : M unit :=
  maxRow <~ findPivot aug i (seq (S i) (n - S i)) i ;;
  _ <~ swapRows aug i maxRow ;;
  ri <~ rowAt aug i ;;
  p <~ numAt ri i ;;
  if Js.lt (Js.Math_abs p) Gauss.tolerance then ret tt
  else forEach (seq (S i) (n - S i)) (eliminateRow aug i n).

(** [x[i] -= aug[i][j] * x[j]]. *)
Definition substituteEntry (aug x i j : nat) : M unit :=
  xi <~ numAt x i ;;
  ri <~ rowAt aug i ;;
  aij <~ numAt ri j ;;
  xj <~ numAt x j ;;
  setNum x i (xi - aij * xj)%float.

Definition backStep (aug x n i : nat) : M unit :=
  ri <~ rowAt aug i ;;
  d <~ numAt ri i ;;
  if Js.lt (Js.Math_abs d) Gauss.tolerance then setNum x i 0%float
  else
    ri <~ rowAt aug i ;;
    ain <~ numAt ri n ;;
    _ <~ setNum x i ain ;;
    _ <~ forEach (seq (S i) (n - S i)) (substituteEntry aug x i) ;;
    xi <~ numAt x i ;;
    ri <~ rowAt aug i ;;
    aii <~ numAt ri i ;;
    setNum x i (xi / aii)%float.

(** [gaussianElimination(A, b)] on the addresses of [A] and [b]; the
    result is the address of [x], or [None] for [null]. *)
Definition gaussianElimination (A b : nat) : M (option nat) :=
  n <~ lengthOf b ;;
  if Nat.eqb n 0 then ret None
  else
    aug <~ augment A b ;;
    _ <~ forEach (seq 0 n) (forwardStep aug n) ;;
    x <~ alloc (Numbers (replicate n 0%float)) ;;
    _ <~ forEach (rev (seq 0 n)) (backStep aug x n) ;;
    ret (Some x).

End GaussInPlace.

(** The system of [gauss_2x2] in memory: the rows at 0 and 1, [A] at 2 and
    [b] at 3.  The solver leaves them alone and puts [x] at 7. *)
Example gauss_2x2_in_place :
  let m := [Mem.Numbers [2; 1]; Mem.Numbers [1; 3]; Mem.Rows [0; 1]%nat; Mem.Numbers [3; 5]]%float in
  let (m', r) := GaussInPlace.gaussianElimination 2 3 m in
  r = Js.Normal (Some 7) /\ take 4 m' = m /\
  m' !! 7 = Some (Mem.Numbers [0.80000000000000004; 1.3999999999999999]%float).
Proof. vm_compute. repeat split. Qed.

(** *** The solver writes only to the arrays it allocates *)

Section Frame.
Import Mem.
Variable m0 : Mem.t.

(** The objects of [m0] are still there, unchanged. *)
Definition framed (m : Mem.t) : Prop := take (length m0) m = m0.

(** [aug] is an array of rows allocated after [m0], and so are its rows. *)
Definition fresh (aug : nat) (m : Mem.t) : Prop :=
  length m0 <= aug /\
  exists rs, m !! aug = Some (Rows rs) /\ Forall (fun r => length m0 <= r) rs.

Definition inv (aug : nat) (m : Mem.t) : Prop := framed m /\ fresh aug m.

(** [c] keeps the invariant, and its result satisfies [Q]. *)
Definition safe {A} (aug : nat) (c : M A) (Q : A -> Prop) : Prop :=
  forall m, inv aug m ->
    inv aug (c m).1 /\ forall a, (c m).2 = Js.Normal a -> Q a.

Lemma framed_length m : framed m -> length m0 <= length m.
Proof.
  unfold framed; intros H. rewrite <- H at 1. rewrite length_take; lia.
Qed.

Lemma framed_insert m a o : framed m -> length m0 <= a -> framed (<[a := o]> m).
Proof.
  unfold framed; intros H Ha. now rewrite take_insert_ge.
Qed.

Lemma framed_app m o : framed m -> framed (m ++ [o]).
Proof.
  unfold framed; intros H. rewrite take_app_le; [exact H|now apply framed_length].
Qed.

Lemma safe_ret {A} aug (a : A) (Q : A -> Prop) : Q a -> safe aug (ret a) Q.
Proof. intros HQ m Hm; split; [exact Hm|]. now intros ? [= <-]. Qed.

Lemma safe_bind {A B} aug (c : M A) (k : A -> M B) (Q : A -> Prop) (R : B -> Prop) :
  safe aug c Q -> (forall a, Q a -> safe aug (k a) R) -> safe aug (bind c k) R.
Proof.
  intros Hc Hk m Hm; unfold bind.
  destruct (Hc m Hm) as [Hinv HQ]. destruct (c m) as [m' [a|]]; cbn in *.
  - apply (Hk a (HQ a eq_refl) m' Hinv).
  - split; [exact Hinv|discriminate].
Qed.

Lemma safe_weaken {A} aug (c : M A) (Q R : A -> Prop) :
  safe aug c Q -> (forall a, Q a -> R a) -> safe aug c R.
Proof. intros Hc HQR m Hm; destruct (Hc m Hm); split; eauto. Qed.

Lemma safe_forEach aug idx body :
  (forall i, safe aug (body i) (fun _ => True)) ->
  safe aug (GaussInPlace.forEach idx body) (fun _ => True).
Proof.
  intros Hb; induction idx as [|i idx IH]; cbn.
  - now apply safe_ret.
  - eapply safe_bind; [apply Hb|]. intros _ _; exact IH.
Qed.

Lemma safe_rowAt aug k : safe aug (rowAt aug k) (fun r => length m0 <= r).
Proof.
  intros m Hm; unfold rowAt.
  destruct Hm as (Hf & Ha & rs & Hrs & Hfresh). rewrite Hrs.
  destruct (rs !! k) as [r|] eqn:Hr; cbn; (split; [repeat split; eauto|]).
  - intros ? [= <-]. eapply Forall_lookup in Hfresh; eauto.
  - discriminate.
Qed.

Lemma safe_numAt aug a j : safe aug (numAt a j) (fun _ => True).
Proof.
  intros m Hm; unfold numAt. destruct (m !! a) as [[xs|rs]|]; cbn; auto.
Qed.

Lemma safe_setNum aug a j v :
  length m0 <= a -> safe aug (setNum a j v) (fun _ => True).
Proof.
  intros Ha m Hm; unfold setNum.
  destruct (m !! a) as [[xs|rs]|] eqn:Hma; cbn; auto.
  split; [|trivial].
  destruct Hm as (Hf & Haug & rs & Hrs & Hfresh).
  split; [now apply framed_insert|]. split; [exact Haug|].
  exists rs; split; [|exact Hfresh].
  rewrite list_lookup_insert_ne; [exact Hrs|]. intros ->; congruence.
Qed.

Lemma safe_setRow aug k r :
  length m0 <= r -> safe aug (setRow aug k r) (fun _ => True).
Proof.
  intros Hr m Hm; unfold setRow.
  destruct Hm as (Hf & Haug & rs & Hrs & Hfresh). rewrite Hrs; cbn.
  split; [|trivial].
  split; [now apply framed_insert|]. split; [exact Haug|].
  exists (<[k := r]> rs); split.
  - apply list_lookup_insert_eq. now apply lookup_lt_Some in Hrs.
  - apply Forall_insert; assumption.
Qed.

Lemma safe_alloc aug o : safe aug (alloc o) (fun a => length m0 <= a).
Proof.
  intros m Hm; unfold alloc; cbn.
  destruct Hm as (Hf & Haug & rs & Hrs & Hfresh).
  split; [|intros ? [= <-]; now apply framed_length].
  split; [now apply framed_app|]. split; [exact Haug|].
  exists rs; split; [|exact Hfresh]. now apply lookup_app_l_Some.
Qed.

(** Steps through a sequence of array accesses. *)
Ltac safe_step :=
  first
    [ apply safe_ret; trivial
    | eapply safe_bind;
      [ first [ apply safe_rowAt | apply safe_numAt
              | apply safe_setNum; assumption | apply safe_setRow; assumption
              | apply safe_alloc ]
      | intros ? ? ] ].

Lemma safe_findPivot aug i ks : forall maxRow,
  safe aug (GaussInPlace.findPivot aug i ks maxRow) (fun _ => True).
Proof.
  induction ks as [|k ks IH]; intros maxRow; cbn; [now apply safe_ret|].
  do 4 safe_step. apply IH.
Qed.

Lemma safe_swapRows aug i maxRow :
  safe aug (GaussInPlace.swapRows aug i maxRow) (fun _ => True).
Proof.
  unfold GaussInPlace.swapRows. do 3 safe_step. now apply safe_setRow.
Qed.

Lemma safe_eliminateRow aug i n k :
  safe aug (GaussInPlace.eliminateRow aug i n k) (fun _ => True).
Proof.
  unfold GaussInPlace.eliminateRow. do 4 safe_step.
  apply safe_forEach; intros j. unfold GaussInPlace.eliminateEntry.
  do 4 safe_step. now apply safe_setNum.
Qed.

Lemma safe_forwardStep aug n i :
  safe aug (GaussInPlace.forwardStep aug n i) (fun _ => True).
Proof.
  unfold GaussInPlace.forwardStep.
  eapply safe_bind; [apply safe_findPivot|intros maxRow _].
  eapply safe_bind; [apply safe_swapRows|intros _ _].
  do 2 safe_step.
  destruct (Js.lt _ _); [now apply safe_ret|].
  apply safe_forEach; intros k; apply safe_eliminateRow.
Qed.

Lemma safe_backStep aug x n i :
  length m0 <= x -> safe aug (GaussInPlace.backStep aug x n i) (fun _ => True).
Proof.
  intros Hx; unfold GaussInPlace.backStep. do 2 safe_step.
  destruct (Js.lt _ _); [now apply safe_setNum|].
  do 3 safe_step.
  eapply safe_bind.
  { apply safe_forEach; intros j. unfold GaussInPlace.substituteEntry.
    do 4 safe_step. now apply safe_setNum. }
  intros _ _. do 3 safe_step. now apply safe_setNum.
Qed.

(** Copying the rows of [A] allocates, and writes nothing else. *)
Lemma copyRows_framed rows b : forall i m m' r,
  framed m -> GaussInPlace.copyRows rows b i m = (m', r) ->
  framed m' /\ forall rs, r = Js.Normal rs -> Forall (fun r => length m0 <= r) rs.
Proof.
  induction rows as [|r0 rows IH]; intros i m m' r Hm; cbn.
  - intros [= <- <-]. split; [exact Hm|]. intros ? [= <-]; constructor.
  - unfold bind, numbersOf, numAt, alloc.
    destruct (m !! r0) as [[xs|?]|]; try (intros [= <- <-]; split; [exact Hm|discriminate]).
    destruct (m !! b) as [[ys|?]|]; try (intros [= <- <-]; split; [exact Hm|discriminate]).
    destruct (GaussInPlace.copyRows rows b (S i) (m ++ [Numbers (xs ++ [Js.get ys i])]))
      as [m1 r1] eqn:E.
    apply IH in E as [Hf Hrs]; [|now apply framed_app].
    destruct r1 as [rs|]; cbn; intros [= <- <-]; (split; [exact Hf|]); [|discriminate].
    intros ? [= <-]. constructor; [now apply framed_length|now apply Hrs].
Qed.

Lemma augment_inv A b m m' r :
  framed m -> GaussInPlace.augment A b m = (m', r) ->
  framed m' /\ forall aug, r = Js.Normal aug -> inv aug m'.
Proof.
  intros Hm; unfold GaussInPlace.augment, bind, rowsOf.
  destruct (m !! A) as [[?|rows]|]; try (intros [= <- <-]; split; [exact Hm|discriminate]).
  destruct (GaussInPlace.copyRows rows b 0 m) as [m1 r1] eqn:E.
  apply copyRows_framed in E as [Hf Hrs]; [|exact Hm].
  destruct r1 as [rs|]; [|intros [= <- <-]; split; [exact Hf|discriminate]].
  unfold alloc; intros [= <- <-].
  split; [now apply framed_app|]. intros ? [= <-].
  split; [now apply framed_app|]. split; [now apply framed_length|].
  exists rs; split; [|now apply Hrs].
  rewrite lookup_app_r by lia. now rewrite Nat.sub_diag.
Qed.

Lemma gaussianElimination_framed A b m :
  framed m -> framed (GaussInPlace.gaussianElimination A b m).1.
Proof.
  intros Hm; unfold GaussInPlace.gaussianElimination.
  unfold bind at 1, lengthOf.
  destruct (m !! b) as [[xs|?]|]; cbn; try exact Hm.
  destruct (Nat.eqb (length xs) 0); [exact Hm|].
  unfold bind at 1.
  destruct (GaussInPlace.augment A b m) as [m1 r1] eqn:E.
  apply augment_inv in E as [Hf Hinv]; [|exact Hm].
  destruct r1 as [aug|]; [|exact Hf].
  specialize (Hinv aug eq_refl).
  assert (Hrest : safe aug
            (_ <~ GaussInPlace.forEach (seq 0 (length xs))
                    (GaussInPlace.forwardStep aug (length xs)) ;;
             x <~ alloc (Numbers (replicate (length xs) 0%float)) ;;
             _ <~ GaussInPlace.forEach (rev (seq 0 (length xs)))
                    (GaussInPlace.backStep aug x (length xs)) ;;
             ret (Some x)) (fun _ => True)).
  { eapply safe_bind; [apply safe_forEach; intros i; apply safe_forwardStep|intros _ _].
    eapply safe_bind; [apply safe_alloc|intros x Hx].
    eapply safe_bind; [apply safe_forEach; intros i; now apply safe_backStep|intros _ _].
    now apply safe_ret. }
  apply (Hrest m1 Hinv).
Qed.

End Frame.

(** C10.  Whatever the store and the addresses of [A] and [b], every
    object that was in the store before the call, [A], its rows and [b]
    among them, is the same after it, whether the call returns or throws:
    the elimination works on the fresh augmented rows, and the solution is a
    fresh array. *)
Theorem gaussianElimination_leaves_inputs (m : Mem.t) (A b : nat) :
  take (length m) (GaussInPlace.gaussianElimination A b m).1 = m.
Proof.
  apply (gaussianElimination_framed m A b m). unfold framed. apply firstn_all.
Qed.

Section Refinement.
Import Mem.

(** *** The two models of the solver agree *)

Lemma swap_lookup {A} (l : list A) i j a b k :
  l !! i = Some a -> l !! j = Some b ->
  (<[j := a]> (<[i := b]> l)) !! k
  = if decide (k = j) then Some a else if decide (k = i) then Some b else l !! k.
Proof.
  intros Hi Hj.
  apply lookup_lt_Some in Hi as Hi'. apply lookup_lt_Some in Hj as Hj'.
  destruct (decide (k = j)) as [->|Hkj].
  - apply list_lookup_insert_eq. now rewrite length_insert.
  - rewrite list_lookup_insert_ne by congruence.
    destruct (decide (k = i)) as [->|Hki].
    + now apply list_lookup_insert_eq.
    + now rewrite list_lookup_insert_ne by congruence.
Qed.

Lemma set_set (xs : list float) i a b : Js.set (Js.set xs i a) i b = Js.set xs i b.
Proof.
  revert xs; induction i as [|i IH]; intros [|h t]; cbn; try reflexivity.
  - f_equal. apply (IH []).
  - f_equal. apply IH.
Qed.

(** The array of rows at [aug] holds the matrix [M]: row [k] of [M] is the
    contents of a number array of its own, and [x], when there is one, is
    an array apart from them all. *)
Record holds (aug : nat) (M : list (list float)) (rs : list nat) (m : Mem.t) : Prop := {
  holds_aug : m !! aug = Some (Rows rs);
  holds_length : length rs = length M;
  holds_apart : forall k r, rs !! k = Some r -> r <> aug;
  holds_distinct : forall k1 k2 r, rs !! k1 = Some r -> rs !! k2 = Some r -> k1 = k2;
  holds_rows : forall k r, rs !! k = Some r ->
                 exists row, M !! k = Some row /\ m !! r = Some (Numbers row)
}.

Lemma holds_row aug M rs m k row :
  holds aug M rs m -> M !! k = Some row ->
  exists r, rs !! k = Some r /\ rowAt aug k m = (m, Js.Normal r) /\
            m !! r = Some (Numbers row).
Proof.
  intros H Hk. assert (Hlt : k < length rs).
  { rewrite (holds_length _ _ _ _ H). now apply lookup_lt_Some in Hk. }
  destruct (lookup_lt_is_Some_2 rs k Hlt) as [r Hr]. exists r; split; [exact Hr|].
  destruct (holds_rows _ _ _ _ H k r Hr) as (row' & Hrow' & Hm).
  assert (row' = row) as -> by congruence.
  split; [|exact Hm]. unfold rowAt. now rewrite (holds_aug _ _ _ _ H), Hr.
Qed.

Lemma holds_no_row aug M rs m k :
  holds aug M rs m -> M !! k = None -> rowAt aug k m = (m, Js.TypeError).
Proof.
  intros H Hk. unfold rowAt. rewrite (holds_aug _ _ _ _ H).
  apply lookup_ge_None in Hk. rewrite lookup_ge_None_2; [reflexivity|].
  rewrite (holds_length _ _ _ _ H); lia.
Qed.

Lemma numAt_Numbers m r row j :
  m !! r = Some (Numbers row) -> numAt r j m = (m, Js.Normal (Js.get row j)).
Proof. intros H; unfold numAt; now rewrite H. Qed.

(** Writing a row in place is writing the row of the matrix. *)
Lemma holds_setNum aug M rs m k r row j v :
  holds aug M rs m -> rs !! k = Some r -> M !! k = Some row ->
  setNum r j v m = (<[r := Numbers (Js.set row j v)]> m, Js.Normal tt) /\
  holds aug (<[k := Js.set row j v]> M) rs (<[r := Numbers (Js.set row j v)]> m).
Proof.
  intros H Hr Hk.
  destruct (holds_rows _ _ _ _ H k r Hr) as (row' & Hrow' & Hm).
  assert (row' = row) as -> by congruence.
  split; [unfold setNum; now rewrite Hm|].
  assert (Hra : r <> aug) by (eapply holds_apart; eauto).
  constructor.
  - rewrite list_lookup_insert_ne by assumption. apply (holds_aug _ _ _ _ H).
  - rewrite length_insert. apply (holds_length _ _ _ _ H).
  - apply (holds_apart _ _ _ _ H).
  - apply (holds_distinct _ _ _ _ H).
  - intros k' r' Hr'. destruct (decide (k' = k)) as [->|Hne].
    + assert (r' = r) as -> by congruence. eexists; split.
      * apply list_lookup_insert_eq. now apply lookup_lt_Some in Hk.
      * apply list_lookup_insert_eq. now apply lookup_lt_Some in Hm.
    + destruct (holds_rows _ _ _ _ H k' r' Hr') as (row' & Hrow'' & Hm').
      exists row'; split; [now rewrite list_lookup_insert_ne by congruence|].
      rewrite list_lookup_insert_ne; [exact Hm'|].
      intros <-. apply Hne. eapply holds_distinct; eauto.
Qed.

Lemma findPivot_refines aug M rs m i ks : forall maxRow,
  holds aug M rs m ->
  GaussInPlace.findPivot aug i ks maxRow m = (m, Gauss.findPivot M i ks maxRow).
Proof.
  induction ks as [|k ks IH]; intros maxRow H; cbn; [reflexivity|].
  unfold bind, Js.row.
  destruct (M !! k) as [rk|] eqn:Hk; [|now rewrite (holds_no_row _ _ _ _ _ H Hk)].
  destruct (holds_row _ _ _ _ _ _ H Hk) as (ak & _ & -> & Hak).
  rewrite (numAt_Numbers _ _ _ _ Hak).
  destruct (M !! maxRow) as [rm|] eqn:Hm; [|now rewrite (holds_no_row _ _ _ _ _ H Hm)].
  destruct (holds_row _ _ _ _ _ _ H Hm) as (am & _ & -> & Ham).
  rewrite (numAt_Numbers _ _ _ _ Ham).
  cbn. apply IH, H.
Qed.

(** The outcome of a computation in memory refines that of a computation
    on values: both throw, or both return and [Q] relates what they leave. *)
Definition refines {A B} (hr : Mem.t * Js.completion A) (pr : Js.completion B)
    (Q : Mem.t -> A -> B -> Prop) : Prop :=
  match hr, pr with
  | (m', Js.Normal a), Js.Normal b => Q m' a b
  | (_, Js.TypeError), Js.TypeError => True
  | _, _ => False
  end.

Lemma swapRows_refines aug M rs m i maxRow :
  holds aug M rs m ->
  refines (GaussInPlace.swapRows aug i maxRow m) (Gauss.swapRows M i maxRow)
          (fun m' _ M' => exists rs', holds aug M' rs' m').
Proof.
  intros H; unfold GaussInPlace.swapRows, Gauss.swapRows, bind, Js.bind, Js.row.
  destruct (M !! i) as [ri|] eqn:Hi; [|now rewrite (holds_no_row _ _ _ _ _ H Hi)].
  destruct (holds_row _ _ _ _ _ _ H Hi) as (ai & Hai & -> & Hmi).
  destruct (M !! maxRow) as [rm|] eqn:Hm; [|now rewrite (holds_no_row _ _ _ _ _ H Hm)].
  destruct (holds_row _ _ _ _ _ _ H Hm) as (am & Ham & -> & Hmm).
  unfold setRow. rewrite (holds_aug _ _ _ _ H).
  assert (Haug : aug < length m) by (eapply lookup_lt_Some, holds_aug; eauto).
  rewrite list_lookup_insert_eq by assumption. rewrite list_insert_insert_eq.
  cbn. exists (<[maxRow := ai]> (<[i := am]> rs)).
  constructor.
  - now apply list_lookup_insert_eq.
  - rewrite !length_insert. apply (holds_length _ _ _ _ H).
  - intros k r. rewrite (swap_lookup rs i maxRow ai am k Hai Ham).
    repeat case_decide; [intros [= <-]..|]; eauto using holds_apart.
  - intros k1 k2 r. rewrite !(swap_lookup rs i maxRow ai am _ Hai Ham).
    pose proof (holds_distinct _ _ _ _ H) as Hd.
    repeat case_decide; subst; intros Hl1 Hl2; simplify_eq; try reflexivity;
      repeat match goal with
             | Ha : rs !! ?a = Some ?v, Hb : rs !! ?b = Some ?v |- _ =>
                 assert (a = b) by (exact (Hd _ _ _ Ha Hb)); clear Hb; subst
             end; congruence.
  - intros k r. rewrite (swap_lookup rs i maxRow ai am k Hai Ham).
    rewrite (swap_lookup M i maxRow ri rm k Hi Hm).
    assert (Hkeep : forall a, a <> aug ->
              <[aug := Rows (<[maxRow := ai]> (<[i := am]> rs))]> m !! a = m !! a)
      by (intros a Ha; now apply list_lookup_insert_ne).
    repeat case_decide; intros Hr.
    + injection Hr as <-. exists ri; split; [reflexivity|].
      rewrite Hkeep; [exact Hmi|eapply holds_apart; eauto].
    + injection Hr as <-. exists rm; split; [reflexivity|].
      rewrite Hkeep; [exact Hmm|eapply holds_apart; eauto].
    + destruct (holds_rows _ _ _ _ H k r Hr) as (row & Hrow & Hmr).
      exists row; split; [exact Hrow|].
      rewrite Hkeep; [exact Hmr|eapply holds_apart; eauto].
Qed.

Lemma eliminateEntries_refines aug i k factor ri js : forall M rs m rk,
  holds aug M rs m -> M !! k = Some rk -> M !! i = Some ri -> k <> i ->
  exists m',
    GaussInPlace.forEach js (GaussInPlace.eliminateEntry aug i k factor) m
      = (m', Js.Normal tt) /\
    holds aug (<[k := Gauss.eliminateRow factor ri js rk]> M) rs m'.
Proof.
  induction js as [|j js IH]; intros M rs m rk H Hk Hi Hne; cbn.
  - exists m; split; [reflexivity|]. now rewrite list_insert_id.
  - unfold bind at 1. unfold GaussInPlace.eliminateEntry at 1. unfold bind.
    destruct (holds_row _ _ _ _ _ _ H Hk) as (ak & Hak & -> & Hmk).
    rewrite (numAt_Numbers _ _ _ _ Hmk).
    destruct (holds_row _ _ _ _ _ _ H Hi) as (ai & Hai & -> & Hmi).
    rewrite (numAt_Numbers _ _ _ _ Hmi).
    destruct (holds_setNum aug M rs m k ak rk j
                (Js.get rk j - factor * Js.get ri j)%float H Hak Hk) as [-> H'].
    destruct (IH _ _ _ (Js.set rk j (Js.get rk j - factor * Js.get ri j)%float) H')
      as (m' & Hrun & Hm').
    { apply list_lookup_insert_eq. now apply lookup_lt_Some in Hk. }
    { now rewrite list_lookup_insert_ne. }
    { exact Hne. }
    exists m'; split; [exact Hrun|]. now rewrite list_insert_insert_eq in Hm'.
Qed.

Lemma eliminateRow_refines aug i n k M rs m rk ri :
  holds aug M rs m -> M !! k = Some rk -> M !! i = Some ri -> k <> i ->
  exists m',
    GaussInPlace.eliminateRow aug i n k m = (m', Js.Normal tt) /\
    holds aug
      (<[k := Gauss.eliminateRow (Js.get rk i / Js.get ri i)%float ri (seq i (S n - i)) rk]> M)
      rs m'.
Proof.
  intros H Hk Hi Hne. unfold GaussInPlace.eliminateRow, bind.
  destruct (holds_row _ _ _ _ _ _ H Hk) as (ak & Hak & -> & Hmk).
  rewrite (numAt_Numbers _ _ _ _ Hmk).
  destruct (holds_row _ _ _ _ _ _ H Hi) as (ai & Hai & -> & Hmi).
  rewrite (numAt_Numbers _ _ _ _ Hmi).
  now apply eliminateEntries_refines.
Qed.

Lemma eliminate_refines aug i n ks : forall M rs m,
  holds aug M rs m -> Forall (fun k => k <> i) ks ->
  refines (GaussInPlace.forEach ks (GaussInPlace.eliminateRow aug i n) m)
          (Gauss.eliminate M i n ks)
          (fun m' _ M' => holds aug M' rs m').
Proof.
  induction ks as [|k ks IH]; intros M rs m H Hks; cbn; [exact H|].
  apply Forall_cons in Hks as [Hk Hks].
  unfold bind at 1, Js.bind, Js.row.
  destruct (M !! k) as [rk|] eqn:HMk.
  - destruct (M !! i) as [ri|] eqn:HMi.
    + destruct (eliminateRow_refines aug i n k M rs m rk ri H HMk HMi Hk) as (m' & -> & H').
      apply IH; assumption.
    + unfold GaussInPlace.eliminateRow, bind.
      destruct (holds_row _ _ _ _ _ _ H HMk) as (ak & Hak & -> & Hmk).
      rewrite (numAt_Numbers _ _ _ _ Hmk).
      now rewrite (holds_no_row _ _ _ _ _ H HMi).
  - unfold GaussInPlace.eliminateRow, bind.
    now rewrite (holds_no_row _ _ _ _ _ H HMk).
Qed.

Lemma forwardStep_refines aug n i M rs m :
  holds aug M rs m ->
  refines (GaussInPlace.forwardStep aug n i m) (Gauss.forwardStep n M i)
          (fun m' _ M' => exists rs', holds aug M' rs' m').
Proof.
  intros H. unfold GaussInPlace.forwardStep, Gauss.forwardStep, Gauss.pivoted.
  unfold bind at 1. rewrite (findPivot_refines _ _ _ _ _ _ _ H).
  destruct (Gauss.findPivot M i _ i) as [maxRow|]; cbn; [|trivial].
  unfold bind at 1.
  pose proof (swapRows_refines aug M rs m i maxRow H) as Hswap.
  destruct (GaussInPlace.swapRows aug i maxRow m) as [m1 [[]|]],
           (Gauss.swapRows M i maxRow) as [M1|]; cbn in Hswap |- *; try contradiction;
    [|trivial].
  destruct Hswap as (rs1 & H1).
  unfold bind, Gauss.pivotOf, Js.bind, Js.row.
  destruct (M1 !! i) as [ri|] eqn:Hi; [|now rewrite (holds_no_row _ _ _ _ _ H1 Hi)].
  destruct (holds_row _ _ _ _ _ _ H1 Hi) as (ai & Hai & -> & Hmi).
  rewrite (numAt_Numbers _ _ _ _ Hmi).
  match goal with |- context [if ?c then _ else _] => destruct c end;
    cbn; [now exists rs1|].
  pose proof (eliminate_refines aug i n (seq (S i) (n - S i)) M1 rs1 m1 H1) as He.
  unfold refines in *.
  destruct (GaussInPlace.forEach _ _ m1) as [m2 [[]|]],
           (Gauss.eliminate M1 i n _) as [M2|];
    try (apply He; apply Forall_forall; intros k Hk; apply elem_of_seq in Hk; lia).
  exists rs1. apply He. apply Forall_forall; intros k Hk; apply elem_of_seq in Hk; lia.
Qed.

Lemma forwardLoop_refines aug n idx : forall M rs m,
  holds aug M rs m ->
  refines (GaussInPlace.forEach idx (GaussInPlace.forwardStep aug n) m)
          (Gauss.forwardLoop n M idx)
          (fun m' _ M' => exists rs', holds aug M' rs' m').
Proof.
  induction idx as [|i idx IH]; intros M rs m H; cbn; [now exists rs|].
  unfold bind at 1, Js.bind.
  pose proof (forwardStep_refines aug n i M rs m H) as Hs. unfold refines in Hs.
  destruct (GaussInPlace.forwardStep aug n i m) as [m1 [[]|]],
           (Gauss.forwardStep n M i) as [M1|]; try contradiction; [|trivial].
  destruct Hs as (rs1 & H1). now apply (IH M1 rs1).
Qed.

(** The solution array [x], apart from the matrix. *)
Record solving (aug ax : nat) (M : list (list float)) (xv : list float)
    (rs : list nat) (m : Mem.t) : Prop := {
  solving_holds : holds aug M rs m;
  solving_x : m !! ax = Some (Numbers xv);
  solving_apart : forall k r, rs !! k = Some r -> r <> ax
}.

Lemma solving_setNum aug ax M xv rs m i v :
  solving aug ax M xv rs m ->
  setNum ax i v m = (<[ax := Numbers (Js.set xv i v)]> m, Js.Normal tt) /\
  solving aug ax M (Js.set xv i v) rs (<[ax := Numbers (Js.set xv i v)]> m).
Proof.
  intros [H Hx Hap]. split; [unfold setNum; now rewrite Hx|].
  assert (Hne : ax <> aug).
  { intros ->. rewrite (holds_aug _ _ _ _ H) in Hx. discriminate. }
  constructor; [constructor| |exact Hap].
  - rewrite list_lookup_insert_ne by assumption. apply (holds_aug _ _ _ _ H).
  - apply (holds_length _ _ _ _ H).
  - apply (holds_apart _ _ _ _ H).
  - apply (holds_distinct _ _ _ _ H).
  - intros k r Hr. destruct (holds_rows _ _ _ _ H k r Hr) as (row & Hrow & Hm).
    exists row; split; [exact Hrow|].
    rewrite list_lookup_insert_ne; [exact Hm|]. intros <-. now apply (Hap k ax).
  - apply list_lookup_insert_eq. now apply lookup_lt_Some in Hx.
Qed.

Lemma substituteEntries_refines aug ax i ri xv js : forall M rs m acc,
  solving aug ax M (Js.set xv i acc) rs m -> M !! i = Some ri ->
  Forall (fun j => j <> i) js ->
  exists m',
    GaussInPlace.forEach js (GaussInPlace.substituteEntry aug ax i) m = (m', Js.Normal tt) /\
    solving aug ax M (Js.set xv i (Gauss.substitute ri xv js acc)) rs m'.
Proof.
  induction js as [|j js IH]; intros M rs m acc H Hi Hjs; cbn.
  - exists m; split; [reflexivity|exact H].
  - apply Forall_cons in Hjs as [Hj Hjs].
    unfold bind at 1. unfold GaussInPlace.substituteEntry at 1. unfold bind.
    rewrite (numAt_Numbers _ _ _ i (solving_x _ _ _ _ _ _ H)).
    destruct (holds_row _ _ _ _ _ _ (solving_holds _ _ _ _ _ _ H) Hi) as (ai & Hai & -> & Hmi).
    rewrite (numAt_Numbers _ _ _ _ Hmi).
    rewrite (numAt_Numbers _ _ _ j (solving_x _ _ _ _ _ _ H)).
    rewrite get_set_eq, get_set_ne by congruence.
    destruct (solving_setNum _ _ _ _ _ _ i (acc - Js.get ri j * Js.get xv j)%float H)
      as [Hset H'].
    rewrite set_set in Hset, H'. rewrite Hset.
    destruct (IH _ _ _ _ H' Hi Hjs) as (m' & Hrun & Hm').
    exists m'; split; [exact Hrun|exact Hm'].
Qed.

Lemma backStep_refines aug ax n i M xv rs m :
  solving aug ax M xv rs m ->
  refines (GaussInPlace.backStep aug ax n i m) (Gauss.backStep n M xv i)
          (fun m' _ xv' => solving aug ax M xv' rs m').
Proof.
  intros H. unfold GaussInPlace.backStep, Gauss.backStep, bind, Js.bind, Js.row.
  pose proof (solving_holds _ _ _ _ _ _ H) as Hh.
  destruct (M !! i) as [ri|] eqn:Hi; [|now rewrite (holds_no_row _ _ _ _ _ Hh Hi)].
  destruct (holds_row _ _ _ _ _ _ Hh Hi) as (ai & Hai & -> & Hmi).
  rewrite (numAt_Numbers _ _ _ _ Hmi).
  match goal with |- context [if ?c then _ else _] => destruct c end.
  - destruct (solving_setNum _ _ _ _ _ _ i 0%float H) as [-> H']. exact H'.
  - cbn. destruct (holds_row _ _ _ _ _ _ Hh Hi) as (ai' & Hai' & -> & _).
    assert (ai' = ai) as -> by congruence.
    rewrite (numAt_Numbers _ _ _ _ Hmi).
    destruct (solving_setNum _ _ _ _ _ _ i (Js.get ri n) H) as [-> H1].
    destruct (substituteEntries_refines aug ax i ri xv (seq (S i) (n - S i)) M rs _
                (Js.get ri n) H1 Hi) as (m2 & -> & H2).
    { apply Forall_forall; intros j Hj; apply elem_of_seq in Hj; lia. }
    rewrite (numAt_Numbers _ _ _ i (solving_x _ _ _ _ _ _ H2)).
    destruct (holds_row _ _ _ _ _ _ (solving_holds _ _ _ _ _ _ H2) Hi)
      as (ai2 & Hai2 & -> & Hmi2).
    rewrite (numAt_Numbers _ _ _ _ Hmi2).
    rewrite get_set_eq.
    destruct (solving_setNum _ _ _ _ _ _ i
                (Gauss.substitute ri xv (seq (S i) (n - S i)) (Js.get ri n) / Js.get ri i)%float
                H2) as [Hset H3].
    rewrite set_set in Hset, H3. rewrite Hset. exact H3.
Qed.

Lemma backLoop_refines aug ax n idx : forall M xv rs m,
  solving aug ax M xv rs m ->
  refines (GaussInPlace.forEach idx (GaussInPlace.backStep aug ax n) m)
          (Gauss.backLoop n M xv idx)
          (fun m' _ xv' => solving aug ax M xv' rs m').
Proof.
  induction idx as [|i idx IH]; intros M xv rs m H; cbn; [exact H|].
  unfold bind at 1, Js.bind.
  pose proof (backStep_refines aug ax n i M xv rs m H) as Hs. unfold refines in Hs.
  destruct (GaussInPlace.backStep aug ax n i m) as [m1 [[]|]],
           (Gauss.backStep n M xv i) as [xv1|]; try contradiction; [|trivial].
  now apply IH.
Qed.

(** The rows [A.map] builds from the index [i] on. *)
Definition augmentFrom (bv : list float) (i : nat) (Av : list (list float))
  : list (list float) :=
  imap (fun j row => row ++ [Js.get bv (i + j)]) Av.

Lemma augmentFrom_cons bv i row Av :
  augmentFrom bv i (row :: Av) = (row ++ [Js.get bv i]) :: augmentFrom bv (S i) Av.
Proof.
  unfold augmentFrom; cbn. rewrite Nat.add_0_r. f_equal.
  apply imap_ext; intros j r _; cbn. do 3 f_equal; lia.
Qed.

Lemma augment_augmentFrom Av bv : Gauss.augment Av bv = augmentFrom bv 0 Av.
Proof. reflexivity. Qed.

Lemma copyRows_spec b bv rows : forall Av i m,
  Forall2 (fun r row => m !! r = Some (Numbers row)) rows Av ->
  m !! b = Some (Numbers bv) ->
  GaussInPlace.copyRows rows b i m
  = (m ++ map Numbers (augmentFrom bv i Av), Js.Normal (seq (length m) (length rows))).
Proof.
  induction rows as [|r rows IH]; intros Av i m HA Hb.
  - apply Forall2_nil_inv_l in HA as ->. cbn. now rewrite app_nil_r.
  - apply Forall2_cons_inv_l in HA as (row & Av' & Hr & HA & ->).
    cbn [GaussInPlace.copyRows]. unfold bind, numbersOf, numAt, alloc.
    rewrite Hr, Hb.
    assert (Hr' : r < length m) by now apply lookup_lt_Some in Hr.
    assert (Hb' : b < length m) by now apply lookup_lt_Some in Hb.
    rewrite (IH Av' (S i)).
    + rewrite augmentFrom_cons, length_app; cbn.
      rewrite <- app_assoc, Nat.add_1_r. reflexivity.
    + eapply Forall2_impl; [exact HA|]. intros r0 row0 H0; cbn in H0 |- *.
      rewrite lookup_app_l; [exact H0|]. now apply lookup_lt_Some in H0.
    + now rewrite lookup_app_l.
Qed.

Lemma augment_holds A b m rsA Av bv :
  m !! A = Some (Rows rsA) ->
  Forall2 (fun r row => m !! r = Some (Numbers row)) rsA Av ->
  m !! b = Some (Numbers bv) ->
  exists m' aug rs,
    GaussInPlace.augment A b m = (m', Js.Normal aug) /\
    holds aug (Gauss.augment Av bv) rs m' /\
    (forall k r, rs !! k = Some r -> r < length m') /\ aug < length m'.
Proof.
  intros HA Hrows Hb. unfold GaussInPlace.augment, bind, rowsOf. rewrite HA.
  rewrite (copyRows_spec b bv rsA Av 0 m Hrows Hb). unfold alloc.
  assert (Hlen : length rsA = length Av) by now apply Forall2_length in Hrows.
  set (new := augmentFrom bv 0 Av).
  assert (Hnew : length new = length Av) by apply length_imap.
  eexists _, _, (seq (length m) (length rsA)). split; [reflexivity|].
  rewrite augment_augmentFrom; fold new.
  rewrite !length_app, length_map, Hnew; cbn.
  split; [constructor|split].
  - rewrite lookup_app_r; rewrite length_app, length_map, Hnew; [|lia].
    now rewrite Nat.sub_diag.
  - rewrite length_seq; lia.
  - intros k r Hk. apply lookup_seq in Hk. lia.
  - intros k1 k2 r H1 H2. apply lookup_seq in H1, H2. lia.
  - intros k r Hk. apply lookup_seq in Hk as [-> Hk].
    destruct (lookup_lt_is_Some_2 new k) as [row Hrow]; [lia|].
    exists row; split; [exact Hrow|].
    rewrite lookup_app_l by (rewrite length_app, length_map; lia).
    rewrite lookup_app_r by lia.
    replace (length m + k - length m) with k by lia.
    change (map Numbers new !! k) with ((Numbers <$> new) !! k).
    now rewrite list_lookup_fmap, Hrow.
  - intros k r Hk. apply lookup_seq in Hk. lia.
  - lia.
Qed.

(** The two results: both [null], or an address that holds the vector. *)
Definition sameResult (m' : Mem.t) (r : option nat) (x : option (list float)) : Prop :=
  match r, x with
  | None, None => True
  | Some ax, Some xv => m' !! ax = Some (Numbers xv)
  | _, _ => False
  end.

(** X1.  On a store in which [A] is an array of rows of numbers and [b] an
    array of numbers, the solver in memory and the solver on values have
    the same outcome: both throw, both return [null], or the array returned
    in memory holds the vector returned on values. *)
Theorem in_place_refines (m : Mem.t) (A b : nat) rsA Av bv :
  m !! A = Some (Rows rsA) ->
  Forall2 (fun r row => m !! r = Some (Numbers row)) rsA Av ->
  m !! b = Some (Numbers bv) ->
  refines (GaussInPlace.gaussianElimination A b m) (Gauss.gaussianElimination Av bv)
          sameResult.
Proof.
  intros HA Hrows Hb.
  unfold GaussInPlace.gaussianElimination, Gauss.gaussianElimination.
  unfold bind at 1, lengthOf. rewrite Hb.
  destruct (Nat.eqb (length bv) 0); [exact I|].
  unfold bind at 1.
  destruct (augment_holds A b m rsA Av bv HA Hrows Hb)
    as (m1 & aug & rs & -> & Hh & Hlt & Haug).
  unfold bind at 1, Js.bind at 1, Gauss.forwardElimination.
  pose proof (forwardLoop_refines aug (length bv) (seq 0 (length bv)) _ rs m1 Hh) as Hf.
  unfold refines in Hf.
  destruct (GaussInPlace.forEach _ _ m1) as [m2 [[]|]],
           (Gauss.forwardLoop _ _ _) as [M2|]; try contradiction; [|exact I].
  destruct Hf as (rs2 & H2).
  unfold bind at 1, alloc.
  assert (Hsolving : solving aug (length m2) M2 (replicate (length bv) 0%float) rs2
                       (m2 ++ [Numbers (replicate (length bv) 0%float)])).
  { pose proof (holds_aug _ _ _ _ H2) as Ha2.
    constructor; [constructor| |].
    - rewrite lookup_app_l; [exact Ha2|now apply lookup_lt_Some in Ha2].
    - apply (holds_length _ _ _ _ H2).
    - apply (holds_apart _ _ _ _ H2).
    - apply (holds_distinct _ _ _ _ H2).
    - intros k r Hr. destruct (holds_rows _ _ _ _ H2 k r Hr) as (row & Hrow & Hm).
      exists row; split; [exact Hrow|].
      rewrite lookup_app_l; [exact Hm|now apply lookup_lt_Some in Hm].
    - rewrite lookup_app_r by lia. now rewrite Nat.sub_diag.
    - intros k r Hr. destruct (holds_rows _ _ _ _ H2 k r Hr) as (row & _ & Hm).
      apply lookup_lt_Some in Hm. lia. }
  unfold bind at 1, Js.bind, Gauss.backSubstitution.
  pose proof (backLoop_refines aug (length m2) (length bv) (rev (seq 0 (length bv)))
                _ _ _ _ Hsolving) as Hbk.
  unfold refines in Hbk.
  destruct (GaussInPlace.forEach _ _ _) as [m3 [[]|]],
           (Gauss.backLoop _ _ _ _) as [xv|]; try contradiction; [|exact I].
  cbn. apply (solving_x _ _ _ _ _ _ Hbk).
Qed.

End Refinement.

(** The theorem at the system of [gauss_2x2_in_place]. *)
Lemma in_place_refines_witness :
  refines
    (GaussInPlace.gaussianElimination 2 3
       [Mem.Numbers [2; 1]; Mem.Numbers [1; 3]; Mem.Rows [0; 1]%nat; Mem.Numbers [3; 5]]%float)
    (Gauss.gaussianElimination [[2; 1]; [1; 3]]%float [3; 5]%float)
    sameResult.
Proof.
  apply (in_place_refines _ 2 3 [0; 1]); [reflexivity| |reflexivity].
  repeat constructor.
Defined.

(** ** More on the comparisons of binary64 numbers *)

Lemma ltb_irrefl x : PrimFloat.ltb x x = false.
Proof.
  destruct (PrimFloat.ltb x x) eqn:H; [|reflexivity].
  now rewrite (ltb_asym x x H) in H.
Qed.

Lemma ltb_nan_l x : PrimFloat.ltb nan x = false.
Proof. rewrite ltb_spec; reflexivity. Qed.

(** [Math.max(c, x)] is never below [c]. *)
Lemma Math_max_ge_l c x : Js.lt (Js.Math_max c x) c = false.
Proof.
  unfold Js.lt, Js.Math_max.
  destruct (_ || _); [apply ltb_nan_l|].
  destruct (PrimFloat.ltb c x) eqn:Hcx; [now apply ltb_asym|].
  destruct (PrimFloat.ltb x c) eqn:Hxc; [apply ltb_irrefl|].
  destruct (PrimFloat.get_sign c); [assumption|apply ltb_irrefl].
Qed.

Lemma Math_max_nan_r c x : PrimFloat.is_nan x = true -> Js.Math_max c x = nan.
Proof. intros H; unfold Js.Math_max; now rewrite H, orb_true_r. Qed.

Lemma SFcompare_refl_finite s m e :
  SFcompare (S754_finite s m e) (S754_finite s m e) = Some Eq.
Proof.
  cbn. destruct s; rewrite Z.compare_refl.
  - change (PosDef.Pos.compare_cont Eq m m) with (Pos.compare m m).
    now rewrite Pos.compare_refl.
  - change (PosDef.Pos.compare_cont Eq m m) with (Pos.compare m m).
    now rewrite Pos.compare_refl.
Qed.

(** Only [NaN] differs from itself. *)
Lemma is_nan_spec x : PrimFloat.is_nan x = true <-> Prim2SF x = S754_nan.
Proof.
  unfold PrimFloat.is_nan. rewrite negb_true_iff, FloatAxioms.eqb_spec. unfold SFeqb.
  destruct (Prim2SF x) as [[]|[]| |s m e]; try (cbn; split; congruence).
  rewrite SFcompare_refl_finite. split; congruence.
Qed.

Lemma ltb_not_nan_l x y : PrimFloat.ltb x y = true -> PrimFloat.is_nan x = false.
Proof.
  intros H. destruct (PrimFloat.is_nan x) eqn:Hn; [|reflexivity].
  apply is_nan_spec in Hn. rewrite ltb_spec, Hn in H. discriminate H.
Qed.

Lemma ltb_not_nan_r x y : PrimFloat.ltb x y = true -> PrimFloat.is_nan y = false.
Proof.
  intros H. destruct (PrimFloat.is_nan y) eqn:Hn; [|reflexivity].
  apply is_nan_spec in Hn. rewrite ltb_spec, Hn in H.
  unfold SFltb in H. destruct (Prim2SF x) as [[]|[]| |]; discriminate H.
Qed.

(** A number whose sign bit, when it has one, is clear. *)
Definition SFnonneg (x : spec_float) : Prop :=
  match x with
  | S754_zero s | S754_infinity s | S754_finite s _ _ => s = false
  | S754_nan => True
  end.

Lemma binary_round_aux_sign s m e l :
  match binary_round_aux prec emax s m e l with
  | S754_zero s' | S754_infinity s' | S754_finite s' _ _ => s' = s
  | S754_nan => True
  end.
Proof.
  unfold binary_round_aux.
  destruct (shr_fexp prec emax m e l) as [mrs' e'].
  destruct (shr_fexp prec emax _ e' loc_Exact) as [mrs'' e''].
  destruct (shr_m mrs''); [reflexivity| |exact I].
  destruct (Z.leb e'' (emax - prec)); reflexivity.
Qed.

Lemma SFdiv_nonneg x y : SFnonneg x -> SFnonneg y -> SFnonneg (SF64div x y).
Proof.
  unfold SF64div, SFdiv.
  destruct x as [sx|sx| |sx mx ex], y as [sy|sy| |sy my ey]; cbn; try tauto;
    try (intros -> ->; reflexivity).
  intros -> ->.
  destruct (SFdiv_core_binary prec emax (Z.pos mx) ex (Z.pos my) ey) as [[mz ez] lz].
  pose proof (binary_round_aux_sign (xorb false false) mz ez lz) as H.
  destruct (binary_round_aux prec emax (xorb false false) mz ez lz); exact H.
Qed.

Lemma SFnonneg_not_lt_0 x : SFnonneg x -> SFltb x (S754_zero false) = false.
Proof. destruct x as [s|s| |s m e]; cbn; try reflexivity; intros ->; reflexivity. Qed.

Lemma gt_0_nonneg x : Js.gt x 0 = true -> SFnonneg (Prim2SF x).
Proof.
  unfold Js.gt. rewrite ltb_spec. change (Prim2SF 0) with (S754_zero false).
  destruct (Prim2SF x) as [s|s| |s m e]; cbn; try discriminate; try tauto;
    destruct s; cbn; congruence.
Qed.

(** The quotient of a positive number by a positive number is not negative. *)
Lemma div_pos_not_neg x y :
  Js.gt x 0 = true -> Js.gt y 0 = true -> Js.lt (x / y) 0 = false.
Proof.
  intros Hx Hy. unfold Js.lt. rewrite ltb_spec, div_spec.
  apply SFnonneg_not_lt_0, SFdiv_nonneg; now apply gt_0_nonneg.
Qed.

Lemma Math_min_not_below x c b :
  Js.lt x b = false -> Js.lt c b = false -> Js.lt (Js.Math_min x c) b = false.
Proof.
  unfold Js.lt, Js.Math_min; intros Hx Hc.
  destruct (_ || _); [apply ltb_nan_l|].
  repeat match goal with |- context [if ?t then _ else _] => destruct t end; assumption.
Qed.

Lemma Math_max_not_above c x b :
  Js.gt c b = false -> Js.gt x b = false -> Js.gt (Js.Math_max c x) b = false.
Proof.
  unfold Js.gt, Js.Math_max; intros Hc Hx.
  destruct (_ || _); [apply ltb_nan_r|].
  repeat match goal with |- context [if ?t then _ else _] => destruct t end; assumption.
Qed.


(** ** The index of a node in the system *)

Lemma indexOfNode_indexNodes ns : forall next key i,
  PhysicsEngine.indexOfNode (PhysicsEngine.indexNodes ns next) key = Some i ->
  key <> PhysicsEngine.groundNode /\
  exists j node, ns !! j = Some (key, node) /\ i = next + rank ns j.
Proof.
  induction ns as [|[k n] ns IH]; intros next key i H; [discriminate|].
  cbn [PhysicsEngine.indexNodes] in H.
  destruct (Z.eqb_spec k PhysicsEngine.groundNode) as [Hg|Hg].
  - destruct (IH _ _ _ H) as (Hne & j & node & Hj & ->).
    split; [exact Hne|]. exists (S j), node. split; [exact Hj|].
    rewrite rank_cons; cbn [fst]. apply Z.eqb_eq in Hg. now rewrite Hg.
  - cbn [PhysicsEngine.indexOfNode] in H.
    destruct (Z.eqb_spec k key) as [<-|Hk].
    + injection H as <-. split; [exact Hg|]. exists 0, n. split; [reflexivity|].
      unfold rank; cbn. lia.
    + destruct (IH _ _ _ H) as (Hne & j & node & Hj & ->).
      split; [exact Hne|]. exists (S j), node. split; [exact Hj|].
      rewrite rank_cons; cbn [fst]. apply Z.eqb_neq in Hg. rewrite Hg. lia.
Qed.

Lemma indexNodes_lookup ns : forall next j key node,
  NoDup (map fst ns) -> ns !! j = Some (key, node) -> key <> PhysicsEngine.groundNode ->
  PhysicsEngine.indexOfNode (PhysicsEngine.indexNodes ns next) key = Some (next + rank ns j).
Proof.
  induction ns as [|[k n] ns IH]; intros next j key node Hnd Hj Hne; [discriminate|].
  cbn in Hnd. apply NoDup_cons in Hnd as [Hk Hnd].
  cbn [PhysicsEngine.indexNodes].
  destruct j as [|j].
  - injection Hj as -> ->. apply Z.eqb_neq in Hne. rewrite Hne.
    cbn [PhysicsEngine.indexOfNode]. rewrite Z.eqb_refl. unfold rank; cbn. f_equal; lia.
  - cbn in Hj. rewrite rank_cons; cbn [fst].
    assert (Hkk : k <> key).
    { intros ->. apply Hk. apply list_elem_of_In, in_map_iff.
      exists (key, node). split; [reflexivity|].
      apply list_elem_of_In. eapply list_elem_of_lookup_2; eauto. }
    destruct (Z.eqb_spec k PhysicsEngine.groundNode) as [Hg|Hg].
    + rewrite (IH next j key node Hnd Hj Hne). reflexivity.
    + cbn [PhysicsEngine.indexOfNode]. apply Z.eqb_neq in Hkk. rewrite Hkk.
      rewrite (IH (S next) j key node Hnd Hj Hne). f_equal; lia.
Qed.

Lemma rank_S ns j p :
  ns !! j = Some p ->
  rank ns (S j) = rank ns j + (if Z.eqb (fst p) PhysicsEngine.groundNode then 0 else 1).
Proof.
  intros Hj. unfold rank. rewrite (take_S_r ns j p Hj), filter_app, length_app.
  f_equal. rewrite filter_cons, filter_nil.
  destruct (Z.eqb_spec (fst p) PhysicsEngine.groundNode); destruct (decide _);
    try reflexivity; contradiction.
Qed.

Lemma rank_mono ns j1 j2 : j1 <= j2 -> rank ns j1 <= rank ns j2.
Proof.
  induction 1 as [|j2 _ IH]; [lia|].
  destruct (ns !! j2) as [p|] eqn:Hp.
  - rewrite (rank_S ns j2 p Hp). lia.
  - apply lookup_ge_None in Hp. unfold rank in IH |- *.
    rewrite (take_ge ns (S j2)) by lia. rewrite (take_ge ns j2) in IH by lia. exact IH.
Qed.

Lemma rank_lt ns j1 j2 key node :
  ns !! j1 = Some (key, node) -> key <> PhysicsEngine.groundNode -> j1 < j2 ->
  rank ns j1 < rank ns j2.
Proof.
  intros Hj Hne Hlt.
  pose proof (rank_mono ns (S j1) j2 Hlt) as Hm.
  rewrite (rank_S ns j1 _ Hj) in Hm; cbn [fst] in Hm.
  apply Z.eqb_neq in Hne. rewrite Hne in Hm. lia.
Qed.

(** X2.  The index [buildConductanceMatrix] stamps a node at is the index
    [solveCircuit] reads its voltage from, and it addresses an entry of the
    system. *)
Theorem node_indices_address_the_system (objs : list Device.t) (e : PhysicsEngine.t) :
  let ns := PhysicsEngine.nodes e in
  let m := PhysicsEngine.indexNodes ns 0 in
  (forall key i, PhysicsEngine.indexOfNode m key = Some i ->
     i < PhysicsEngine.matrixSize objs e /\ key <> PhysicsEngine.groundNode /\
     exists j node, ns !! j = Some (key, node) /\ i = rank ns j) /\
  (forall k1 k2 i, PhysicsEngine.indexOfNode m k1 = Some i ->
     PhysicsEngine.indexOfNode m k2 = Some i -> k1 = k2) /\
  (NoDup (map fst ns) ->
   forall j key node, ns !! j = Some (key, node) -> key <> PhysicsEngine.groundNode ->
     PhysicsEngine.indexOfNode m key = Some (rank ns j)).
Proof.
  intros ns m. split; [|split].
  - intros key i H. destruct (indexOfNode_indexNodes ns 0 key i H) as (Hne & j & node & Hj & ->).
    split; [|split; [exact Hne|eauto]].
    unfold PhysicsEngine.matrixSize; fold ns.
    pose proof (rank_le ns j). apply lookup_lt_Some in Hj. cbn; lia.
  - intros k1 k2 i H1 H2.
    destruct (indexOfNode_indexNodes ns 0 k1 i H1) as (Hne1 & j1 & n1 & Hj1 & ->).
    destruct (indexOfNode_indexNodes ns 0 k2 _ H2) as (Hne2 & j2 & n2 & Hj2 & Heq).
    cbn in Heq.
    destruct (Nat.lt_trichotomy j1 j2) as [Hlt|[->|Hlt]].
    + pose proof (rank_lt ns j1 j2 k1 n1 Hj1 Hne1 Hlt). lia.
    + congruence.
    + pose proof (rank_lt ns j2 j1 k2 n2 Hj2 Hne2 Hlt). lia.
  - intros Hnd j key node Hj Hne. apply (indexNodes_lookup ns 0 j key node Hnd Hj Hne).
Qed.

(** ** The conductance matrix is symmetric *)

(** [G[i][j]], when the entry exists. *)
Definition entry (G : list (list float)) (i j : nat) : option float :=
  r ← G !! i; r !! j.

Definition symmetric (G : list (list float)) : Prop :=
  forall i j, entry G i j = entry G j i.

Lemma entry_alter f a b G i j :
  entry (alter (alter f b) a G) i j
  = if decide (i = a /\ j = b) then f <$> entry G i j else entry G i j.
Proof.
  unfold entry.
  destruct (decide (i = a)) as [->|Hia].
  - rewrite list_lookup_alter_eq. destruct (G !! a) as [r|]; cbn.
    + destruct (decide (j = b)) as [->|Hjb].
      * rewrite list_lookup_alter_eq. now rewrite decide_True by auto.
      * rewrite list_lookup_alter_ne by congruence. now rewrite decide_False by tauto.
    + now destruct (decide _).
  - rewrite list_lookup_alter_ne by congruence. now rewrite decide_False by tauto.
Qed.

Lemma stamp_symmetric Math_exp m Gb o :
  symmetric (fst Gb) -> symmetric (fst (PhysicsEngine.stamp Math_exp m Gb o)).
Proof.
  destruct Gb as [G b]; unfold PhysicsEngine.stamp; cbn [fst].
  destruct (Component.terminals o) as [|t0 [|t1 [|? ?]]]; try (intros H; exact H).
  cbv zeta; cbn [fst]. intros HG.
  destruct (Js.gt _ 0); [|exact HG].
  destruct (PhysicsEngine.indexOfNode m (Terminal.node t0)) as [n1|]; [|exact HG].
  destruct (PhysicsEngine.indexOfNode m (Terminal.node t1)) as [n2|]; [|exact HG].
  intros i j. unfold PhysicsEngine.addAt, PhysicsEngine.subAt.
  rewrite !entry_alter, (HG i j).
  repeat case_decide; try reflexivity; exfalso; intuition congruence.
Qed.

(** X3.  The matrix [solveCircuit] assembles is symmetric. *)
Theorem conductance_matrix_symmetric (Math_exp : float -> float) (objs : list Device.t)
    (e : PhysicsEngine.t) (G : list (list float)) (b : list float) :
  PhysicsEngine.assemble Math_exp objs e = Some (G, b) ->
  forall i j, entry G i j = entry G j i.
Proof.
  unfold PhysicsEngine.assemble.
  destruct (Nat.eqb _ 0); [discriminate|]. intros [= H].
  assert (Hs : symmetric (fst (G, b))); [|exact Hs].
  rewrite <- H. unfold PhysicsEngine.buildConductanceMatrix.
  set (n := PhysicsEngine.matrixSize objs e).
  assert (H0 : symmetric (fst (replicate n (replicate n 0%float), replicate n 0%float))).
  { intros i j; unfold entry; cbn.
    destruct (decide (i < n)) as [Hi|Hi], (decide (j < n)) as [Hj|Hj].
    - rewrite !lookup_replicate_2 by assumption. cbn. now rewrite !lookup_replicate_2.
    - rewrite (lookup_replicate_2 n _ i) by assumption. cbn.
      rewrite (lookup_ge_None_2 (replicate n 0%float) j) by (rewrite length_replicate; lia).
      now rewrite (lookup_ge_None_2 _ j) by (rewrite length_replicate; lia).
    - rewrite (lookup_replicate_2 n _ j) by assumption. cbn.
      rewrite (lookup_ge_None_2 (replicate n 0%float) i) by (rewrite length_replicate; lia).
      now rewrite (lookup_ge_None_2 _ i) by (rewrite length_replicate; lia).
    - now rewrite !(lookup_ge_None_2 (replicate n (replicate n 0%float)))
        by (rewrite length_replicate; lia). }
  revert H0. generalize (replicate n (replicate n 0%float), replicate n 0%float).
  generalize (PhysicsEngine.listed objs (PhysicsEngine.components e)) as os.
  induction os as [|o os IH]; intros Gb H0; cbn; [exact H0|].
  apply IH, stamp_symmetric, H0.
Qed.

Lemma conductance_matrix_symmetric_witness :
  entry [[10; -10; 0]; [-10; 10; 0]; [0; 0; 0]]%float 0 1
  = entry [[10; -10; 0]; [-10; 10; 0]; [0; 0; 0]]%float 1 0.
Proof.
  exact (conductance_matrix_symmetric (fun _ => 1%float) (Heap.objects (fst loneBattery))
           loneBatteryEngine _ _ loneBattery_system 0 1).
Defined.

(** ** What a solve leaves alone *)

Lemma withNodes_nodes e : PhysicsEngine.withNodes e (PhysicsEngine.nodes e) = e.
Proof. now destruct e. Qed.

Lemma applySolution_keys x ns : forall k,
  map (fun p => (fst p, PhysicsEngine.id (snd p))) (PhysicsEngine.applySolution x ns k)
  = map (fun p => (fst p, PhysicsEngine.id (snd p))) ns.
Proof.
  induction ns as [|[nodeId node] ns IH]; intros k; [reflexivity|].
  rewrite applySolution_cons.
  destruct (_ && _); cbn [map fst snd PhysicsEngine.id]; now rewrite IH.
Qed.

Lemma applySolution_ground x ns : forall k j node,
  ns !! j = Some (PhysicsEngine.groundNode, node) ->
  PhysicsEngine.applySolution x ns k !! j = Some (PhysicsEngine.groundNode, node).
Proof.
  induction ns as [|[nodeId n0] ns IH]; intros k j node Hj; [discriminate|].
  rewrite applySolution_cons.
  destruct j as [|j].
  - injection Hj as -> ->. reflexivity.
  - cbn in Hj. destruct (_ && _); cbn; now apply IH.
Qed.

(** [solveCircuit] never throws: the system it assembles is square. *)
Lemma solveCircuit_returns Math_exp h e :
  exists h' ns,
    PhysicsEngine.solveCircuit Math_exp h e = Js.Normal (h', PhysicsEngine.withNodes e ns) /\
    map (fun p => (fst p, PhysicsEngine.id (snd p))) ns
    = map (fun p => (fst p, PhysicsEngine.id (snd p))) (PhysicsEngine.nodes e) /\
    forall j node, PhysicsEngine.nodes e !! j = Some (PhysicsEngine.groundNode, node) ->
                   ns !! j = Some (PhysicsEngine.groundNode, node).
Proof.
  unfold PhysicsEngine.solveCircuit.
  destruct (PhysicsEngine.assemble Math_exp (Heap.objects h) e) as [[G b]|] eqn:Ha.
  - destruct (assemble_square _ _ _ _ Ha) as (Hpos & HG & _ & Hb); cbn in HG, Hb.
    destruct (gaussianElimination_some G b) as (x & -> & _); [lia..|]. cbn.
    eexists _, _. split; [reflexivity|]. split; [apply applySolution_keys|].
    intros j node; apply applySolution_ground.
  - exists h, (PhysicsEngine.nodes e). rewrite withNodes_nodes. auto.
Qed.

Lemma simulate_returns Math_exp dt h e :
  exists h' ns,
    PhysicsEngine.simulate Math_exp dt h e = Js.Normal (h', PhysicsEngine.withNodes e ns).
Proof.
  unfold PhysicsEngine.simulate. destruct (Nat.eqb _ 0).
  - exists h, (PhysicsEngine.nodes e). now rewrite withNodes_nodes.
  - destruct (solveCircuit_returns Math_exp h e) as (h' & ns & H & _). eauto.
Qed.

Lemma stepLoop_never_throws Math_exp fuel : forall h e,
  PhysicsEngine.stepLoop Math_exp fuel h e <> Some Js.TypeError.
Proof.
  induction fuel as [|fuel IH]; intros h e; cbn [PhysicsEngine.stepLoop];
    destruct (Js.ge (PhysicsEngine.accumulator e) PhysicsEngine.timeStep); try discriminate.
  destruct (simulate_returns Math_exp PhysicsEngine.timeStep h e) as (h' & ns & ->).
  apply IH.
Qed.

(** X4.  [PhysicsEngine.update] never throws; and a call that leaves less than
    one time step in the accumulator returns without any solve. *)
Theorem update_never_throws (Math_exp : float -> float) (fuel : nat) (deltaTime : float)
    (h : Heap.t) (e : PhysicsEngine.t) :
  PhysicsEngine.update Math_exp fuel deltaTime h e <> Some Js.TypeError /\
  let e1 := PhysicsEngine.withAccumulator e (PhysicsEngine.accumulator e + deltaTime)%float in
  (Js.ge (PhysicsEngine.accumulator e1) PhysicsEngine.timeStep = false ->
   PhysicsEngine.update Math_exp fuel deltaTime h e
   = Some (Js.Normal (PhysicsEngine.updateComponents Math_exp deltaTime h e1, e1))).
Proof.
  split.
  - unfold PhysicsEngine.update, PhysicsEngine.solvePhase.
    pose proof (stepLoop_never_throws Math_exp fuel h
                  (PhysicsEngine.withAccumulator e
                     (PhysicsEngine.accumulator e + deltaTime)%float)) as H.
    destruct (PhysicsEngine.stepLoop _ _ _ _) as [[[h' e']|]|]; congruence.
  - intros e1 Hlt. unfold PhysicsEngine.update, PhysicsEngine.solvePhase. fold e1.
    destruct fuel; cbn [PhysicsEngine.stepLoop]; now rewrite Hlt.
Qed.

(** ** What a tick leaves on the terminals *)

(** The node id and the voltage of every terminal of the component at [c]. *)
Definition pinsIn (objs : list Device.t) (c : nat) : list (Z * float) :=
  match objs !! c with
  | Some o => map (fun t => (Terminal.node t, Terminal.voltage t)) (Component.terminals o)
  | None => []
  end.

Definition pins {F} (o : Component.t F) : list (Z * float) :=
  map (fun t => (Terminal.node t, Terminal.voltage t)) (Component.terminals o).

Lemma alter_current_pins v i (ts : list Terminal.t) :
  map (fun t => (Terminal.node t, Terminal.voltage t))
      (alter (fun t => Terminal.withCurrent t v) i ts)
  = map (fun t => (Terminal.node t, Terminal.voltage t)) ts.
Proof.
  revert ts; induction i as [|i IH]; intros [|t ts]; cbn; try reflexivity.
  now rewrite IH.
Qed.

Lemma alterTerminal_current_pins v c i objs k :
  pinsIn (Heap.alterTerminal (fun t => Terminal.withCurrent t v) c i objs) k = pinsIn objs k.
Proof.
  unfold pinsIn, Heap.alterTerminal.
  destruct (decide (c = k)) as [->|Hne].
  - rewrite list_lookup_alter_eq.
    destruct (objs !! k) as [o|]; cbn; [|reflexivity].
    apply alter_current_pins.
  - now rewrite list_lookup_alter_ne.
Qed.

Lemma wireCurrents_pins h w k :
  pinsIn (Heap.objects (PhysicsEngine.wireCurrents h w)) k = pinsIn (Heap.objects h) k.
Proof.
  unfold PhysicsEngine.wireCurrents.
  destruct (Heap.startOf (Heap.objects h) w), (Heap.endOf (Heap.objects h) w);
    try reflexivity.
  cbn. now rewrite !alterTerminal_current_pins.
Qed.

Lemma updateComponentValues_pins x h e k :
  pinsIn (Heap.objects (PhysicsEngine.updateComponentValues x h e)) k
  = pinsIn (Heap.objects h) k.
Proof.
  unfold PhysicsEngine.updateComponentValues.
  generalize (PhysicsEngine.wires e) as ws; intros ws; revert h.
  induction ws as [|w ws IH]; intros h; cbn; [reflexivity|].
  now rewrite IH, wireCurrents_pins.
Qed.

Lemma solveCircuit_pins Math_exp h e h' e' k :
  PhysicsEngine.solveCircuit Math_exp h e = Js.Normal (h', e') ->
  pinsIn (Heap.objects h') k = pinsIn (Heap.objects h) k.
Proof.
  unfold PhysicsEngine.solveCircuit.
  destruct (PhysicsEngine.assemble _ _ _) as [[G b]|]; [|now intros [= <- <-]].
  destruct (Gauss.gaussianElimination G b) as [[x|]|]; cbn; try discriminate.
  - intros [= <- <-]. apply (updateComponentValues_pins x).
  - now intros [= <- <-].
Qed.

(** The lists of the engine and the keys of its node map. *)
Definition sameCircuit (e e' : PhysicsEngine.t) : Prop :=
  PhysicsEngine.components e' = PhysicsEngine.components e /\
  PhysicsEngine.wires e' = PhysicsEngine.wires e /\
  map fst (PhysicsEngine.nodes e') = map fst (PhysicsEngine.nodes e).

Lemma keys_of_entries (ns ns' : list (Z * PhysicsEngine.CircuitNode)) :
  map (fun p => (fst p, PhysicsEngine.id (snd p))) ns'
  = map (fun p => (fst p, PhysicsEngine.id (snd p))) ns ->
  map fst ns' = map fst ns.
Proof.
  intros H. apply (f_equal (map fst)) in H. rewrite !map_map in H. exact H.
Qed.

Lemma simulate_sameCircuit Math_exp dt h e h' e' k :
  PhysicsEngine.simulate Math_exp dt h e = Js.Normal (h', e') ->
  pinsIn (Heap.objects h') k = pinsIn (Heap.objects h) k /\ sameCircuit e e' /\
  PhysicsEngine.accumulator e' = PhysicsEngine.accumulator e.
Proof.
  unfold PhysicsEngine.simulate. destruct (Nat.eqb _ 0).
  - intros [= <- <-]. repeat split.
  - intros H. split; [now apply (solveCircuit_pins _ _ _ _ _ k) in H|].
    destruct (solveCircuit_returns Math_exp h e) as (h1 & ns & H1 & Hk & _).
    rewrite H1 in H. injection H as <- <-. repeat split. cbn.
    now apply keys_of_entries.
Qed.

Lemma stepLoop_sameCircuit Math_exp fuel : forall h e h' e' k,
  PhysicsEngine.stepLoop Math_exp fuel h e = Some (Js.Normal (h', e')) ->
  pinsIn (Heap.objects h') k = pinsIn (Heap.objects h) k /\ sameCircuit e e'.
Proof.
  induction fuel as [|fuel IH]; intros h e h' e' k; cbn [PhysicsEngine.stepLoop];
    destruct (Js.ge (PhysicsEngine.accumulator e) PhysicsEngine.timeStep).
  - intros H; discriminate H.
  - intros [= <- <-]. repeat split.
  - destruct (PhysicsEngine.simulate Math_exp PhysicsEngine.timeStep h e) as [[h1 e1]|] eqn:Hs;
      [|intros H; discriminate H].
    intros H. apply (IH _ _ _ _ k) in H as (Hp & Hc1 & Hc2 & Hc3).
    destruct (simulate_sameCircuit _ _ _ _ _ _ k Hs) as (Hp' & (Hd1 & Hd2 & Hd3) & _).
    cbn in Hc1, Hc2, Hc3.
    split; [congruence|]. repeat split; congruence.
  - intros [= <- <-]. repeat split.
Qed.

Lemma setCurrents_pins ts current :
  map (fun t => (Terminal.node t, Terminal.voltage t)) (Component.setCurrents ts current)
  = map (fun t => (Terminal.node t, Terminal.voltage t)) ts.
Proof. destruct ts as [|? [|? [|? ?]]]; reflexivity. Qed.

(** No [update] of a component changes the node id or the voltage of one
    of its terminals. *)
Lemma Device_update_pins Math_exp dt (c : Device.t) :
  pins (Device.update Math_exp dt c) = pins c.
Proof.
  unfold Device.update, pins.
  destruct c as [[f|f|f|f|f|f] ts T mT b p]; cbn [Component.self];
    unfold Device.upcast, Battery.update, Resistor.update, LED.update, Capacitor.update,
      Switch.update, Motor.update;
    cbn -[Component.updateTemperature];
    try (destruct b; [reflexivity|]; cbn -[Component.updateTemperature]);
    rewrite ?setCurrents_pins, updateTemperature_terminals;
    try (repeat match goal with |- context [if ?t then _ else _] => destruct t end;
         reflexivity).
  all: cbn; unfold Capacitor.integrate; cbn;
    destruct ts as [|? [|? [|? ?]]]; try reflexivity;
    cbv zeta; repeat match goal with |- context [if ?t then _ else _] => destruct t end;
    reflexivity.
Qed.

Lemma updateComponents_pins Math_exp dt h e k :
  pinsIn (Heap.objects (PhysicsEngine.updateComponents Math_exp dt h e)) k
  = pinsIn (Heap.objects h) k.
Proof.
  unfold PhysicsEngine.updateComponents; cbn.
  generalize (PhysicsEngine.components e) as cs. generalize (Heap.objects h) as objs.
  intros objs cs; revert objs.
  induction cs as [|c cs IH]; intros objs; cbn; [reflexivity|].
  rewrite IH. unfold pinsIn.
  destruct (decide (c = k)) as [->|Hne].
  - rewrite list_lookup_alter_eq. destruct (objs !! k) as [o|]; cbn; [|reflexivity].
    apply Device_update_pins.
  - now rewrite list_lookup_alter_ne.
Qed.

(** X5.  Whatever the circuit and the time elapsed, a call of
    [PhysicsEngine.update] that returns leaves on every terminal of every
    component the node id and the voltage it had, and leaves the engine its
    components, its wires and the keys of its node map. *)
Theorem update_keeps_nodes_and_voltages (Math_exp : float -> float) (fuel : nat)
    (deltaTime : float) (h h' : Heap.t) (e e' : PhysicsEngine.t) :
  PhysicsEngine.update Math_exp fuel deltaTime h e = Some (Js.Normal (h', e')) ->
  (forall c, nodesOf h' c = nodesOf h c /\ voltagesOf h' c = voltagesOf h c) /\
  PhysicsEngine.components e' = PhysicsEngine.components e /\
  PhysicsEngine.wires e' = PhysicsEngine.wires e /\
  map fst (PhysicsEngine.nodes e') = map fst (PhysicsEngine.nodes e).
Proof.
  unfold PhysicsEngine.update, PhysicsEngine.solvePhase.
  destruct (PhysicsEngine.stepLoop _ _ _ _) as [[[h1 e1]|]|] eqn:Hs; try discriminate.
  intros [= <- <-]. split.
  - intros c.
    destruct (stepLoop_sameCircuit _ _ _ _ _ _ c Hs) as (Hp & _).
    pose proof (updateComponents_pins Math_exp deltaTime h1 e1 c) as Hu.
    rewrite Hp in Hu. unfold pinsIn in Hu. unfold nodesOf, voltagesOf.
    destruct (Heap.objects (PhysicsEngine.updateComponents Math_exp deltaTime h1 e1) !! c)
      as [o'|], (Heap.objects h !! c) as [o|].
    + apply (f_equal (map fst)) in Hu as Hn. apply (f_equal (map snd)) in Hu as Hv.
      rewrite !map_map in Hn, Hv. now split.
    + destruct (Component.terminals o'); [now split|discriminate].
    + destruct (Component.terminals o); [now split|discriminate].
    + now split.
  - destruct (stepLoop_sameCircuit _ _ _ _ _ _ 0 Hs) as (_ & H1 & H2 & H3).
    cbn in H1, H2, H3. auto.
Qed.

Lemma update_keeps_nodes_and_voltages_witness :
  exists h' e',
    PhysicsEngine.update (fun _ => 1%float) 5 0.001 (fst loneBattery) loneBatteryEngine
      = Some (Js.Normal (h', e')) /\
    nodesOf h' 0 = [5; 7]%Z /\ voltagesOf h' 0 = [0; 9]%float.
Proof.
  destruct (PhysicsEngine.update (fun _ => 1%float) 5 0.001 (fst loneBattery) loneBatteryEngine)
    as [[[h' e']|]|] eqn:H; [|vm_compute in H; discriminate H..].
  exists h', e'. split; [reflexivity|].
  destruct (update_keeps_nodes_and_voltages _ _ _ _ _ _ _ H) as (Hpins & _).
  destruct (Hpins 0) as [-> ->]. split; reflexivity.
Defined.

(** ** Time steps that are not numbers *)

Lemma add_nan_l x y : PrimFloat.is_nan x = true -> PrimFloat.is_nan (x + y) = true.
Proof.
  rewrite !is_nan_spec, add_spec. intros ->. reflexivity.
Qed.

Lemma add_nan_r x y : PrimFloat.is_nan y = true -> PrimFloat.is_nan (x + y) = true.
Proof.
  rewrite !is_nan_spec, add_spec. intros ->.
  destruct (Prim2SF x) as [| | |]; reflexivity.
Qed.

Lemma ge_nan_l x y : PrimFloat.is_nan x = true -> Js.ge x y = false.
Proof.
  rewrite is_nan_spec. unfold Js.ge. rewrite leb_spec. intros ->.
  unfold SFleb. destruct (Prim2SF y) as [| | |]; reflexivity.
Qed.

(** X6.  Once the accumulated time is [NaN], because a [deltaTime] was or
    because the accumulator already is, [update] runs no solve, and the
    accumulator is [NaN] afterwards: no later call solves either. *)
Theorem nan_time_stops_the_solver (Math_exp : float -> float) (fuel : nat) (deltaTime : float)
    (h : Heap.t) (e : PhysicsEngine.t) :
  PrimFloat.is_nan (PhysicsEngine.accumulator e) = true \/ PrimFloat.is_nan deltaTime = true ->
  let e' := PhysicsEngine.withAccumulator e (PhysicsEngine.accumulator e + deltaTime)%float in
  PhysicsEngine.solvePhase Math_exp fuel deltaTime h e = Some (Js.Normal (h, e')) /\
  PhysicsEngine.update Math_exp fuel deltaTime h e
  = Some (Js.Normal (PhysicsEngine.updateComponents Math_exp deltaTime h e', e')) /\
  PrimFloat.is_nan (PhysicsEngine.accumulator e') = true /\
  PhysicsEngine.nodes e' = PhysicsEngine.nodes e.
Proof.
  intros Hnan e'.
  assert (Hacc : PrimFloat.is_nan (PhysicsEngine.accumulator e') = true).
  { cbn. destruct Hnan; [now apply add_nan_l|now apply add_nan_r]. }
  assert (Hs : PhysicsEngine.solvePhase Math_exp fuel deltaTime h e = Some (Js.Normal (h, e'))).
  { unfold PhysicsEngine.solvePhase. fold e'.
    destruct fuel; cbn [PhysicsEngine.stepLoop]; now rewrite (ge_nan_l _ _ Hacc). }
  split; [exact Hs|]. split; [|split; [exact Hacc|reflexivity]].
  unfold PhysicsEngine.update. now rewrite Hs.
Qed.

Lemma nan_time_stops_the_solver_witness :
  let e' := PhysicsEngine.withAccumulator loneBatteryEngine Js.NaN in
  PhysicsEngine.solvePhase (fun _ => 1%float) 0 Js.NaN (fst loneBattery) loneBatteryEngine
  = Some (Js.Normal (fst loneBattery, e')) /\
  PhysicsEngine.solvePhase (fun _ => 1%float) 0 0.016 (fst loneBattery) e'
  = Some (Js.Normal (fst loneBattery, e')).
Proof.
  split.
  - exact (proj1 (nan_time_stops_the_solver (fun _ => 1%float) 0 Js.NaN (fst loneBattery)
                    loneBatteryEngine (or_intror eq_refl))).
  - exact (proj1 (nan_time_stops_the_solver (fun _ => 1%float) 0 0.016 (fst loneBattery)
                    (PhysicsEngine.withAccumulator loneBatteryEngine Js.NaN)
                    (or_introl eq_refl))).
Defined.

Lemma stepLoop_infinite Math_exp fuel : forall h e,
  PhysicsEngine.accumulator e = Js.Infinity ->
  PhysicsEngine.stepLoop Math_exp fuel h e = None.
Proof.
  induction fuel as [|fuel IH]; intros h e Hacc; cbn [PhysicsEngine.stepLoop]; rewrite Hacc;
    change (Js.ge Js.Infinity PhysicsEngine.timeStep) with true; cbv iota; [reflexivity|].
  destruct (simulate_returns Math_exp PhysicsEngine.timeStep h e) as (h' & ns & ->).
  apply IH. cbn. now rewrite Hacc.
Qed.

(** X7.  When the accumulated time is [Infinity] the loop of [update] never
    ends: subtracting a time step from [Infinity] leaves [Infinity]. *)
Theorem infinite_time_never_returns (Math_exp : float -> float) (deltaTime : float)
    (h : Heap.t) (e : PhysicsEngine.t) :
  (PhysicsEngine.accumulator e + deltaTime)%float = Js.Infinity ->
  forall fuel, PhysicsEngine.update Math_exp fuel deltaTime h e = None.
Proof.
  intros Hacc fuel. unfold PhysicsEngine.update, PhysicsEngine.solvePhase.
  now rewrite stepLoop_infinite.
Qed.

Lemma infinite_time_never_returns_witness :
  PhysicsEngine.update (fun _ => 1%float) 1000 Js.Infinity (fst loneBattery) loneBatteryEngine
  = None.
Proof.
  exact (infinite_time_never_returns (fun _ => 1%float) Js.Infinity (fst loneBattery)
           loneBatteryEngine eq_refl 1000).
Defined.

(** ** The currents of the wires *)

(** The voltage between the two ends of a wire, when both terminals exist. *)
Definition dropAcross (objs : list Device.t) (w : Wire.t) : option float :=
  s ← Heap.startOf objs w; t ← Heap.endOf objs w;
  Some (Terminal.voltage s - Terminal.voltage t)%float.

Lemma getTerminal_pins objs c i :
  Terminal.voltage <$> Heap.getTerminal objs c i = snd <$> pinsIn objs c !! i.
Proof.
  unfold Heap.getTerminal, pinsIn. destruct (objs !! c) as [o|]; cbn; [|reflexivity].
  rewrite list_lookup_fmap. now destruct (Component.terminals o !! i).
Qed.

Lemma dropAcross_pins objs objs' w :
  (forall c, pinsIn objs' c = pinsIn objs c) -> dropAcross objs' w = dropAcross objs w.
Proof.
  intros H. unfold dropAcross, Heap.startOf, Heap.endOf.
  pose proof (getTerminal_pins objs (Wire.startComponent w) (Wire.startTerminal w)) as Hs.
  pose proof (getTerminal_pins objs' (Wire.startComponent w) (Wire.startTerminal w)) as Hs'.
  pose proof (getTerminal_pins objs (Wire.endComponent w) (Wire.endTerminal w)) as He.
  pose proof (getTerminal_pins objs' (Wire.endComponent w) (Wire.endTerminal w)) as He'.
  rewrite H, <- Hs in Hs'. rewrite H, <- He in He'.
  destruct (Heap.getTerminal objs' _ (Wire.startTerminal w)) as [s'|],
           (Heap.getTerminal objs _ (Wire.startTerminal w)) as [s|]; cbn in Hs'; try discriminate;
    destruct (Heap.getTerminal objs' _ (Wire.endTerminal w)) as [t'|],
             (Heap.getTerminal objs _ (Wire.endTerminal w)) as [t|]; cbn in He'; try discriminate;
    cbn; congruence.
Qed.

Lemma wireCurrents_table h w :
  Heap.wireCurrent (PhysicsEngine.wireCurrents h w)
  = match dropAcross (Heap.objects h) w with
    | Some d => (Wire.ref w, (d / Wire.getResistance w)%float) :: Heap.wireCurrent h
    | None => Heap.wireCurrent h
    end.
Proof.
  unfold PhysicsEngine.wireCurrents, dropAcross.
  destruct (Heap.startOf (Heap.objects h) w), (Heap.endOf (Heap.objects h) w); reflexivity.
Qed.

Lemma wireCurrents_all_pins ws : forall h c,
  pinsIn (Heap.objects (fold_left PhysicsEngine.wireCurrents ws h)) c
  = pinsIn (Heap.objects h) c.
Proof.
  induction ws as [|w ws IH]; intros h c; cbn; [reflexivity|].
  now rewrite IH, wireCurrents_pins.
Qed.

(** X8.  After [updateComponentValues], every wire of the engine whose two
    terminals exist carries the voltage between them divided by its
    resistance, the voltages being those the terminals had before the call
    and still have. *)
Theorem wire_currents_follow_terminal_voltages (x : list float) (h : Heap.t)
    (e : PhysicsEngine.t) (w : Wire.t) (s t : Terminal.t) :
  (forall w1 w2, w1 ∈ PhysicsEngine.wires e -> w2 ∈ PhysicsEngine.wires e ->
                 Wire.ref w1 = Wire.ref w2 -> w1 = w2) ->
  w ∈ PhysicsEngine.wires e ->
  Heap.startOf (Heap.objects h) w = Some s ->
  Heap.endOf (Heap.objects h) w = Some t ->
  let h' := PhysicsEngine.updateComponentValues x h e in
  Heap.getCurrent (Heap.wireCurrent h') w
  = ((Terminal.voltage s - Terminal.voltage t) / 0.01)%float /\
  dropAcross (Heap.objects h') w = Some (Terminal.voltage s - Terminal.voltage t)%float.
Proof.
  intros Hid Hw Hs Ht h'.
  assert (Hd : dropAcross (Heap.objects h) w
               = Some (Terminal.voltage s - Terminal.voltage t)%float).
  { unfold dropAcross. now rewrite Hs, Ht. }
  split.
  2:{ rewrite <- Hd. apply dropAcross_pins. intros c. apply updateComponentValues_pins. }
  unfold h', PhysicsEngine.updateComponentValues.
  clear Hs Ht h'. revert Hid Hw.
  generalize (PhysicsEngine.wires e) as ws.
  induction ws as [|w' ws IH] using rev_ind; intros Hid Hw; [inversion Hw|].
  rewrite fold_left_app; cbn. rewrite wireCurrents_table.
  rewrite (dropAcross_pins (Heap.objects h)) by (intros c; apply wireCurrents_all_pins).
  destruct (Nat.eqb_spec (Wire.ref w') (Wire.ref w)) as [Hr|Hr].
  - assert (w' = w) as ->.
    { apply Hid; [apply elem_of_app; right; apply elem_of_cons; now left|exact Hw|exact Hr]. }
    rewrite Hd. cbn. now rewrite Nat.eqb_refl.
  - assert (Hin : w ∈ ws).
    { apply elem_of_app in Hw as [Hw|Hw]; [exact Hw|].
      apply list_elem_of_singleton in Hw. congruence. }
    assert (IH' : Heap.getCurrent
                    (Heap.wireCurrent (fold_left PhysicsEngine.wireCurrents ws h)) w
                  = ((Terminal.voltage s - Terminal.voltage t) / 0.01)%float).
    { apply IH; [|exact Hin].
      intros w1 w2 H1 H2. apply Hid; apply elem_of_app; now left. }
    destruct (dropAcross (Heap.objects h) w'); [|exact IH'].
    cbn. apply Nat.eqb_neq in Hr. now rewrite Hr.
Qed.

(** A 9 V battery and a 1 kOhm resistor, with a wire from terminal 1 of the
    battery to terminal 0 of the resistor, all added through the simulator. *)
Definition wiredCircuit : Heap.t * CircuitSimulator.t :=
  let h := freshHeap [0.5; 0.0000055; 0.0000075; 0.5; 0.0000035; 0.0000045]%float in
  let (bat, h) := allocate Device.OfBattery (Battery.new 9) h in
  let (r, h) := allocate Device.OfResistor (Resistor.new 1000) h in
  let s := CircuitSimulator.new PhysicsEngine.empty in
  let (h, s) := CircuitSimulator.addComponent bat h s in
  let (h, s) := CircuitSimulator.addComponent r h s in
  CircuitSimulator.addWire (Wire.mk 0 bat r 1 0) h s.

Definition wiredEngine : PhysicsEngine.t := CircuitSimulator.physicsEngine (snd wiredCircuit).

Example wiredCircuit_state :
  nodesOf (fst wiredCircuit) 0 = [5; 3]%Z /\ voltagesOf (fst wiredCircuit) 0 = [0; 9]%float /\
  nodesOf (fst wiredCircuit) 1 = [3; 4]%Z /\ voltagesOf (fst wiredCircuit) 1 = [0; 0]%float /\
  PhysicsEngine.wires wiredEngine = [Wire.mk 0 0 1 1 0].
Proof. vm_compute. repeat split. Qed.

Lemma wire_currents_follow_terminal_voltages_witness :
  Heap.getCurrent
    (Heap.wireCurrent (PhysicsEngine.updateComponentValues [] (fst wiredCircuit) wiredEngine))
    (Wire.mk 0 0 1 1 0)
  = ((9 - 0) / 0.01)%float.
Proof.
  refine (proj1 (wire_currents_follow_terminal_voltages [] (fst wiredCircuit) wiredEngine
                   (Wire.mk 0 0 1 1 0) (Terminal.mk 3 9 0) (Terminal.mk 3 0 0) _ _ _ _)).
  - intros w1 w2 H1 H2 _.
    change (PhysicsEngine.wires wiredEngine) with [Wire.mk 0 0 1 1 0] in H1, H2.
    apply list_elem_of_singleton in H1, H2. congruence.
  - change (PhysicsEngine.wires wiredEngine) with [Wire.mk 0 0 1 1 0].
    apply elem_of_cons; now left.
  - reflexivity.
  - reflexivity.
Defined.

(** ** The ground node *)

Lemma simulate_ground Math_exp dt h e h' e' j node :
  PhysicsEngine.simulate Math_exp dt h e = Js.Normal (h', e') ->
  PhysicsEngine.nodes e !! j = Some (PhysicsEngine.groundNode, node) ->
  PhysicsEngine.nodes e' !! j = Some (PhysicsEngine.groundNode, node).
Proof.
  unfold PhysicsEngine.simulate. destruct (Nat.eqb _ 0); [now intros [= <- <-]|].
  destruct (solveCircuit_returns Math_exp h e) as (h1 & ns & -> & _ & Hg).
  intros [= <- <-]. apply Hg.
Qed.

Lemma stepLoop_ground Math_exp fuel : forall h e h' e' j node,
  PhysicsEngine.stepLoop Math_exp fuel h e = Some (Js.Normal (h', e')) ->
  PhysicsEngine.nodes e !! j = Some (PhysicsEngine.groundNode, node) ->
  PhysicsEngine.nodes e' !! j = Some (PhysicsEngine.groundNode, node).
Proof.
  induction fuel as [|fuel IH]; intros h e h' e' j node; cbn [PhysicsEngine.stepLoop];
    destruct (Js.ge (PhysicsEngine.accumulator e) PhysicsEngine.timeStep).
  - intros H; discriminate H.
  - now intros [= <- <-].
  - destruct (PhysicsEngine.simulate Math_exp PhysicsEngine.timeStep h e) as [[h1 e1]|] eqn:Hs;
      [|intros H; discriminate H].
    intros H Hj. apply (IH _ _ _ _ j node H). cbn.
    eapply simulate_ground; eauto.
  - now intros [= <- <-].
Qed.

(** X9.  No solve writes the voltage of the ground node: the entry of the node
    map under the key [0] is the same after a call of [update] as before
    it, so that after a rebuild it stays at [0] volt. *)
Theorem ground_voltage_is_never_written (Math_exp : float -> float) (fuel : nat)
    (deltaTime : float) (h h' : Heap.t) (e e' : PhysicsEngine.t) (j : nat)
    (node : PhysicsEngine.CircuitNode) :
  PhysicsEngine.update Math_exp fuel deltaTime h e = Some (Js.Normal (h', e')) ->
  PhysicsEngine.nodes e !! j = Some (PhysicsEngine.groundNode, node) ->
  PhysicsEngine.nodes e' !! j = Some (PhysicsEngine.groundNode, node).
Proof.
  unfold PhysicsEngine.update, PhysicsEngine.solvePhase.
  destruct (PhysicsEngine.stepLoop _ _ _ _) as [[[h1 e1]|]|] eqn:Hs; try discriminate.
  intros [= <- <-] Hj. eapply stepLoop_ground; eauto.
Qed.

(** A resistor one of whose terminals was given the node id [0], next to a
    9 V battery: after a tick with one solve the ground entry still reads
    0 V. *)
Definition groundedCircuit : Heap.t * CircuitSimulator.t :=
  let h := freshHeap [0.5; 0.0000055; 0.0000075; 0.5; 0.0000005; 0.0000075]%float in
  let (bat, h) := allocate Device.OfBattery (Battery.new 9) h in
  let (r, h) := allocate Device.OfResistor (Resistor.new 1000) h in
  let s := CircuitSimulator.new PhysicsEngine.empty in
  let (h, s) := CircuitSimulator.addComponent bat h s in
  CircuitSimulator.addComponent r h s.

Example groundedCircuit_state :
  nodesOf (fst groundedCircuit) 0 = [5; 7]%Z /\
  nodesOf (fst groundedCircuit) 1 = [0; 7]%Z /\
  map fst (PhysicsEngine.nodes (CircuitSimulator.physicsEngine (snd groundedCircuit)))
  = [5; 7; 0]%Z.
Proof. vm_compute. repeat split. Qed.

Lemma ground_voltage_is_never_written_witness :
  exists h' e',
    PhysicsEngine.update (fun _ => 1%float) 5 0.001 (fst groundedCircuit)
      (CircuitSimulator.physicsEngine (snd groundedCircuit)) = Some (Js.Normal (h', e')) /\
    PhysicsEngine.nodes e' !! 2
    = Some (PhysicsEngine.groundNode, PhysicsEngine.mkNode 0 0%float).
Proof.
  destruct (PhysicsEngine.update (fun _ => 1%float) 5 0.001 (fst groundedCircuit)
              (CircuitSimulator.physicsEngine (snd groundedCircuit)))
    as [[[h' e']|]|] eqn:H; [|vm_compute in H; discriminate H..].
  exists h', e'. split; [reflexivity|].
  exact (ground_voltage_is_never_written _ _ _ _ _ _ _ 2 _ H eq_refl).
Defined.


(** ** The node map a rebuild leaves *)

Lemma has_spec ns key : PhysicsEngine.has ns key = true <-> key ∈ map fst ns.
Proof.
  unfold PhysicsEngine.has. rewrite existsb_exists, list_elem_of_In, in_map_iff.
  split; intros (p & H1 & H2); exists p.
  - apply Z.eqb_eq in H2. tauto.
  - split; [tauto|]. apply Z.eqb_eq. tauto.
Qed.

(** An entry as [rebuildCircuit] creates it. *)
Definition blank (p : Z * PhysicsEngine.CircuitNode) : Prop :=
  PhysicsEngine.id (snd p) = fst p /\ PhysicsEngine.voltage (snd p) = 0%float.

Lemma addNode_spec ns t :
  NoDup (map fst ns) -> Forall blank ns ->
  NoDup (map fst (PhysicsEngine.addNode ns t)) /\
  Forall blank (PhysicsEngine.addNode ns t) /\
  forall k, k ∈ map fst (PhysicsEngine.addNode ns t) <-> k ∈ map fst ns \/ k = Terminal.node t.
Proof.
  intros Hnd Hb. unfold PhysicsEngine.addNode.
  destruct (PhysicsEngine.has ns (Terminal.node t)) eqn:Hh.
  - apply has_spec in Hh. repeat split; try assumption; [tauto|].
    intros [?| ->]; assumption.
  - assert (Hn : Terminal.node t ∉ map fst ns).
    { intros Hin. apply has_spec in Hin. congruence. }
    rewrite map_app; cbn. repeat split.
    + apply NoDup_app. repeat split; [assumption| |apply NoDup_singleton].
      intros k Hk ->%list_elem_of_singleton. contradiction.
    + apply Forall_app; split; [assumption|]. repeat constructor.
    + rewrite elem_of_app, list_elem_of_singleton. tauto.
    + rewrite elem_of_app, list_elem_of_singleton. tauto.
Qed.

Lemma addNodes_spec ts : forall ns,
  NoDup (map fst ns) -> Forall blank ns ->
  NoDup (map fst (fold_left PhysicsEngine.addNode ts ns)) /\
  Forall blank (fold_left PhysicsEngine.addNode ts ns) /\
  forall k, k ∈ map fst (fold_left PhysicsEngine.addNode ts ns)
            <-> k ∈ map fst ns \/ exists t, t ∈ ts /\ Terminal.node t = k.
Proof.
  induction ts as [|t ts IH]; intros ns Hnd Hb; cbn.
  - repeat split; try assumption; [tauto|].
    intros [?|(t & Ht & _)]; [assumption|inversion Ht].
  - destruct (addNode_spec ns t Hnd Hb) as (Hnd1 & Hb1 & Hk1).
    destruct (IH _ Hnd1 Hb1) as (Hnd2 & Hb2 & Hk2).
    repeat split; try assumption.
    + intros Hk. apply Hk2 in Hk as [Hk|(t' & Ht' & <-)].
      * apply Hk1 in Hk as [Hk| ->]; [now left|].
        right; exists t; split; [apply elem_of_cons; now left|reflexivity].
      * right; exists t'; split; [apply elem_of_cons; now right|reflexivity].
    + intros [Hk|(t' & Ht' & <-)]; apply Hk2.
      * left; apply Hk1; now left.
      * apply elem_of_cons in Ht' as [->|Ht'].
        -- left; apply Hk1; now right.
        -- right; eauto.
Qed.

Lemma collectNodes_spec (objs : list Device.t) (cs : list nat) : forall ns,
  NoDup (map fst ns) -> Forall blank ns ->
  let ns' :=
    fold_left
      (fun ns c =>
         match objs !! c with
         | Some o => fold_left PhysicsEngine.addNode (Component.terminals o) ns
         | None => ns
         end) cs ns in
  NoDup (map fst ns') /\ Forall blank ns' /\
  forall k, k ∈ map fst ns'
            <-> k ∈ map fst ns \/
                exists c o t, c ∈ cs /\ objs !! c = Some o /\
                              t ∈ Component.terminals o /\ Terminal.node t = k.
Proof.
  induction cs as [|c cs IH]; intros ns Hnd Hb; cbn.
  - repeat split; try assumption; [tauto|].
    intros [?|(c & o & t & Hc & _)]; [assumption|inversion Hc].
  - destruct (objs !! c) as [o|] eqn:Ho.
    + destruct (addNodes_spec (Component.terminals o) ns Hnd Hb) as (Hnd1 & Hb1 & Hk1).
      destruct (IH _ Hnd1 Hb1) as (Hnd2 & Hb2 & Hk2).
      repeat split; try assumption.
      * intros Hk. apply Hk2 in Hk as [Hk|(c' & o' & t & Hc' & Ho' & Ht & <-)].
        -- apply Hk1 in Hk as [Hk|(t & Ht & <-)]; [now left|].
           right; exists c, o, t. repeat split; try assumption. apply elem_of_cons; now left.
        -- right; exists c', o', t. repeat split; try assumption. apply elem_of_cons; now right.
      * intros [Hk|(c' & o' & t & Hc' & Ho' & Ht & <-)]; apply Hk2.
        -- left; apply Hk1; now left.
        -- apply elem_of_cons in Hc' as [->|Hc'].
           ++ left; apply Hk1; right. exists t. split; [congruence|reflexivity].
           ++ right; eauto 10.
    + destruct (IH _ Hnd Hb) as (Hnd2 & Hb2 & Hk2).
      repeat split; try assumption.
      * intros Hk. apply Hk2 in Hk as [Hk|(c' & o' & t & Hc' & Ho' & Ht & <-)]; [now left|].
        right; exists c', o', t. repeat split; try assumption. apply elem_of_cons; now right.
      * intros [Hk|(c' & o' & t & Hc' & Ho' & Ht & <-)]; apply Hk2; [now left|].
        apply elem_of_cons in Hc' as [->|Hc']; [congruence|].
        right; eauto 10.
Qed.

(** X10.  After [rebuildCircuit] the node map has one entry for each node id that
    a terminal of a listed component carried when the rebuild started, each
    with its key as [id] and the voltage [0], and no two entries share a
    key. *)
Theorem rebuild_node_map (h : Heap.t) (e : PhysicsEngine.t) :
  let ns := PhysicsEngine.nodes (snd (PhysicsEngine.rebuildCircuit h e)) in
  NoDup (map fst ns) /\
  Forall (fun p => PhysicsEngine.id (snd p) = fst p /\
                   PhysicsEngine.voltage (snd p) = 0%float) ns /\
  forall k, k ∈ map fst ns
            <-> exists c o t, c ∈ PhysicsEngine.components e /\
                              Heap.objects h !! c = Some o /\
                              t ∈ Component.terminals o /\ Terminal.node t = k.
Proof.
  cbn. unfold PhysicsEngine.collectNodes.
  destruct (collectNodes_spec (Heap.objects h) (PhysicsEngine.components e) [])
    as (Hnd & Hb & Hk); [constructor|constructor|].
  split; [exact Hnd|]. split; [exact Hb|].
  intros k; rewrite Hk. split; [intros [Hin|H]; [inversion Hin|exact H]|now right].
Qed.

(** ** What a rebuild does to the node ids *)

Lemma merge_le minNode maxNode x : (minNode <= maxNode)%Z -> (merge minNode maxNode x <= x)%Z.
Proof. unfold merge. destruct (Z.eqb_spec x maxNode); lia. Qed.

Lemma connect_relabelled cs objs w :
  exists g, (forall x, (g x <= x)%Z) /\ relabelled g cs objs (PhysicsEngine.connect cs objs w).
Proof.
  rewrite connect_linkOf. destruct (linkOf objs w) as [[a b]|].
  - exists (merge (Z.min a b) (Z.max a b)). split; [|apply mergeNodes_relabelled].
    intros x; apply merge_le; lia.
  - exists (fun x => x). split; [intros; lia|apply relabelled_id].
Qed.

(** Whatever the wires, the loop over them sends the node ids of the listed
    components through one function, which raises none of them. *)
Lemma connect_all_shrinks cs ws : forall objs,
  exists g, (forall x, (g x <= x)%Z) /\
            relabelled g cs objs (fold_left (PhysicsEngine.connect cs) ws objs).
Proof.
  induction ws as [|w ws IH]; intros objs; cbn.
  - exists (fun x => x). split; [intros; lia|apply relabelled_id].
  - destruct (connect_relabelled cs objs w) as (f & Hf & H1).
    destruct (IH (PhysicsEngine.connect cs objs w)) as (g & Hg & H2).
    exists (fun x => g (f x)). split; [|eapply relabelled_trans; eauto].
    intros x. specialize (Hf x). specialize (Hg (f x)). lia.
Qed.

Lemma relabelled_getTerminal_any f cs objs objs' c i :
  relabelled f cs objs objs' ->
  Heap.getTerminal objs' c i
  = if bool_decide (c ∈ cs)
    then (fun t => Terminal.withNode t (f (Terminal.node t))) <$> Heap.getTerminal objs c i
    else Heap.getTerminal objs c i.
Proof.
  intros H. destruct (bool_decide (c ∈ cs)) eqn:Hc.
  - apply bool_decide_eq_true in Hc. now apply (relabelled_getTerminal f cs).
  - unfold Heap.getTerminal. now rewrite H, Hc.
Qed.

Lemma rebuilt_keeps_joined (h : Heap.t) (e : PhysicsEngine.t) (p q : nat * nat) :
  p.1 ∈ PhysicsEngine.components e -> q.1 ∈ PhysicsEngine.components e ->
  joined h p q -> joined (rebuilt h e) p q.
Proof.
  destruct (connect_all_shrinks (PhysicsEngine.components e) (PhysicsEngine.wires e)
              (Heap.objects h)) as (g & Hg & Hrel).
  change (fold_left _ _ _) with (Heap.objects (rebuilt h e)) in Hrel.
  destruct p as [c1 i1], q as [c2 i2]. intros Hc1 Hc2 (n & H1 & H2); cbn in Hc1, Hc2.
  unfold joined, nodeOfTerminal in *; cbn in *.
  rewrite (relabelled_getTerminal _ _ _ _ c1 i1 Hrel Hc1).
  rewrite (relabelled_getTerminal _ _ _ _ c2 i2 Hrel Hc2).
  destruct (Heap.getTerminal (Heap.objects h) c1 i1) as [t1|]; [|discriminate].
  destruct (Heap.getTerminal (Heap.objects h) c2 i2) as [t2|]; [|discriminate].
  cbn in *. exists (g n). split; congruence.
Qed.

(** X11.  [rebuildCircuit] never splits a node and never raises a node id: every
    terminal keeps its voltage and its current and gets a node id that is
    at most the one it had, the terminals of the components the engine does
    not list keep theirs, and two terminals of listed components that
    shared a node id still share one. *)
Theorem rebuild_never_splits (h : Heap.t) (e : PhysicsEngine.t) :
  let h' := rebuilt h e in
  (forall c i,
     match Heap.getTerminal (Heap.objects h) c i with
     | Some t =>
         exists t', Heap.getTerminal (Heap.objects h') c i = Some t' /\
                    (Terminal.node t' <= Terminal.node t)%Z /\
                    Terminal.voltage t' = Terminal.voltage t /\
                    Terminal.current t' = Terminal.current t /\
                    (c ∉ PhysicsEngine.components e -> t' = t)
     | None => Heap.getTerminal (Heap.objects h') c i = None
     end) /\
  (forall p q, p.1 ∈ PhysicsEngine.components e -> q.1 ∈ PhysicsEngine.components e ->
               joined h p q -> joined h' p q).
Proof.
  intros h'.
  destruct (connect_all_shrinks (PhysicsEngine.components e) (PhysicsEngine.wires e)
              (Heap.objects h)) as (g & Hg & Hrel).
  change (fold_left _ _ _) with (Heap.objects h') in Hrel.
  split.
  - intros c i. rewrite (relabelled_getTerminal_any _ _ _ _ c i Hrel).
    destruct (Heap.getTerminal (Heap.objects h) c i) as [t|]; [|now destruct (bool_decide _)].
    destruct (bool_decide (c ∈ PhysicsEngine.components e)) eqn:Hc; cbn.
    + apply bool_decide_eq_true in Hc.
      eexists; split; [reflexivity|]. cbn. repeat split; [apply Hg|contradiction].
    + exists t. repeat split; lia.
  - intros p q. apply rebuilt_keeps_joined.
Qed.

Lemma rebuilt_joins (h : Heap.t) (e : PhysicsEngine.t) (w : Wire.t) (s t : Terminal.t) :
  w ∈ PhysicsEngine.wires e ->
  closed (PhysicsEngine.components e) w ->
  Heap.startOf (Heap.objects h) w = Some s ->
  Heap.endOf (Heap.objects h) w = Some t ->
  joined (rebuilt h e) (Wire.startComponent w, Wire.startTerminal w)
                       (Wire.endComponent w, Wire.endTerminal w).
Proof.
  intros Hw [Hcs Hce] Hs Ht.
  apply list_elem_of_split in Hw as (ws1 & ws2 & Hws).
  unfold rebuilt; cbn. rewrite Hws, fold_left_app; cbn.
  set (cs := PhysicsEngine.components e) in *.
  destruct (connect_all_shrinks cs ws1 (Heap.objects h)) as (g1 & _ & H1).
  set (objs1 := fold_left (PhysicsEngine.connect cs) ws1 (Heap.objects h)) in *.
  pose proof (relabelled_getTerminal _ _ _ _ _ (Wire.startTerminal w) H1 Hcs) as Hs1.
  pose proof (relabelled_getTerminal _ _ _ _ _ (Wire.endTerminal w) H1 Hce) as Ht1.
  unfold Heap.startOf in Hs; unfold Heap.endOf in Ht. rewrite Hs in Hs1; rewrite Ht in Ht1.
  cbn in Hs1, Ht1.
  assert (Hl : linkOf objs1 w = Some (g1 (Terminal.node s), g1 (Terminal.node t))).
  { unfold linkOf, Heap.startOf, Heap.endOf. now rewrite Hs1, Ht1. }
  pose proof (mergeNodes_relabelled cs
                (Z.min (g1 (Terminal.node s)) (g1 (Terminal.node t)))
                (Z.max (g1 (Terminal.node s)) (g1 (Terminal.node t))) objs1) as H2.
  rewrite connect_linkOf, Hl.
  set (objs2 := PhysicsEngine.mergeNodes cs _ _ objs1) in *.
  destruct (connect_all_shrinks cs ws2 objs2) as (g3 & _ & H3).
  set (objs3 := fold_left (PhysicsEngine.connect cs) ws2 objs2) in *.
  unfold joined, nodeOfTerminal; cbn.
  rewrite (relabelled_getTerminal _ _ _ _ _ (Wire.startTerminal w) H3 Hcs).
  rewrite (relabelled_getTerminal _ _ _ _ _ (Wire.endTerminal w) H3 Hce).
  rewrite (relabelled_getTerminal _ _ _ _ _ (Wire.startTerminal w) H2 Hcs).
  rewrite (relabelled_getTerminal _ _ _ _ _ (Wire.endTerminal w) H2 Hce).
  rewrite Hs1, Ht1. cbn.
  eexists; split; [reflexivity|]. do 2 f_equal.
  symmetry. apply union_joins.
Qed.

(** X12.  A wire between two listed components joins the terminals it ends on,
    whatever the other wires of the engine are. *)
Theorem wire_joins_its_ends (h : Heap.t) (e : PhysicsEngine.t) (w : Wire.t)
    (s t : Terminal.t) :
  w ∈ PhysicsEngine.wires e ->
  closed (PhysicsEngine.components e) w ->
  Heap.startOf (Heap.objects h) w = Some s ->
  Heap.endOf (Heap.objects h) w = Some t ->
  joined (rebuilt h e) (Wire.startComponent w, Wire.startTerminal w)
                       (Wire.endComponent w, Wire.endTerminal w).
Proof. apply rebuilt_joins. Qed.

Lemma chain_wire_ends :
  Heap.startOf (Heap.objects chainHeap) (Wire.mk 0 0 1 1 0) = Some (Terminal.mk 4 0 0) /\
  Heap.endOf (Heap.objects chainHeap) (Wire.mk 0 0 1 1 0) = Some (Terminal.mk 7 0 0).
Proof. split; reflexivity. Qed.

Lemma wire_joins_its_ends_witness : joined (rebuilt chainHeap chainEngine) (0, 1) (1, 0).
Proof.
  apply (wire_joins_its_ends chainHeap chainEngine (Wire.mk 0 0 1 1 0)
           (Terminal.mk 4 0 0) (Terminal.mk 7 0 0)).
  - apply elem_of_cons; now left.
  - split; [apply elem_of_cons; now left|apply elem_of_cons; right; apply elem_of_cons; now left].
  - reflexivity.
  - reflexivity.
Defined.

(** *** The node map covers the merged ids *)

Lemma union_cases p q x : union p q x = p \/ union p q x = q \/ union p q x = x.
Proof. rewrite union_ordered. split_tests; auto. Qed.

Lemma foldLabel_range (P : Z -> Prop) ls : forall f,
  (forall x, P x -> P (f x)) ->
  Forall (fun l => match l with Some (a, b) => P a /\ P b | None => True end) ls ->
  forall x, P x -> P (fold_left stepLabel ls f x).
Proof.
  induction ls as [|l ls IH]; intros f Hf Hls x Hx; cbn; [now apply Hf|].
  apply Forall_cons in Hls as [Hl Hls].
  apply IH; [|exact Hls|exact Hx].
  intros y Hy. destruct l as [[a b]|]; cbn; [|now apply Hf].
  destruct Hl as [Ha Hb].
  destruct (union_cases (f a) (f b) (f y)) as [->|[->| ->]]; now apply Hf.
Qed.

(** X13.  When every wire joins listed components, the node id a rebuild leaves
    on a terminal of a listed component has an entry in the node map the
    rebuild leaves. *)
Theorem rebuilt_nodes_are_mapped (h : Heap.t) (e : PhysicsEngine.t) (c i : nat)
    (t' : Terminal.t) :
  Forall (closed (PhysicsEngine.components e)) (PhysicsEngine.wires e) ->
  c ∈ PhysicsEngine.components e ->
  Heap.getTerminal (Heap.objects (rebuilt h e)) c i = Some t' ->
  Terminal.node t' ∈ map fst (PhysicsEngine.nodes (snd (PhysicsEngine.rebuildCircuit h e))).
Proof.
  intros Hcl Hc Ht'.
  pose proof (rebuildCircuit_relabelled h e Hcl) as Hrel.
  set (f := fold_left stepLabel _ _) in Hrel.
  unfold rebuilt in Ht'. rewrite (relabelled_getTerminal _ _ _ _ c i Hrel Hc) in Ht'.
  destruct (Heap.getTerminal (Heap.objects h) c i) as [t|] eqn:Ht; [|discriminate].
  injection Ht' as <-. cbn [Terminal.node Terminal.withNode].
  destruct (collectNodes_spec (Heap.objects h) (PhysicsEngine.components e) [])
    as (_ & _ & Hk); [constructor|constructor|].
  cbn. unfold PhysicsEngine.collectNodes.
  set (P := fun k => k ∈ map fst
              (fold_left
                 (fun ns c => match Heap.objects h !! c with
                              | Some o => fold_left PhysicsEngine.addNode (Component.terminals o) ns
                              | None => ns
                              end) (PhysicsEngine.components e) [])).
  assert (Hlisted : forall c i t, c ∈ PhysicsEngine.components e ->
                      Heap.getTerminal (Heap.objects h) c i = Some t -> P (Terminal.node t)).
  { intros c0 i0 t0 Hc0 Ht0. apply Hk. right.
    unfold Heap.getTerminal in Ht0.
    destruct (Heap.objects h !! c0) as [o|] eqn:Ho; [|discriminate]. cbn in Ht0.
    exists c0, o, t0. repeat split; try assumption.
    eapply list_elem_of_lookup_2; eauto. }
  change (P (f (Terminal.node t))).
  apply foldLabel_range; [auto| |eapply Hlisted; eauto].
  apply Forall_map, Forall_forall. intros w Hw.
  eapply Forall_forall in Hcl as [Hs He]; [|exact Hw].
  unfold linkOf, Heap.startOf, Heap.endOf.
  destruct (Heap.getTerminal _ (Wire.startComponent w) _) as [s0|] eqn:Hs0; [|exact I].
  destruct (Heap.getTerminal _ (Wire.endComponent w) _) as [e0|] eqn:He0; [|exact I].
  split; [apply (Hlisted _ _ _ Hs Hs0)|apply (Hlisted _ _ _ He He0)].
Qed.

Lemma rebuilt_nodes_are_mapped_witness :
  4%Z ∈ map fst (PhysicsEngine.nodes (snd (PhysicsEngine.rebuildCircuit chainHeap chainEngine))).
Proof.
  exact (rebuilt_nodes_are_mapped chainHeap chainEngine 1 0 (Terminal.mk 4 0 0)
           chain_closed ltac:(apply elem_of_cons; right; apply elem_of_cons; now left)
           eq_refl).
Defined.

(** *** Removing a wire *)

(** X14.  Removing a wire does not undo what it did: the terminals the wire
    joined when it was added are on one node still after [removeWire],
    since a rebuild only ever merges. *)
Theorem removed_wire_still_joins (h : Heap.t) (e : PhysicsEngine.t) (w : Wire.t)
    (s t : Terminal.t) :
  closed (PhysicsEngine.components e) w ->
  Heap.startOf (Heap.objects h) w = Some s ->
  Heap.endOf (Heap.objects h) w = Some t ->
  let (h1, e1) := PhysicsEngine.addWire w h e in
  let (h2, e2) := PhysicsEngine.removeWire w h1 e1 in
  joined h1 (Wire.startComponent w, Wire.startTerminal w)
            (Wire.endComponent w, Wire.endTerminal w) /\
  joined h2 (Wire.startComponent w, Wire.startTerminal w)
            (Wire.endComponent w, Wire.endTerminal w) /\
  PhysicsEngine.components e2 = PhysicsEngine.components e.
Proof.
  intros Hcl Hs Ht.
  set (ea := PhysicsEngine.mk (PhysicsEngine.components e) (PhysicsEngine.wires e ++ [w])
               (PhysicsEngine.nodes e) (PhysicsEngine.accumulator e)).
  assert (H1 : joined (rebuilt h ea) (Wire.startComponent w, Wire.startTerminal w)
                      (Wire.endComponent w, Wire.endTerminal w)).
  { apply (rebuilt_joins h ea w s t); try assumption.
    cbn. apply elem_of_app; right. apply elem_of_cons; now left. }
  unfold PhysicsEngine.addWire. fold ea.
  destruct (PhysicsEngine.rebuildCircuit h ea) as [h1 e1] eqn:Hr.
  assert (Hh1 : h1 = rebuilt h ea) by (unfold rebuilt; now rewrite Hr).
  assert (He1 : PhysicsEngine.components e1 = PhysicsEngine.components e
                /\ PhysicsEngine.wires e1 = PhysicsEngine.wires e ++ [w]).
  { apply (f_equal snd) in Hr. cbn in Hr. subst e1. split; reflexivity. }
  destruct He1 as [Hc1 Hw1].
  unfold PhysicsEngine.removeWire.
  destruct (PhysicsEngine.spliceWire w (PhysicsEngine.wires e1)) as [ws'|].
  - set (er := PhysicsEngine.mk (PhysicsEngine.components e1) ws' (PhysicsEngine.nodes e1)
                 (PhysicsEngine.accumulator e1)).
    destruct (PhysicsEngine.rebuildCircuit h1 er) as [h2 e2] eqn:Hr2.
    assert (Hh2 : h2 = rebuilt h1 er) by (unfold rebuilt; now rewrite Hr2).
    split; [now rewrite Hh1|]. split.
    + rewrite Hh2. apply rebuilt_keeps_joined; cbn; rewrite ?Hc1; try apply Hcl.
      now rewrite Hh1.
    + apply (f_equal snd) in Hr2. cbn in Hr2. subst e2. cbn. exact Hc1.
  - split; [now rewrite Hh1|]. split; [now rewrite Hh1|exact Hc1].
Qed.

Lemma removed_wire_still_joins_witness :
  let e0 := PhysicsEngine.mk [0; 1; 2] [] [] 0%float in
  let (h1, e1) := PhysicsEngine.addWire (Wire.mk 0 0 1 1 0) chainHeap e0 in
  let (h2, e2) := PhysicsEngine.removeWire (Wire.mk 0 0 1 1 0) h1 e1 in
  joined h2 (0, 1) (1, 0) /\ PhysicsEngine.wires e2 = [] /\
  nodesOf h2 0 = [3; 4]%Z /\ nodesOf h2 1 = [4; 8]%Z.
Proof.
  pose proof (removed_wire_still_joins chainHeap (PhysicsEngine.mk [0; 1; 2] [] [] 0%float)
                (Wire.mk 0 0 1 1 0) (Terminal.mk 4 0 0) (Terminal.mk 7 0 0)
                ltac:(split; [apply elem_of_cons; now left
                             |apply elem_of_cons; right; apply elem_of_cons; now left])
                eq_refl eq_refl) as H.
  cbv zeta.
  destruct (PhysicsEngine.addWire _ _ _) as [h1 e1] eqn:H1.
  destruct (PhysicsEngine.removeWire _ h1 e1) as [h2 e2] eqn:H2.
  destruct H as (_ & Hj & _). split; [exact Hj|].
  vm_compute in H1. injection H1 as <- <-. vm_compute in H2. injection H2 as <- <-.
  repeat split.
Defined.

(** ** The simulator and its engine *)

Lemma spliceComponent_spec c cs :
  match PhysicsEngine.spliceComponent c cs with
  | Some cs' => exists l1 l2, cs = l1 ++ c :: l2 /\ (c ∉ l1) /\ cs' = l1 ++ l2
  | None => c ∉ cs
  end.
Proof.
  induction cs as [|c' cs IH]; cbn; [apply not_elem_of_nil|].
  destruct (Nat.eqb_spec c' c) as [->|Hne].
  - exists [], cs. repeat split. apply not_elem_of_nil.
  - destruct (PhysicsEngine.spliceComponent c cs) as [cs'|]; cbn.
    + destruct IH as (l1 & l2 & -> & Hl1 & ->).
      exists (c' :: l1), l2. repeat split.
      apply not_elem_of_cons; split; [congruence|assumption].
    + apply not_elem_of_cons; split; [congruence|assumption].
Qed.

(** X15.  [simulator.removeComponent] takes the first occurrence of the
    component out of the list, and with it every wire of the simulator's
    own list that starts or ends on it; for a component the simulator does
    not list it does nothing at all. *)
Theorem removeComponent_first_occurrence (c : nat) (h : Heap.t) (s : CircuitSimulator.t) :
  let s' := snd (CircuitSimulator.removeComponent c h s) in
  (c ∉ CircuitSimulator.components s -> CircuitSimulator.removeComponent c h s = (h, s)) /\
  (forall l1 l2, CircuitSimulator.components s = l1 ++ c :: l2 -> c ∉ l1 ->
     CircuitSimulator.components s' = l1 ++ l2 /\
     (forall w, w ∈ CircuitSimulator.wires s' <->
                w ∈ CircuitSimulator.wires s /\
                Wire.startComponent w <> c /\ Wire.endComponent w <> c) /\
     (NoDup (CircuitSimulator.components s) -> c ∉ CircuitSimulator.components s')).
Proof.
  intros s'. unfold s', CircuitSimulator.removeComponent.
  pose proof (spliceComponent_spec c (CircuitSimulator.components s)) as Hsp.
  destruct (PhysicsEngine.spliceComponent c (CircuitSimulator.components s)) as [cs'|].
  - destruct Hsp as (k1 & k2 & Hcs & Hk1 & ->). split.
    + intros Hc. exfalso. apply Hc. rewrite Hcs. apply elem_of_app; right.
      apply elem_of_cons; now left.
    + intros l1 l2 Hl Hl1.
      assert (k1 = l1 /\ k2 = l2) as [-> ->].
      { rewrite Hcs in Hl. clear -Hl Hk1 Hl1. revert l1 Hl Hl1.
        induction k1 as [|a k1 IH]; intros [|b l1] Hl Hl1; cbn in Hl.
        - now injection Hl.
        - injection Hl as <- _. exfalso; apply Hl1, elem_of_cons; now left.
        - injection Hl as -> _. exfalso; apply Hk1, elem_of_cons; now left.
        - injection Hl as -> Hl. apply not_elem_of_cons in Hk1 as [_ Hk1].
          apply not_elem_of_cons in Hl1 as [_ Hl1].
          destruct (IH Hk1 l1 Hl Hl1) as [-> ->]. now split. }
      destruct (PhysicsEngine.removeComponent c h (CircuitSimulator.physicsEngine s))
        as [h1 e1]; cbn.
      split; [reflexivity|]. split.
      * intros w. rewrite list_elem_of_filter. tauto.
      * rewrite Hcs. intros Hnd. apply NoDup_app in Hnd as (_ & Hx & Hnd).
        apply NoDup_cons in Hnd as [Hc2 _].
        intros Hin. apply elem_of_app in Hin as [Hin|Hin]; contradiction.
  - split; [reflexivity|].
    intros l1 l2 Hl _. exfalso. apply Hsp. rewrite Hl. apply elem_of_app; right.
    apply elem_of_cons; now left.
Qed.

(** *** The two component lists never differ *)

(** A call of one of the simulator's methods that change the circuit. *)
Inductive Call : Type :=
| AddComponent (c : nat)
| RemoveComponent (c : nat)
| AddWire (w : Wire.t)
| RemoveWire (w : Wire.t)
| Clear.

Definition call (st : Heap.t * CircuitSimulator.t) (k : Call) : Heap.t * CircuitSimulator.t :=
  let (h, s) := st in
  match k with
  | AddComponent c => CircuitSimulator.addComponent c h s
  | RemoveComponent c => CircuitSimulator.removeComponent c h s
  | AddWire w => CircuitSimulator.addWire w h s
  | RemoveWire w => CircuitSimulator.removeWire w h s
  | Clear => CircuitSimulator.clear h s
  end.

(** The number of entries of a wire list that are the wire object [w]. *)
Definition occurrences (w : Wire.t) (ws : list Wire.t) : nat :=
  length (filter (fun w' => Wire.same w' w = true) ws).

(** The simulator and its engine list the same components, and the engine
    lists every wire at least as often as the simulator does. *)
Definition inStep (s : CircuitSimulator.t) : Prop :=
  CircuitSimulator.components s = PhysicsEngine.components (CircuitSimulator.physicsEngine s) /\
  forall w, occurrences w (CircuitSimulator.wires s)
            <= occurrences w (PhysicsEngine.wires (CircuitSimulator.physicsEngine s)).

Lemma occurrences_cons w w' ws :
  occurrences w (w' :: ws) = (if Wire.same w' w then 1 else 0) + occurrences w ws.
Proof.
  unfold occurrences. rewrite filter_cons.
  destruct (Wire.same w' w); destruct (decide _); try reflexivity; congruence.
Qed.

Lemma occurrences_app w ws1 ws2 :
  occurrences w (ws1 ++ ws2) = occurrences w ws1 + occurrences w ws2.
Proof. unfold occurrences. now rewrite filter_app, length_app. Qed.

Lemma same_trans_l w w' w0 :
  Wire.same w' w = true -> Wire.same w' w0 = Wire.same w w0.
Proof. unfold Wire.same. intros H%Nat.eqb_eq. now rewrite H. Qed.

Lemma spliceWire_occurrences w ws :
  match PhysicsEngine.spliceWire w ws with
  | Some ws' =>
      forall w0, occurrences w0 ws = (if Wire.same w w0 then 1 else 0) + occurrences w0 ws'
  | None => occurrences w ws = 0
  end.
Proof.
  induction ws as [|w' ws IH]; cbn [PhysicsEngine.spliceWire]; [reflexivity|].
  destruct (Wire.same w' w) eqn:Hs.
  - intros w0. rewrite occurrences_cons. now rewrite (same_trans_l w w' w0 Hs).
  - destruct (PhysicsEngine.spliceWire w ws) as [ws'|]; cbn [fmap option_fmap option_map].
    + intros w0. rewrite !occurrences_cons, (IH w0). lia.
    + rewrite occurrences_cons, Hs. exact IH.
Qed.

Lemma occurrences_filter w (P : Wire.t -> Prop) `{forall x, Decision (P x)} ws :
  occurrences w (filter P ws) <= occurrences w ws.
Proof.
  induction ws as [|w' ws IH]; [reflexivity|].
  rewrite filter_cons. destruct (decide (P w')).
  - rewrite !occurrences_cons. lia.
  - rewrite occurrences_cons. lia.
Qed.

Lemma call_inStep st k : inStep (snd st) -> inStep (snd (call st k)).
Proof.
  destruct st as [h s]; intros [Hc Hw]; cbn [snd] in *.
  destruct k as [c|c|w|w|]; cbn [call].
  - unfold CircuitSimulator.addComponent, PhysicsEngine.addComponent; cbn -[occurrences].
    split; cbn -[occurrences]; [now rewrite Hc|exact Hw].
  - unfold CircuitSimulator.removeComponent, PhysicsEngine.removeComponent.
    rewrite <- Hc.
    destruct (PhysicsEngine.spliceComponent c (CircuitSimulator.components s)) as [cs|];
      [|now split].
    cbn -[occurrences]. split; cbn -[occurrences]; [reflexivity|].
    intros w. etransitivity; [apply occurrences_filter|apply Hw].
  - unfold CircuitSimulator.addWire, PhysicsEngine.addWire; cbn -[occurrences].
    split; cbn -[occurrences]; [exact Hc|].
    intros w0. rewrite !occurrences_app. specialize (Hw w0). lia.
  - unfold CircuitSimulator.removeWire, PhysicsEngine.removeWire.
    pose proof (spliceWire_occurrences w (CircuitSimulator.wires s)) as H1.
    pose proof (spliceWire_occurrences w
                  (PhysicsEngine.wires (CircuitSimulator.physicsEngine s))) as H2.
    destruct (PhysicsEngine.spliceWire w (CircuitSimulator.wires s)) as [ws|]; [|now split].
    destruct (PhysicsEngine.spliceWire w _) as [ws'|]; cbn -[occurrences].
    + split; cbn -[occurrences]; [exact Hc|].
      intros w0. specialize (Hw w0). rewrite (H1 w0), (H2 w0) in Hw. lia.
    + exfalso. specialize (Hw w). rewrite (H1 w), H2 in Hw.
      unfold Wire.same in Hw. rewrite Nat.eqb_refl in Hw. lia.
  - split; cbn; [reflexivity|]. intros w; reflexivity.
Qed.

Lemma spliceWire_length w ws ws' :
  PhysicsEngine.spliceWire w ws = Some ws' -> length ws = S (length ws').
Proof.
  revert ws'. induction ws as [|w' ws IH]; intros ws'; cbn [PhysicsEngine.spliceWire];
    [discriminate|].
  destruct (Wire.same w' w); [now intros [= <-]|].
  destruct (PhysicsEngine.spliceWire w ws) as [ws0|]; [|discriminate].
  intros [= <-]. cbn. now rewrite (IH ws0).
Qed.

Lemma occurrences_length ws1 : forall ws2,
  (forall w, occurrences w ws1 <= occurrences w ws2) -> length ws1 <= length ws2.
Proof.
  induction ws1 as [|w ws1 IH]; intros ws2 H; cbn [length]; [lia|].
  pose proof (spliceWire_occurrences w ws2) as Hs.
  pose proof (spliceWire_length w ws2) as Hl.
  destruct (PhysicsEngine.spliceWire w ws2) as [ws2'|].
  - rewrite (Hl ws2' eq_refl). apply le_n_S, IH.
    intros w0. specialize (H w0). rewrite occurrences_cons, (Hs w0) in H. lia.
  - specialize (H w). rewrite Hs, occurrences_cons in H.
    unfold Wire.same in H. rewrite Nat.eqb_refl in H. lia.
Qed.

Lemma calls_inStep calls : forall st, inStep (snd st) -> inStep (snd (fold_left call calls st)).
Proof.
  induction calls as [|k calls IH]; intros st H; cbn [fold_left]; [exact H|].
  apply IH, call_inStep, H.
Qed.

(** X16.  Through every sequence of calls of [addComponent], [removeComponent],
    [addWire], [removeWire] and [clear] on a new simulator, the simulator
    and its engine list the same components in the same order, and the
    engine lists every wire object at least as many times as the simulator
    does. *)
Theorem simulator_and_engine_in_step (h : Heap.t) (calls : list Call) :
  let s := snd (fold_left call calls (h, CircuitSimulator.new PhysicsEngine.empty)) in
  CircuitSimulator.getComponents s
  = PhysicsEngine.components (CircuitSimulator.physicsEngine s) /\
  (forall w, occurrences w (CircuitSimulator.getWires s)
             <= occurrences w (PhysicsEngine.wires (CircuitSimulator.physicsEngine s))) /\
  length (CircuitSimulator.getWires s)
  <= length (PhysicsEngine.wires (CircuitSimulator.physicsEngine s)).
Proof.
  intros s.
  assert (H : inStep s).
  { apply calls_inStep. split; [reflexivity|]. intros w; reflexivity. }
  destruct H as [Hc Hw]. split; [exact Hc|]. split; [exact Hw|].
  now apply occurrences_length.
Qed.

(** ** The pivot search *)

(** Among numbers, [<] is a strict weak order: a number that is not [NaN]
    falls on one side of any strictly ordered pair. *)
Lemma SFltb_weak a b c :
  SFltb a c = true -> b <> S754_nan -> SFltb a b = true \/ SFltb b c = true.
Proof.
  intros Hac Hb.
  destruct a as [sa|sa| |sa ma ea], b as [sb|sb| |sb mb eb], c as [sc|sc| |sc mc ec];
    try congruence; try discriminate Hac;
    try (revert Hac; unfold SFltb; cbn;
         repeat match goal with s : bool |- _ => destruct s end; cbn; intros; auto; fail).
  all: try (revert Hac; rewrite ?SFltb_finite; unfold SFltb; cbn;
            repeat match goal with s : bool |- _ => destruct s end; cbn;
            intros; auto; try discriminate; try tauto; fail).
  revert Hac. rewrite !SFltb_finite. destruct sa, sb, sc; try tauto; lia.
Qed.

Lemma ltb_weak a b c :
  PrimFloat.ltb a c = true -> PrimFloat.is_nan b = false ->
  PrimFloat.ltb a b = true \/ PrimFloat.ltb b c = true.
Proof.
  rewrite !ltb_spec. intros Hac Hb. apply SFltb_weak; [exact Hac|].
  intros Hn. apply is_nan_spec in Hn. congruence.
Qed.

Lemma findPivot_keeps_nan aug i ks : forall maxRow rm m,
  aug !! maxRow = Some rm -> PrimFloat.is_nan (Js.Math_abs (Js.get rm i)) = true ->
  Gauss.findPivot aug i ks maxRow = Js.Normal m -> m = maxRow.
Proof.
  induction ks as [|k ks IH]; intros maxRow rm m Hrm Hnan; cbn [Gauss.findPivot].
  - now intros [= <-].
  - unfold Js.row. rewrite Hrm. destruct (aug !! k) as [rk|]; [|discriminate]. cbn [Js.bind].
    assert (Hgt : Js.gt (Js.Math_abs (Js.get rk i)) (Js.Math_abs (Js.get rm i)) = false).
    { unfold Js.gt. destruct (PrimFloat.ltb _ _) eqn:Hlt; [|reflexivity].
      apply ltb_not_nan_l in Hlt. congruence. }
    rewrite Hgt. now apply (IH maxRow rm m).
Qed.

Lemma findPivot_largest aug i ks : forall maxRow m,
  Gauss.findPivot aug i ks maxRow = Js.Normal m ->
  (m = maxRow \/ m ∈ ks) /\
  forall k rk rm, k = maxRow \/ k ∈ ks -> aug !! k = Some rk -> aug !! m = Some rm ->
    Js.gt (Js.Math_abs (Js.get rk i)) (Js.Math_abs (Js.get rm i)) = false.
Proof.
  induction ks as [|k0 ks IH]; intros maxRow m; cbn [Gauss.findPivot].
  - intros [= <-]. split; [now left|].
    intros k rk rm [->|Hk] Hrk Hrm; [|inversion Hk].
    assert (rk = rm) as -> by congruence. apply ltb_irrefl.
  - unfold Js.row.
    destruct (aug !! k0) as [r0|] eqn:Hr0; [|discriminate].
    destruct (aug !! maxRow) as [rM|] eqn:HrM; [|discriminate]. cbn [Js.bind].
    destruct (Js.gt (Js.Math_abs (Js.get r0 i)) (Js.Math_abs (Js.get rM i))) eqn:Hgt;
      intros Hf; destruct (IH _ _ Hf) as [Hm Hle].
    + split.
      { right. destruct Hm as [->|Hm]; apply elem_of_cons; auto. }
      intros k rk rm Hk Hrk Hrm.
      destruct Hk as [->|Hk]; [|apply elem_of_cons in Hk as [->|Hk]].
      * assert (rk = rM) as -> by congruence.
        destruct (Js.gt (Js.Math_abs (Js.get rM i)) (Js.Math_abs (Js.get rm i))) eqn:Hc;
          [|reflexivity].
        unfold Js.gt in *.
        rewrite <- (Hle k0 r0 rm (or_introl eq_refl) Hr0 Hrm).
        symmetry. eapply ltb_trans; eauto.
      * apply (Hle k0 rk rm); auto.
      * apply (Hle k rk rm); auto.
    + split.
      { destruct Hm as [->|Hm]; [now left|right; apply elem_of_cons; auto]. }
      intros k rk rm Hk Hrk Hrm.
      destruct Hk as [->|Hk]; [|apply elem_of_cons in Hk as [->|Hk]].
      * apply (Hle maxRow rk rm); auto.
      * assert (rk = r0) as -> by congruence.
        destruct (Js.gt (Js.Math_abs (Js.get r0 i)) (Js.Math_abs (Js.get rm i))) eqn:Hc;
          [|reflexivity].
        unfold Js.gt in *.
        destruct (PrimFloat.is_nan (Js.Math_abs (Js.get rM i))) eqn:Hnan.
        -- assert (m = maxRow) as -> by (eapply findPivot_keeps_nan; eauto).
           assert (rm = rM) as -> by congruence.
           apply ltb_not_nan_l in Hc. congruence.
        -- destruct (ltb_weak _ (Js.Math_abs (Js.get rM i)) _ Hc Hnan) as [H1|H1].
           ++ rewrite <- (Hle maxRow rM rm (or_introl eq_refl) HrM Hrm). now symmetry.
           ++ congruence.
      * apply (Hle k rk rm); auto.
Qed.

(** X17.  Partial pivoting: after the pivot search and the swap of iteration
    [i], the rows [i] and [m] of the matrix have changed places, for some
    [m] from [i] up to [n - 1], and no row from [i] up to [n - 1] has an
    entry in column [i] whose magnitude exceeds that of the diagonal
    entry. *)
Theorem pivot_dominates_its_column (aug aug1 : list (list float)) (i n : nat) :
  i < n ->
  Gauss.pivoted aug i n = Js.Normal aug1 ->
  (exists m, i <= m < n /\
             aug1 !! i = aug !! m /\ aug1 !! m = aug !! i /\ is_Some (aug !! i) /\
             forall k, k <> i -> k <> m -> aug1 !! k = aug !! k) /\
  forall k rk ri, i <= k < n -> aug1 !! k = Some rk -> aug1 !! i = Some ri ->
    Js.gt (Js.Math_abs (Js.get rk i)) (Js.Math_abs (Js.get ri i)) = false.
Proof.
  intros Hi. unfold Gauss.pivoted.
  destruct (Gauss.findPivot aug i (seq (S i) (n - S i)) i) as [m|] eqn:Hf; [|discriminate].
  cbn [Js.bind]. unfold Gauss.swapRows, Js.row.
  destruct (aug !! i) as [ri0|] eqn:Hri; [|discriminate].
  destruct (aug !! m) as [rm0|] eqn:Hrm; [|discriminate]. cbn [Js.bind].
  intros [= <-].
  destruct (findPivot_largest _ _ _ _ _ Hf) as [Hm Hle].
  assert (Hmn : i <= m < n).
  { destruct Hm as [->|Hm]; [lia|]. apply elem_of_seq in Hm. lia. }
  assert (Hlook : forall k, (<[m := ri0]> (<[i := rm0]> aug)) !! k
                            = if decide (k = m) then Some ri0
                              else if decide (k = i) then Some rm0 else aug !! k).
  { intros k. apply swap_lookup; assumption. }
  split.
  - exists m. split; [exact Hmn|].
    split; [|split; [|split; [eauto|]]].
    + rewrite Hlook. destruct (decide (i = m)) as [<-|_]; [congruence|].
      now rewrite decide_True by reflexivity.
    + rewrite Hlook. now rewrite decide_True by reflexivity.
    + intros k Hki Hkm. rewrite Hlook. now rewrite !decide_False by assumption.
  - intros k rk ri Hk. rewrite !Hlook. intros Hrk Hrii.
    assert (Hri' : ri = rm0).
    { destruct (decide (i = m)) as [<-|_]; [congruence|].
      rewrite decide_True in Hrii by reflexivity. congruence. }
    subst ri.
    assert (Hin : forall k', i <= k' < n -> k' = i \/ k' ∈ seq (S i) (n - S i)).
    { intros k' Hk'. destruct (decide (k' = i)); [now left|right].
      apply elem_of_seq. lia. }
    destruct (decide (k = m)) as [->|Hkm].
    + injection Hrk as <-. apply (Hle i ri0 rm0); auto.
    + destruct (decide (k = i)) as [->|Hki].
      * injection Hrk as <-. apply ltb_irrefl.
      * apply (Hle k rk rm0); auto.
Qed.

Lemma pivot_dominates_its_column_witness :
  Gauss.pivoted [[1; 2; 3]; [-4; 5; 6]]%float 0 2 = Js.Normal [[-4; 5; 6]; [1; 2; 3]]%float /\
  forall k rk ri, 0 <= k < 2 ->
    [[-4; 5; 6]; [1; 2; 3]]%float !! k = Some rk ->
    [[-4; 5; 6]; [1; 2; 3]]%float !! 0 = Some ri ->
    Js.gt (Js.Math_abs (Js.get rk 0)) (Js.Math_abs (Js.get ri 0)) = false.
Proof.
  split; [reflexivity|].
  exact (proj2 (pivot_dominates_its_column [[1; 2; 3]; [-4; 5; 6]]%float _ 0 2
                  ltac:(lia) eq_refl)).
Defined.

(** ** Degenerate systems *)

(** X18.  One equation [a x = b]: the solver answers [b / a], and [0] when the
    magnitude of [a] is below the tolerance (so for [a = 0] too). *)
Theorem single_equation (a b : float) :
  Gauss.gaussianElimination [[a]] [b]
  = Js.Normal (Some [if Js.lt (Js.Math_abs a) Gauss.tolerance then 0%float else (b / a)%float]).
Proof.
  unfold Gauss.gaussianElimination, Gauss.forwardElimination, Gauss.backSubstitution.
  cbn [length Nat.eqb Gauss.augment imap app seq Gauss.forwardLoop Gauss.forwardStep
       Gauss.pivoted Gauss.findPivot Nat.sub Js.bind Gauss.swapRows Js.row lookup
       list_lookup insert list_insert Gauss.pivotOf Js.get nth].
  destruct (Js.lt (Js.Math_abs a) Gauss.tolerance) eqn:Hsmall.
  - cbn [Js.bind replicate rev app Gauss.backLoop Gauss.backStep Js.row lookup list_lookup
         Js.get nth].
    rewrite Hsmall. reflexivity.
  - cbn [Gauss.eliminate Js.bind replicate rev app Gauss.backLoop Gauss.backStep Js.row lookup
         list_lookup Js.get nth].
    rewrite Hsmall. reflexivity.
Qed.

(** A matrix with [n] rows whose entries in the columns [0] to [n - 1] are
    all [0]. *)
Definition flat (n : nat) (aug : list (list float)) : Prop :=
  length aug = n /\
  forall k r j, aug !! k = Some r -> j < n -> Js.get r j = 0%float.

Lemma findPivot_flat n aug i ks : forall maxRow,
  flat n aug -> i < n -> maxRow < n -> Forall (fun k => k < n) ks ->
  Gauss.findPivot aug i ks maxRow = Js.Normal maxRow.
Proof.
  induction ks as [|k ks IH]; intros maxRow [Hlen Hz] Hi Hm Hks; cbn [Gauss.findPivot];
    [reflexivity|].
  apply Forall_cons in Hks as [Hk Hks].
  destruct (row_in_range aug k) as [rk Hrk]; [lia|].
  destruct (row_in_range aug maxRow) as [rm Hrm]; [lia|].
  rewrite Hrk, Hrm; cbn [Js.bind].
  apply row_Normal in Hrk, Hrm.
  rewrite (Hz k rk i Hrk Hi), (Hz maxRow rm i Hrm Hi).
  change (Js.gt (Js.Math_abs 0) (Js.Math_abs 0)) with false. cbv iota.
  apply IH; [now split|assumption..].
Qed.

Lemma forwardStep_flat n aug i :
  flat n aug -> i < n -> Gauss.forwardStep n aug i = Js.Normal aug.
Proof.
  intros Hflat Hi. pose proof Hflat as [Hlen Hz]. unfold Gauss.forwardStep, Gauss.pivoted.
  rewrite (findPivot_flat n aug i _ i Hflat Hi Hi).
  2:{ eapply Forall_impl; [apply seq_bounds|]. cbn; intros; lia. }
  cbn [Js.bind]. unfold Gauss.swapRows.
  destruct (row_in_range aug i) as [ri Hri]; [lia|].
  rewrite Hri; cbn [Js.bind]. apply row_Normal in Hri.
  rewrite !(list_insert_id aug i ri) by assumption.
  unfold Gauss.pivotOf, Js.row. rewrite Hri; cbn [Js.bind].
  rewrite (Hz i ri i Hri Hi).
  change (Js.lt (Js.Math_abs 0) Gauss.tolerance) with true. reflexivity.
Qed.

Lemma forwardLoop_flat n aug idx :
  flat n aug -> Forall (fun i => i < n) idx -> Gauss.forwardLoop n aug idx = Js.Normal aug.
Proof.
  intros Hflat. induction idx as [|i idx IH]; intros Hidx; cbn [Gauss.forwardLoop];
    [reflexivity|].
  apply Forall_cons in Hidx as [Hi Hidx].
  rewrite (forwardStep_flat n aug i Hflat Hi). cbn [Js.bind]. now apply IH.
Qed.

Lemma backLoop_flat n aug idx :
  flat n aug -> Forall (fun i => i < n) idx ->
  Gauss.backLoop n aug (replicate n 0%float) idx = Js.Normal (replicate n 0%float).
Proof.
  intros [Hlen Hz]. induction idx as [|i idx IH]; intros Hidx; cbn [Gauss.backLoop];
    [reflexivity|].
  apply Forall_cons in Hidx as [Hi Hidx].
  unfold Gauss.backStep.
  destruct (row_in_range aug i) as [ri Hri]; [lia|].
  rewrite Hri; cbn [Js.bind]. apply row_Normal in Hri.
  rewrite (Hz i ri i Hri Hi).
  change (Js.lt (Js.Math_abs 0) Gauss.tolerance) with true. cbv iota. cbn [Js.bind].
  rewrite set_in_range by (rewrite length_replicate; exact Hi).
  rewrite list_insert_id by (now apply lookup_replicate_2).
  now apply IH.
Qed.

Lemma augment_zero_flat (b : list float) :
  flat (length b)
    (Gauss.augment (replicate (length b) (replicate (length b) 0%float)) b).
Proof.
  split; [now rewrite augment_length, length_replicate|].
  intros k r j Hr Hj. unfold Gauss.augment in Hr.
  rewrite list_lookup_imap in Hr.
  destruct (replicate (length b) (replicate (length b) 0%float) !! k) as [r0|] eqn:Hr0;
    [|discriminate].
  apply lookup_replicate in Hr0 as [-> _]. injection Hr as <-.
  unfold Js.get. rewrite app_nth1 by (rewrite length_replicate; exact Hj).
  rewrite nth_lookup, lookup_replicate_2 by exact Hj. reflexivity.
Qed.

(** X19.  A system whose matrix is all [0]: every pivot is below the tolerance,
    and the solver answers the zero vector whatever the right-hand side
    (and [null] when there is no unknown). *)
Theorem zero_matrix_gives_zero_vector (b : list float) :
  Gauss.gaussianElimination (replicate (length b) (replicate (length b) 0%float)) b
  = Js.Normal (if Nat.eqb (length b) 0 then None else Some (replicate (length b) 0%float)).
Proof.
  unfold Gauss.gaussianElimination.
  destruct (Nat.eqb (length b) 0); [reflexivity|].
  unfold Gauss.forwardElimination, Gauss.backSubstitution.
  pose proof (augment_zero_flat b) as Hflat.
  rewrite (forwardLoop_flat _ _ _ Hflat).
  2:{ eapply Forall_impl; [apply seq_bounds|]. cbn; intros; lia. }
  cbn [Js.bind]. rewrite (backLoop_flat _ _ _ Hflat); [reflexivity|].
  apply Forall_forall. intros i Hi. now apply elem_of_rev_seq in Hi.
Qed.
(** ** What back substitution reads *)

(** Two matrices that agree, in each of the rows [0] to [n - 1], from the
    diagonal to the column [n]. *)
Definition upperAgree (n : nat) (aug aug' : list (list float)) : Prop :=
  forall i, i < n ->
    match aug !! i, aug' !! i with
    | Some r, Some r' => forall j, i <= j <= n -> Js.get r j = Js.get r' j
    | None, None => True
    | _, _ => False
    end.

Lemma substitute_ext ri ri' x js : forall xi,
  (forall j, j ∈ js -> Js.get ri j = Js.get ri' j) ->
  Gauss.substitute ri x js xi = Gauss.substitute ri' x js xi.
Proof.
  unfold Gauss.substitute. induction js as [|j js IH]; intros xi H; cbn [fold_left];
    [reflexivity|].
  rewrite (H j) by (apply elem_of_cons; now left).
  apply IH. intros k Hk. apply H, elem_of_cons. now right.
Qed.

Lemma backStep_upper n aug aug' x i :
  upperAgree n aug aug' -> i < n -> Gauss.backStep n aug x i = Gauss.backStep n aug' x i.
Proof.
  intros H Hi. specialize (H i Hi). unfold Gauss.backStep, Js.row.
  destruct (aug !! i) as [r|], (aug' !! i) as [r'|]; try contradiction; [|reflexivity].
  cbn [Js.bind].
  rewrite (H i) by lia. rewrite (H n) by lia.
  rewrite (substitute_ext r r' x (seq (S i) (n - S i))); [reflexivity|].
  intros j Hj. apply elem_of_seq in Hj. apply H. lia.
Qed.

Lemma backLoop_upper n aug aug' idx : forall x,
  upperAgree n aug aug' -> Forall (fun i => i < n) idx ->
  Gauss.backLoop n aug x idx = Gauss.backLoop n aug' x idx.
Proof.
  induction idx as [|i idx IH]; intros x H Hidx; cbn [Gauss.backLoop]; [reflexivity|].
  apply Forall_cons in Hidx as [Hi Hidx].
  rewrite (backStep_upper n aug aug' x i H Hi).
  destruct (Gauss.backStep n aug' x i) as [x'|]; cbn [Js.bind]; [|reflexivity].
  now apply IH.
Qed.

(** X20.  Back substitution reads, in row [i], the diagonal entry, the entries to
    its right and the right-hand side only: two matrices that agree there
    give the same solution, whatever they hold below the diagonal (where
    the elimination, rounding as it does, need not leave zeros). *)
Theorem back_substitution_reads_upper_triangle (n : nat) (aug aug' : list (list float)) :
  upperAgree n aug aug' -> Gauss.backSubstitution n aug = Gauss.backSubstitution n aug'.
Proof.
  intros H. unfold Gauss.backSubstitution. apply backLoop_upper; [exact H|].
  apply Forall_forall. intros i Hi. now apply elem_of_rev_seq in Hi.
Qed.

(** The elimination of [49 x + y = 1], [x + y = 1]: rounding leaves
    [1.1e-16], not [0], below the diagonal. *)
Example elimination_residue :
  Gauss.forwardElimination 2 [[49; 1; 1]; [1; 1; 1]]%float
  = Js.Normal [[49; 1; 1];
               [1.1102230246251565e-16; 0.97959183673469385; 0.97959183673469385]]%float.
Proof. vm_compute. reflexivity. Qed.

Lemma back_substitution_reads_upper_triangle_witness :
  Gauss.backSubstitution 2
    [[49; 1; 1]; [1.1102230246251565e-16; 0.97959183673469385; 0.97959183673469385]]%float
  = Gauss.backSubstitution 2
      [[49; 1; 1]; [0; 0.97959183673469385; 0.97959183673469385]]%float.
Proof.
  apply back_substitution_reads_upper_triangle.
  intros [|[|i]] Hi; cbn; [| |lia].
  - intros j Hj. reflexivity.
  - intros [|j] Hj; [lia|reflexivity].
Defined.

(** ** What burns a component out *)

(** The test of its own that the [update] of each class makes before the
    thermal one. *)
Definition overload (dt : float) (c : Device.t) : bool :=
  match Component.self c with
  | Device.OfResistor f =>
      let I := Resistor.getCurrent (Component.withSelf c f) in
      Js.gt (I * I * Resistor.resistance f)%float (Resistor.ratedPower f * 2)%float
  | Device.OfLED f =>
      Js.gt (LED.getCurrent (Component.withSelf c f)) (LED.maxCurrent f * 2)%float
  | Device.OfCapacitor f =>
      match Component.terminals c with
      | [t0; t1] =>
          let I := ((Terminal.voltage t0 - Terminal.voltage t1) / Capacitor.esr f)%float in
          Js.gt (Js.Math_abs (Capacitor.charge f + I * dt)%float)
                (Capacitor.maxVoltage f * Capacitor.capacitance f)%float
      | _ => false
      end
  | Device.OfBattery _ | Device.OfSwitch _ | Device.OfMotor _ => false
  end.

Lemma upcast_burned {F} (inj : F -> Device.Fields) (c : Component.t F) :
  Component.isBurned (Device.upcast inj c) = Component.isBurned c.
Proof. reflexivity. Qed.

Lemma upcast_temperature {F} (inj : F -> Device.Fields) (c : Component.t F) :
  Component.temperature (Device.upcast inj c) = Component.temperature c.
Proof. reflexivity. Qed.

Lemma withTerminals_burned {F} (c : Component.t F) ts :
  Component.isBurned (Component.withTerminals c ts) = Component.isBurned c.
Proof. reflexivity. Qed.

Lemma withTerminals_temperature {F} (c : Component.t F) ts :
  Component.temperature (Component.withTerminals c ts) = Component.temperature c.
Proof. reflexivity. Qed.

(** X21.  The burned flag after a tick: it was set before, or the component
    failed the test of its class (a resistor dissipating more than twice
    its rated power, an LED carrying more than twice its rated current, a
    capacitor charged beyond its rated voltage), or its new temperature is
    above its maximum.  A battery, a switch and a motor burn out by
    temperature only. *)
Theorem burnout_conditions (Math_exp : float -> float) (dt : float) (c : Device.t) :
  Component.isBurned (Device.update Math_exp dt c)
  = Component.isBurned c || overload dt c
    || Js.gt (Component.temperature (Device.update Math_exp dt c)) (Component.maxTemperature c).
Proof.
  unfold Device.update, overload.
  destruct c as [[f|f|f|f|f|f] ts T mT b p]; cbn [Component.self];
    rewrite upcast_burned, upcast_temperature.
  - unfold Battery.update. rewrite updateTemperature_burned. cbn.
    now rewrite orb_false_r.
  - unfold Resistor.update; cbv zeta.
    rewrite withTerminals_burned, withTerminals_temperature, updateTemperature_burned.
    cbn -[Component.updateTemperature Resistor.getCurrent].
    match goal with |- context [if ?t then _ else _] => destruct t end;
      cbn -[Component.updateTemperature Resistor.getCurrent];
      rewrite ?orb_true_r, ?orb_false_r; reflexivity.
  - unfold LED.update; cbv zeta.
    rewrite withTerminals_burned, withTerminals_temperature, updateTemperature_burned.
    cbn -[Component.updateTemperature LED.getCurrent].
    repeat match goal with |- context [if ?t then _ else _] => destruct t end;
      cbn -[Component.updateTemperature LED.getCurrent];
      rewrite ?orb_true_r, ?orb_false_r; reflexivity.
  - unfold Capacitor.update; cbv zeta.
    rewrite updateTemperature_burned.
    unfold Capacitor.integrate.
    cbn -[Component.updateTemperature].
    destruct ts as [|t0 [|t1 [|? ?]]], b; cbn -[Component.updateTemperature];
      rewrite ?orb_true_r, ?orb_false_r; try reflexivity.
    match goal with |- context [if ?t then _ else _] => destruct t end;
      cbn -[Component.updateTemperature]; rewrite ?orb_true_r, ?orb_false_r; reflexivity.
  - unfold Switch.update; cbv zeta.
    rewrite withTerminals_burned, withTerminals_temperature, updateTemperature_burned.
    cbn -[Component.updateTemperature Switch.getCurrent]. now rewrite orb_false_r.
  - unfold Motor.update. cbn [Component.isBurned Component.withSelf].
    destruct b; [reflexivity|]. cbv zeta.
    rewrite withTerminals_burned, withTerminals_temperature, updateTemperature_burned.
    cbn -[Component.updateTemperature Motor.getCurrent]. reflexivity.
Qed.

(** ** The currents a tick writes *)

(** The current [update] stores on the terminals of a component with two
    terminals, when it stores one. *)
Definition ownCurrent (c : Device.t) : option float :=
  match Component.self c, Component.terminals c with
  | Device.OfBattery _, _ => None
  | Device.OfCapacitor f, [t0; t1] =>
      if Component.isBurned c then None
      else Some ((Terminal.voltage t0 - Terminal.voltage t1) / Capacitor.esr f)%float
  | Device.OfMotor _, [_; _] =>
      if Component.isBurned c then None else Some (Device.getCurrent c)
  | _, [_; _] => Some (Device.getCurrent c)
  | _, _ => None
  end.

(** X22.  The [update] of a component with two terminals stores on them the
    current of the component itself and its opposite: the current
    [getCurrent] answered before the tick for a resistor, an LED, a switch
    and a motor that is not burned out, the current through the ESR for a
    capacitor that is not burned out.  A battery, a burned-out capacitor and
    a burned-out motor keep the currents their terminals had, as does any
    component that has not two terminals. *)
Theorem update_writes_own_current (Math_exp : float -> float) (dt : float) (c : Device.t) :
  Component.terminals (Device.update Math_exp dt c)
  = match ownCurrent c, Component.terminals c with
    | Some current, [t0; t1] =>
        [Terminal.withCurrent t0 current; Terminal.withCurrent t1 (- current)%float]
    | _, ts => ts
    end.
Proof.
  unfold Device.update, ownCurrent, Device.getCurrent.
  destruct c as [[f|f|f|f|f|f] ts T mT b p]; cbn [Component.self Component.terminals].
  - unfold Device.upcast, Battery.update.
    cbn -[Component.updateTemperature]. now rewrite updateTemperature_terminals.
  - unfold Device.upcast, Resistor.update.
    cbn -[Component.updateTemperature Resistor.getCurrent].
    rewrite updateTemperature_terminals.
    match goal with |- context [if ?t then _ else _] => destruct t end;
      cbn -[Resistor.getCurrent]; destruct ts as [|? [|? [|? ?]]]; reflexivity.
  - unfold Device.upcast, LED.update.
    cbn -[Component.updateTemperature LED.getCurrent].
    rewrite updateTemperature_terminals.
    repeat match goal with |- context [if ?t then _ else _] => destruct t end;
      cbn -[LED.getCurrent]; destruct ts as [|? [|? [|? ?]]]; reflexivity.
  - unfold Device.upcast, Capacitor.update.
    cbn -[Component.updateTemperature Capacitor.integrate].
    rewrite updateTemperature_terminals. cbn -[Capacitor.integrate].
    unfold Capacitor.integrate; cbn.
    destruct ts as [|? [|? [|? ?]]], b; reflexivity.
  - unfold Device.upcast, Switch.update.
    cbn -[Component.updateTemperature Switch.getCurrent].
    rewrite updateTemperature_terminals.
    cbn -[Switch.getCurrent]; destruct ts as [|? [|? [|? ?]]]; reflexivity.
  - unfold Device.upcast, Motor.update. cbn [Component.isBurned Component.withSelf].
    destruct b.
    + cbn. destruct ts as [|? [|? [|? ?]]]; reflexivity.
    + cbn -[Component.updateTemperature Motor.getCurrent].
      rewrite updateTemperature_terminals.
      cbn -[Motor.getCurrent]; destruct ts as [|? [|? [|? ?]]]; reflexivity.
Qed.
(** ** Resistor.setResistance *)

(** X23.  [setResistance] never stores a resistance below 0.1 ohm: a request
    above 0.1 is stored as it is, a request below it as 0.1, and a request
    that is [NaN] as [NaN]; the terminals and the burned flag are left as
    they were, and a resistor that is not burned out reports the stored
    value. *)
Theorem Resistor_setResistance_floor (r : float) (this : Resistor.t) :
  let this' := Resistor.setResistance r this in
  let R := Resistor.resistance (Component.self this') in
  Js.lt R 0.1 = false /\
  (Js.gt r 0.1 = true -> R = r) /\
  (Js.lt r 0.1 = true -> R = 0.1%float) /\
  (PrimFloat.is_nan r = true -> R = Js.NaN) /\
  (Component.isBurned this' = false -> Resistor.getResistance this' = R) /\
  Component.terminals this' = Component.terminals this /\
  Component.isBurned this' = Component.isBurned this.
Proof.
  cbn. split; [apply Math_max_ge_l|].
  split; [|split; [|split; [|split; [|split]]]]; try reflexivity.
  - unfold Js.gt, Js.Math_max; intros H.
    rewrite (ltb_not_nan_r _ _ H), H. reflexivity.
  - unfold Js.lt, Js.Math_max; intros H.
    rewrite (ltb_not_nan_l _ _ H), H, (ltb_asym _ _ H). reflexivity.
  - apply Math_max_nan_r.
  - unfold Resistor.getResistance; cbn. now intros ->.
Qed.

(** ** LED.update: the brightness *)

Lemma LED_update_brightness (Math_exp : float -> float) (dt : float) (l : LED.t) :
  let f := Component.self l in
  LED.brightness (Component.self (LED.update Math_exp dt l))
  = if Js.gt (LED.getCurrent l) (LED.maxCurrent f * 2)%float then 0%float
    else if Js.gt (LED.getCurrent l) 0 && negb (Component.isBurned l)
         then Js.Math_min (LED.getCurrent l / LED.maxCurrent f) 1
         else 0%float.
Proof.
  unfold LED.update; cbv zeta.
  match goal with
  | |- context [Component.self (Component.withTerminals ?c ?ts)] =>
      change (Component.self (Component.withTerminals c ts)) with (Component.self c)
  end.
  rewrite updateTemperature_self.
  destruct (Js.gt (LED.getCurrent l) 0 && negb (Component.isBurned l));
    destruct (Js.gt (LED.getCurrent l) (LED.maxCurrent (Component.self l) * 2));
    reflexivity.
Qed.

(** X24.  After a tick the brightness of an LED is never below 0 and never above
    1, and it is 0 when the LED was burned out or carried no current. *)
Theorem LED_brightness_in_unit_interval (Math_exp : float -> float) (dt : float) (l : LED.t) :
  Js.gt (LED.maxCurrent (Component.self l)) 0 = true ->
  let l' := LED.update Math_exp dt l in
  let B := LED.brightness (Component.self l') in
  Js.lt B 0 = false /\ Js.gt B 1 = false /\
  (Component.isBurned l = true -> B = 0%float) /\
  (Js.gt (LED.getCurrent l) 0 = false -> B = 0%float).
Proof.
  intros Hmax l' B. unfold B, l'. rewrite LED_update_brightness. cbv zeta.
  destruct (Js.gt (LED.getCurrent l) (LED.maxCurrent (Component.self l) * 2)) eqn:Hover.
  { repeat split; reflexivity. }
  destruct (Js.gt (LED.getCurrent l) 0) eqn:Hpos; cbn [andb];
    [|repeat split; reflexivity].
  destruct (Component.isBurned l); cbn [negb]; [repeat split; reflexivity|].
  split; [|split; [|split; discriminate]].
  - apply Math_min_not_below; [now apply div_pos_not_neg|reflexivity].
  - now apply Math_min_le_r.
Qed.

(** A red LED under 2.2 V. *)
Definition litLED : LED.t := redLED 2.2 0.

Lemma LED_brightness_in_unit_interval_witness :
  let B := LED.brightness (Component.self (LED.update (fun _ => 1%float) 0.016 litLED)) in
  Js.lt B 0 = false /\ Js.gt B 1 = false.
Proof.
  destruct (LED_brightness_in_unit_interval (fun _ => 1%float) 0.016 litLED eq_refl)
    as (H0 & H1 & _).
  split; [exact H0|exact H1].
Defined.

Example litLED_brightness :
  LED.getCurrent litLED = 0.020000000000000018%float /\
  LED.brightness (Component.self (LED.update (fun _ => 1%float) 0.016 litLED))
  = 0.66666666666666730%float.
Proof. vm_compute. split; reflexivity. Qed.

(** ** Motor.update: the speed *)

Lemma Motor_update_rpm (Math_exp : float -> float) (dt : float) (m : Motor.t) :
  Component.isBurned m = false ->
  let f := Component.self m in
  let current := Motor.getCurrent m in
  let rpmAcceleration := (0.01 * current / 0.0001 * (60 / (2 * Js.Math_PI)))%float in
  Motor.rpm (Component.self (Motor.update Math_exp dt m))
  = Js.Math_max 0
      (Js.Math_min (Motor.rpm f + (rpmAcceleration - 0.1 * Motor.rpm f) * dt)%float
                   (Motor.maxRPM f)).
Proof.
  intros Hb. unfold Motor.update; rewrite Hb; cbv zeta.
  match goal with
  | |- context [Component.self (Component.withTerminals ?c ?ts)] =>
      change (Component.self (Component.withTerminals c ts)) with (Component.self c)
  end.
  rewrite updateTemperature_self. reflexivity.
Qed.

Lemma not_nan_spec x : PrimFloat.is_nan x = false <-> Prim2SF x <> S754_nan.
Proof.
  split.
  - intros H E. apply is_nan_spec in E. congruence.
  - intros H. destruct (PrimFloat.is_nan x) eqn:E; [|reflexivity].
    apply is_nan_spec in E. contradiction.
Qed.

Lemma SFcompare_numbers a b :
  a <> S754_nan -> b <> S754_nan -> SFcompare a b <> None.
Proof.
  intros Ha Hb.
  destruct a as [sa|sa| |sa ma ea], b as [sb|sb| |sb mb eb]; try congruence; cbn;
    try destruct sa; try destruct sb; try discriminate;
    destruct (ea ?= eb)%Z; discriminate.
Qed.

(** Numbers are totally ordered: of two that are not [NaN], one that is not
    below the other is at or above it. *)
Lemma leb_of_not_ltb x y :
  PrimFloat.is_nan x = false -> PrimFloat.is_nan y = false ->
  PrimFloat.ltb x y = false -> PrimFloat.leb y x = true.
Proof.
  rewrite !not_nan_spec, ltb_spec, leb_spec. unfold SFltb, SFleb. intros Hx Hy.
  rewrite (SFcompare_swap (Prim2SF x) (Prim2SF y)).
  pose proof (SFcompare_numbers _ _ Hx Hy) as Hc.
  destruct (SFcompare (Prim2SF x) (Prim2SF y)) as [[]|]; cbn; congruence.
Qed.

Lemma ltb_leb x y : PrimFloat.ltb x y = true -> PrimFloat.leb x y = true.
Proof.
  rewrite ltb_spec, leb_spec. unfold SFltb, SFleb.
  destruct (SFcompare (Prim2SF x) (Prim2SF y)) as [[]|]; congruence.
Qed.

Lemma leb_not_nan x y :
  PrimFloat.leb x y = true -> PrimFloat.is_nan x = false /\ PrimFloat.is_nan y = false.
Proof.
  rewrite leb_spec, !not_nan_spec. unfold SFleb. intros H; split; intros E; rewrite E in H.
  - discriminate H.
  - destruct (Prim2SF x) as [| | |]; discriminate H.
Qed.

Lemma leb_refl x : PrimFloat.is_nan x = false -> PrimFloat.leb x x = true.
Proof. intros H. apply leb_of_not_ltb; [exact H|exact H|apply ltb_irrefl]. Qed.

(** [Math.max(0, Math.min(x, c))] for a number [x] and a limit [c] that is
    not negative: a number from [0] to [c]. *)
Lemma clamp_in_range x c :
  PrimFloat.is_nan x = false -> PrimFloat.leb 0 c = true ->
  PrimFloat.leb 0 (Js.Math_max 0 (Js.Math_min x c)) = true /\
  PrimFloat.leb (Js.Math_max 0 (Js.Math_min x c)) c = true.
Proof.
  intros Hx Hc. destruct (leb_not_nan _ _ Hc) as [H0 Hcn].
  assert (Hw : PrimFloat.is_nan (Js.Math_min x c) = false /\
               PrimFloat.leb (Js.Math_min x c) c = true).
  { unfold Js.Math_min. rewrite Hx, Hcn. cbn [orb].
    destruct (PrimFloat.ltb x c) eqn:Hxc; [split; [exact Hx|now apply ltb_leb]|].
    destruct (PrimFloat.ltb c x) eqn:Hcx; [split; [exact Hcn|now apply leb_refl]|].
    destruct (PrimFloat.get_sign x);
      [split; [exact Hx|now apply leb_of_not_ltb]|split; [exact Hcn|now apply leb_refl]]. }
  destruct Hw as [Hwn Hwc]. set (w := Js.Math_min x c) in *.
  unfold Js.Math_max. rewrite H0, Hwn. cbn [orb].
  destruct (PrimFloat.ltb 0 w) eqn:H0w; [split; [now apply ltb_leb|exact Hwc]|].
  destruct (PrimFloat.ltb w 0) eqn:Hw0; [split; [now apply leb_refl|exact Hc]|].
  destruct (PrimFloat.get_sign 0);
    [split; [now apply leb_of_not_ltb|exact Hwc]|split; [now apply leb_refl|exact Hc]].
Qed.

Lemma Math_min_nan_l x c : PrimFloat.is_nan x = true -> Js.Math_min x c = nan.
Proof. intros H; unfold Js.Math_min; now rewrite H. Qed.

Lemma mul_nan_l x y : PrimFloat.is_nan x = true -> PrimFloat.is_nan (x * y) = true.
Proof. rewrite !is_nan_spec, mul_spec. now intros ->. Qed.

Lemma mul_nan_r x y : PrimFloat.is_nan y = true -> PrimFloat.is_nan (x * y) = true.
Proof.
  rewrite !is_nan_spec, mul_spec. intros ->.
  destruct (Prim2SF x) as [| | |]; reflexivity.
Qed.

Lemma div_nan_l x y : PrimFloat.is_nan x = true -> PrimFloat.is_nan (x / y) = true.
Proof. rewrite !is_nan_spec, div_spec. now intros ->. Qed.

Lemma sub_nan_l x y : PrimFloat.is_nan x = true -> PrimFloat.is_nan (x - y) = true.
Proof. rewrite !is_nan_spec, sub_spec. now intros ->. Qed.

(** X25.  A tick of a motor that is not burned out stores
    [Math.max(0, Math.min(v, maxRPM))] as its speed, [v] being the speed the
    acceleration and the friction give before the clamp.  When [v] is a
    number the new speed is a number from 0 to [maxRPM]; when [v] is [NaN],
    as it is for a [deltaTime] or a current that is [NaN], the new speed is
    [NaN]: the clamp does not catch it.  [maxRPM] is left as it was. *)
Theorem Motor_rpm_stays_in_range (Math_exp : float -> float) (dt : float) (m : Motor.t) :
  Component.isBurned m = false ->
  PrimFloat.leb 0 (Motor.maxRPM (Component.self m)) = true ->
  let f := Component.self m in
  let rpmAcceleration := (0.01 * Motor.getCurrent m / 0.0001 * (60 / (2 * Js.Math_PI)))%float in
  let unclamped := (Motor.rpm f + (rpmAcceleration - 0.1 * Motor.rpm f) * dt)%float in
  let m' := Motor.update Math_exp dt m in
  let rpm' := Motor.rpm (Component.self m') in
  (PrimFloat.is_nan unclamped = false ->
   PrimFloat.leb 0 rpm' = true /\ PrimFloat.leb rpm' (Motor.maxRPM f) = true) /\
  (PrimFloat.is_nan unclamped = true -> rpm' = Js.NaN) /\
  (PrimFloat.is_nan dt = true -> rpm' = Js.NaN) /\
  (PrimFloat.is_nan (Motor.getCurrent m) = true -> rpm' = Js.NaN) /\
  Motor.maxRPM (Component.self m') = Motor.maxRPM f.
Proof.
  intros Hb Hmax f rpmAcceleration unclamped m' rpm'.
  assert (Hrpm : rpm' = Js.Math_max 0 (Js.Math_min unclamped (Motor.maxRPM f))).
  { unfold rpm', m'. now rewrite (Motor_update_rpm Math_exp dt m Hb). }
  assert (Hnan : PrimFloat.is_nan unclamped = true -> rpm' = Js.NaN).
  { intros Hn. rewrite Hrpm, (Math_min_nan_l _ _ Hn). now apply Math_max_nan_r. }
  split; [|split; [exact Hnan|split; [|split]]].
  - intros Hn. rewrite Hrpm. now apply clamp_in_range.
  - intros Hdt. apply Hnan. unfold unclamped. now apply add_nan_r, mul_nan_r.
  - intros Hc. apply Hnan. unfold unclamped, rpmAcceleration.
    now apply add_nan_r, mul_nan_l, sub_nan_l, mul_nan_l, div_nan_l, mul_nan_r.
  - unfold m', Motor.update; rewrite Hb; cbv zeta.
    match goal with
    | |- context [Component.self (Component.withTerminals ?c ?ts)] =>
        change (Component.self (Component.withTerminals c ts)) with (Component.self c)
    end.
    rewrite updateTemperature_self. reflexivity.
Qed.

(** A motor as [new Motor(position)] builds it, with [va] and [vb] on its
    terminals. *)
Definition motor (va vb : float) : Motor.t :=
  let this := fst (Motor.new ids0) in
  match Component.terminals this with
  | [t0; t1] =>
      Component.withTerminals this [Terminal.withVoltage t0 va; Terminal.withVoltage t1 vb]
  | _ => this
  end.

(** The theorem at a motor under 9 V, a tick of a tenth of a second. *)
Lemma Motor_rpm_stays_in_range_witness :
  let m' := Motor.update (fun _ => 1%float) 0.1 (motor 9 0) in
  PrimFloat.leb 0 (Motor.rpm (Component.self m')) = true /\
  PrimFloat.leb (Motor.rpm (Component.self m')) 5000 = true.
Proof.
  destruct (Motor_rpm_stays_in_range (fun _ => 1%float) 0.1 (motor 9 0) eq_refl eq_refl)
    as (H & _).
  exact (H eq_refl).
Defined.

(** A tick of ten seconds under 9 V stops at the limit, and one under the
    reverse voltage at rest. *)
Example motor_speed_limits :
  Motor.rpm (Component.self (Motor.update (fun _ => 1%float) 10 (motor 9 0))) = 5000%float /\
  Motor.rpm (Component.self (Motor.update (fun _ => 1%float) 10 (motor 0 9))) = 0%float.
Proof. vm_compute. split; reflexivity. Qed.

(** A tick whose [deltaTime] is [NaN], and one with [NaN] volt on a terminal. *)
Example motor_nan :
  Motor.rpm (Component.self (Motor.update (fun _ => 1%float) nan (motor 9 0))) = nan /\
  Motor.rpm (Component.self (Motor.update (fun _ => 1%float) 0.016 (motor nan 0))) = nan.
Proof. vm_compute. split; reflexivity. Qed.

(** ** Switch.toggle *)

(** X26.  [toggle] twice gives the switch back as it was; one [toggle] exchanges
    the resistance reported, between [openResistance] and
    [closedResistance]; and an open switch carries no current, whatever the
    voltages on its terminals. *)
Theorem Switch_toggle_involutive (s : Switch.t) :
  Switch.toggle (Switch.toggle s) = s /\
  Switch.getResistance (Switch.toggle s)
  = (if Switch.isOpen (Component.self s)
     then Switch.closedResistance (Component.self s)
     else Switch.openResistance (Component.self s)) /\
  (Switch.isOpen (Component.self s) = true -> Switch.getCurrent s = 0%float) /\
  (Switch.isOpen (Component.self s) = false ->
   Switch.getCurrent (Switch.toggle s) = 0%float).
Proof.
  destruct s as [[o c r] ts T mT b p].
  unfold Switch.toggle, Switch.setOpen, Switch.getResistance, Switch.getCurrent; cbn.
  rewrite negb_involutive. split; [reflexivity|]. split; [now destruct o|].
  split; intros ->; destruct ts as [|? [|? [|? ?]]]; reflexivity.
Qed.

(** ** Battery.setVoltage *)

(** X27.  [setVoltage] leaves a battery as its constructor would have built it
    with the new voltage: the field and the voltage of terminal 1 both
    change; [getVoltage] then answers the new voltage, and [0] for a battery
    that is burned out. *)
Theorem Battery_setVoltage_as_constructed (v v' : float) (s : Ids.t) :
  Battery.setVoltage v' (fst (Battery.new v s)) = fst (Battery.new v' s) /\
  Battery.getVoltage (Battery.setVoltage v' (fst (Battery.new v s))) = v' /\
  forall b : Battery.t,
    Component.isBurned b = true -> Battery.getVoltage (Battery.setVoltage v' b) = 0%float.
Proof.
  split; [reflexivity|]. split; [reflexivity|].
  intros b Hb. unfold Battery.getVoltage, Battery.setVoltage; cbn.
  destruct (Component.terminals b) as [|? [|? [|? ?]]]; cbn; now rewrite Hb.
Qed.

(** ** The pointer *)

Lemma find_first {A} (f : A -> bool) (l : list A) :
  match List.find f l with
  | Some x => f x = true /\ exists l1 l2, l = l1 ++ x :: l2 /\ forall y, y ∈ l1 -> f y = false
  | None => forall y, y ∈ l -> f y = false
  end.
Proof.
  induction l as [|a l IH]; cbn; [intros y Hy; inversion Hy|].
  destruct (f a) eqn:Ha.
  - split; [exact Ha|]. exists [], l. split; [reflexivity|]. intros y Hy; inversion Hy.
  - destruct (List.find f l) as [x|].
    + destruct IH as (Hx & l1 & l2 & -> & Hl1). split; [exact Hx|].
      exists (a :: l1), l2. split; [reflexivity|].
      intros y Hy. apply elem_of_cons in Hy as [->|Hy]; auto.
    + intros y Hy. apply elem_of_cons in Hy as [->|Hy]; auto.
Qed.

(** X28.  [getComponentAt] answers the component under the position that was
    added last, and [null] when no listed component is under it. *)
Theorem getComponentAt_topmost (L : Layout.t) (position : Vector2.t) (s : CircuitSimulator.t) :
  match CircuitSimulator.getComponentAt L position s with
  | Some c =>
      Layout.containsPoint L c position = true /\
      exists below above,
        CircuitSimulator.getComponents s = below ++ c :: above /\
        forall c', c' ∈ above -> Layout.containsPoint L c' position = false
  | None =>
      forall c, c ∈ CircuitSimulator.getComponents s ->
                Layout.containsPoint L c position = false
  end.
Proof.
  unfold CircuitSimulator.getComponentAt, CircuitSimulator.getComponents.
  pose proof (find_first (fun c => Layout.containsPoint L c position)
                (rev (CircuitSimulator.components s))) as H.
  destruct (List.find _ _) as [c|].
  - destruct H as (Hc & l1 & l2 & Hrev & Hl1). split; [exact Hc|].
    exists (rev l2), (rev l1). split.
    + rewrite <- (rev_involutive (CircuitSimulator.components s)), Hrev.
      rewrite rev_app_distr. cbn. now rewrite <- app_assoc.
    + intros c' Hc'. apply Hl1. now apply list_elem_of_In, in_rev, list_elem_of_In.
  - intros c Hc. apply H. now apply list_elem_of_In, in_rev, list_elem_of_In in Hc.
Qed.

Section WireTool.
Variable Math_sqrt : float -> float.
Variable L : Layout.t.

(** Every number below [m'] is below [m]. *)
Definition atMost (m' m : float) : Prop := forall x, Js.lt x m' = true -> Js.lt x m = true.

Lemma nearer_all c position idx : forall best,
  let best' := fold_left (InputManager.nearer Math_sqrt L c position) idx best in
  atMost (snd best') (snd best) /\
  (forall j, j ∈ idx ->
     Js.lt (Vector2.distance Math_sqrt position (Layout.terminalPosition L c j)) (snd best')
     = false) /\
  (best' = best \/
   (fst best' ∈ idx /\
    snd best'
    = Vector2.distance Math_sqrt position (Layout.terminalPosition L c (fst best')))).
Proof.
  induction idx as [|i idx IH]; intros [ct m]; cbn [fold_left].
  - split; [intros x Hx; exact Hx|]. split; [intros j Hj; inversion Hj|now left].
  - set (d := Vector2.distance Math_sqrt position (Layout.terminalPosition L c i)).
    assert (Hstep : InputManager.nearer Math_sqrt L c position (ct, m) i
                    = if Js.lt d m then (i, d) else (ct, m)) by reflexivity.
    rewrite Hstep.
    destruct (Js.lt d m) eqn:Hlt.
    + destruct (IH (i, d)) as (Hle & Hall & Hsel). cbn [fst snd] in *.
      split; [|split].
      * intros x Hx. apply Hle in Hx. unfold Js.lt in *. eapply ltb_trans; eauto.
      * intros j Hj. apply elem_of_cons in Hj as [->|Hj]; [|now apply Hall].
        fold d. match goal with |- ?t = false => destruct t eqn:Hd; [|reflexivity] end.
        apply Hle in Hd. unfold Js.lt in Hd. now rewrite ltb_irrefl in Hd.
      * right. destruct Hsel as [->|[Hin Hd]]; cbn [fst snd].
        -- split; [apply elem_of_cons; now left|reflexivity].
        -- split; [apply elem_of_cons; now right|exact Hd].
    + destruct (IH (ct, m)) as (Hle & Hall & Hsel). cbn [fst snd] in *.
      split; [exact Hle|split].
      * intros j Hj. apply elem_of_cons in Hj as [->|Hj]; [|now apply Hall].
        fold d. match goal with |- ?t = false => destruct t eqn:Hd; [|reflexivity] end.
        apply Hle in Hd. congruence.
      * destruct Hsel as [Heq|[Hin Hd]]; [now left|right].
        split; [apply elem_of_cons; now right|exact Hd].
Qed.

(** X29.  The terminal search of the wire tool: no terminal of the component is
    nearer to the position than the distance it ends with, which is the
    distance of the terminal it chose, unless it chose none (the index [0]
    it started with is then kept, with the distance [Infinity]); the index
    of a component that has terminals is the index of one of them. *)
Theorem closest_terminal_is_nearest (terminals : list Terminal.t) (c : nat)
    (position : Vector2.t) :
  let dist j := Vector2.distance Math_sqrt position (Layout.terminalPosition L c j) in
  let best := InputManager.closest Math_sqrt L terminals c position in
  (forall j, j < length terminals -> Js.lt (dist j) (snd best) = false) /\
  (best = (0, Js.Infinity) \/
   (fst best < length terminals /\ snd best = dist (fst best))) /\
  (terminals <> [] -> fst best < length terminals).
Proof.
  intros dist best. unfold best, InputManager.closest.
  destruct (nearer_all c position (seq 0 (length terminals)) (0, Js.Infinity))
    as (_ & Hall & Hsel).
  split; [|split].
  - intros j Hj. apply Hall. apply elem_of_seq. lia.
  - destruct Hsel as [->|[Hin Hd]]; [now left|right].
    split; [apply elem_of_seq in Hin; lia|exact Hd].
  - intros Hne. destruct Hsel as [->|[Hin _]].
    + cbn. destruct terminals; [contradiction|cbn; lia].
    + apply elem_of_seq in Hin. lia.
Qed.

Lemma getComponentAt_listed position s c :
  CircuitSimulator.getComponentAt L position s = Some c -> c ∈ CircuitSimulator.components s.
Proof.
  unfold CircuitSimulator.getComponentAt. intros H.
  apply find_some in H as [H _]. now apply list_elem_of_In, in_rev.
Qed.

Lemma closest_in_range terminals c position :
  terminals <> [] ->
  fst (InputManager.closest Math_sqrt L terminals c position) < length terminals.
Proof.
  intros Hne. unfold InputManager.closest.
  destruct (nearer_all c position (seq 0 (length terminals)) (0, Js.Infinity))
    as (_ & _ & [->|[Hin _]]).
  - cbn. destruct terminals; [contradiction|cbn; lia].
  - apply elem_of_seq in Hin. lia.
Qed.

(** X30.  The wire tool: a press on a component followed by a release on
    another one adds one wire, to the simulator and to its engine, from the
    component pressed to the component released on, both of them listed by
    the simulator, and at the index of one of its terminals on each
    component that has terminals; a release on the same component or on no
    component adds nothing.  Either way the tool forgets the component
    pressed. *)
Theorem wire_tool_joins_listed_components (ref : nat) (down up : Vector2.t) (h : Heap.t)
    (s : CircuitSimulator.t) (this : InputManager.t) (c1 : nat) :
  CircuitSimulator.getComponentAt L down s = Some c1 ->
  let pressed := InputManager.startWire Math_sqrt L down h s this in
  let '(h', s', released) := InputManager.endWire Math_sqrt L ref up h s pressed in
  InputManager.wireStartComponent released = None /\
  match CircuitSimulator.getComponentAt L up s with
  | Some c2 =>
      if Nat.eqb c2 c1 then h' = h /\ s' = s
      else
        exists w,
          CircuitSimulator.wires s' = CircuitSimulator.wires s ++ [w] /\
          PhysicsEngine.wires (CircuitSimulator.physicsEngine s')
          = PhysicsEngine.wires (CircuitSimulator.physicsEngine s) ++ [w] /\
          CircuitSimulator.components s' = CircuitSimulator.components s /\
          Wire.ref w = ref /\
          Wire.startComponent w = c1 /\ Wire.endComponent w = c2 /\
          c1 <> c2 /\
          c1 ∈ CircuitSimulator.components s /\ c2 ∈ CircuitSimulator.components s /\
          (InputManager.getTerminals (Heap.objects h) c1 <> [] ->
           Wire.startTerminal w < length (InputManager.getTerminals (Heap.objects h) c1)) /\
          (InputManager.getTerminals (Heap.objects h) c2 <> [] ->
           Wire.endTerminal w < length (InputManager.getTerminals (Heap.objects h) c2))
  | None => h' = h /\ s' = s
  end.
Proof.
  intros Hdown pressed.
  unfold pressed, InputManager.startWire, InputManager.endWire. rewrite Hdown.
  cbn [InputManager.wireStartComponent InputManager.wireStartTerminal].
  destruct (CircuitSimulator.getComponentAt L up s) as [c2|] eqn:Hup; [|now split].
  destruct (Nat.eqb_spec c2 c1) as [->|Hne]; [now split|].
  unfold CircuitSimulator.addWire, PhysicsEngine.addWire.
  cbn [PhysicsEngine.rebuildCircuit].
  split; [reflexivity|].
  eexists. cbn [CircuitSimulator.wires CircuitSimulator.physicsEngine CircuitSimulator.components
                PhysicsEngine.wires PhysicsEngine.withNodes].
  split; [reflexivity|]. split; [reflexivity|]. split; [reflexivity|].
  cbn [Wire.ref Wire.startComponent Wire.endComponent Wire.startTerminal Wire.endTerminal].
  split; [reflexivity|]. split; [reflexivity|]. split; [reflexivity|].
  split; [congruence|].
  split; [now apply (getComponentAt_listed down)|].
  split; [now apply (getComponentAt_listed up)|].
  split; apply closest_in_range.
Qed.

End WireTool.

(** Two resistors side by side, 70 by 30 each, centred at (100, 100) and
    (300, 100), their terminals at the two ends. *)
Definition sideBySide : Layout.t :=
  Layout.mk
    (fun c => Vector2.mk (if Nat.eqb c 0 then 100 else 300)%float 100%float)
    (fun _ => 70%float) (fun _ => 30%float)
    (fun c index =>
       Vector2.mk ((if Nat.eqb c 0 then 100 else 300)
                   + (if Nat.eqb index 0 then -35 else 35))%float 100%float).

Definition twoPlaced : Heap.t * CircuitSimulator.t :=
  let h := freshHeap [0.5; 0.0000035; 0.0000045; 0.5; 0.0000075; 0.0000085]%float in
  let (r1, h) := allocate Device.OfResistor (Resistor.new 1000) h in
  let (r2, h) := allocate Device.OfResistor (Resistor.new 1000) h in
  let s := CircuitSimulator.new PhysicsEngine.empty in
  let (h, s) := CircuitSimulator.addComponent r1 h s in
  CircuitSimulator.addComponent r2 h s.

(** A press at (110, 100) and a release at (290, 100) with the wire tool. *)
Lemma wire_tool_joins_listed_components_witness :
  exists h' s' released,
    InputManager.endWire PrimFloat.sqrt sideBySide 7 (Vector2.mk 290 100) (fst twoPlaced)
      (snd twoPlaced)
      (InputManager.startWire PrimFloat.sqrt sideBySide (Vector2.mk 110 100) (fst twoPlaced)
         (snd twoPlaced) (InputManager.setMode InputManager.WIRE InputManager.new))
    = (h', s', released) /\
    InputManager.wireStartComponent released = None /\
    CircuitSimulator.wires s' = [Wire.mk 7 0 1 1 0] /\
    nodesOf h' 0 = [3; 4]%Z /\ nodesOf h' 1 = [4; 8]%Z.
Proof.
  pose proof (wire_tool_joins_listed_components PrimFloat.sqrt sideBySide 7
                (Vector2.mk 110 100) (Vector2.mk 290 100) (fst twoPlaced) (snd twoPlaced)
                (InputManager.setMode InputManager.WIRE InputManager.new) 0 eq_refl) as H.
  cbv zeta in H.
  destruct (InputManager.endWire _ _ _ _ _ _ _) as [[h' s'] released] eqn:He.
  exists h', s', released. split; [reflexivity|]. split; [exact (proj1 H)|].
  vm_compute in He. injection He as <- <- _. repeat split.
Defined.
